(** * Reverse Assist 2.0: the agreement-aggregation pipeline of [src/app/page.tsx]

    A shallow embedding of the label normalizer [toTitleCase], of the
    agreement resolver and of the major aggregator
    [getAndSetInstitutionAgreements], with the JavaScript built-ins they call
    (strings of UTF-16 code units, [RegExp.prototype.test], [String.replace]
    with a global pattern, insertion-ordered [Map], [Array.prototype.sort],
    promises settled by the network). *)

From Stdlib Require Import String Ascii.
From Stdlib Require Import List NArith Bool Lia Permutation Sorted.
From Equations Require Import Equations.
Import ListNotations.
Open Scope N_scope.

(* ===================================================================== *)
(** ** JavaScript strings *)
(* ===================================================================== *)

(** A JavaScript string is a finite sequence of UTF-16 code units; a code
    unit is a number below 2^16.  Every function below is total on [N], so no
    range side condition is carried around. *)
Definition code_unit := N.
Definition jsstring := list code_unit.

(** String literals of the source, written with Rocq string literals: each
    character of an ASCII literal is one code unit. *)
Definition js (s : string) : jsstring :=
  map N_of_ascii (list_ascii_of_string s).

Definition between (lo hi c : code_unit) : bool := (lo <=? c) && (c <=? hi).

(** [\s] of a regular expression and the characters removed by
    [String.prototype.trim]: ECMAScript's WhiteSpace and LineTerminator
    productions (TAB, LF, VT, FF, CR, SPACE, NBSP, the Unicode space
    separators, LS, PS and the byte order mark). *)
Definition isWhiteSpace (c : code_unit) : bool :=
  between 0x09 0x0D c || (c =? 0x20) || (c =? 0xA0) || (c =? 0x1680)
  || between 0x2000 0x200A c || (c =? 0x2028) || (c =? 0x2029)
  || (c =? 0x202F) || (c =? 0x205F) || (c =? 0x3000) || (c =? 0xFEFF).

(** [\S] *)
Definition isNonSpace (c : code_unit) : bool := negb (isWhiteSpace c).

Definition isUpperAZ (c : code_unit) : bool := between 0x41 0x5A c.
Definition isLowerAZ (c : code_unit) : bool := between 0x61 0x7A c.

(** [[A-Za-z]] *)
Definition isLetter (c : code_unit) : bool := isUpperAZ c || isLowerAZ c.

(** [\.] *)
Definition isDot (c : code_unit) : bool := c =? 0x2E.

(** [\w] without the [u] and [i] flags: [[A-Za-z0-9_]]. *)
Definition isWordChar (c : code_unit) : bool :=
  isLetter c || between 0x30 0x39 c || (c =? 0x5F).

Definition isAscii (c : code_unit) : bool := c <? 0x80.

(** U+212A KELVIN SIGN and U+212B ANGSTROM SIGN, the two letter-like symbols
    whose lower-case forms are an ASCII and a Latin-1 letter. *)
Definition KELVIN_SIGN : code_unit := 0x212A.
Definition ANGSTROM_SIGN : code_unit := 0x212B.

(** The Latin-1 capital letters U+00C0..U+00DE, without U+00D7 (the
    multiplication sign); their small forms are 32 code units further. *)
Definition isLatin1Upper (c : code_unit) : bool :=
  between 0xC0 0xDE c && negb (c =? 0xD7).

(** The rows of [String.prototype.toLowerCase] for the blocks Basic Latin
    and Latin-1 Supplement and for the two letter-like symbols above, as in
    UnicodeData.txt: in these rows a lower-case form is one code unit and
    does not depend on the context.  The Unicode case table is a built-in
    of the language and not part of the repository, and these rows are not
    the whole of it: the built-in also maps the letters of the other blocks
    (U+0100 to U+0101, U+03A9 to U+03C9), writes U+0130 as the two code
    units U+0069 U+0307 and chooses the form of U+03A3 by what stands
    around it, where the function below leaves a code unit as it is.  It is
    the built-in on text made of the code units below U+0100, U+212A and
    U+212B, which is where the examples and counterexamples stay.  A
    statement about the letter case of every string is made for an
    arbitrary lower-casing function, with what it needs of that function as
    a hypothesis: see [toTitleCaseWith], [uniqueMajorsWith] and
    [filteredMajorsWith]. *)
Definition toLowerCase_unit (c : code_unit) : code_unit :=
  if isUpperAZ c then c + 32
  else if isLatin1Upper c then c + 32
  else if c =? KELVIN_SIGN then 0x6B
  else if c =? ANGSTROM_SIGN then 0xE5
  else c.

(** [String.prototype.toUpperCase], one code unit at a time, for Basic
    Latin.  [toTitleCase] is the only caller and applies it to tokens that
    matched [(?:[A-Za-z]\.){2,}[A-Za-z]?\.?] and to the first character of a
    match of [\w\S*], which are made of Basic Latin code units (see
    [callback_upper_args_ascii]). *)
Definition toUpperCase_unit (c : code_unit) : code_unit :=
  if isLowerAZ c then c - 32 else c.

(** [toLowerCase] on text of the embedded rows, where the built-in works
    code unit by code unit (outside them it does not: see above). *)
Definition toLowerCase (s : jsstring) : jsstring := map toLowerCase_unit s.
Definition toUpperCase (s : jsstring) : jsstring := map toUpperCase_unit s.

(** [s.charAt(0)]: the string of the first code unit, or the empty string. *)
Definition charAt0 (s : jsstring) : jsstring :=
  match s with [] => [] | c :: _ => [c] end.

(** [s.slice(1)] *)
Definition slice1 (s : jsstring) : jsstring := tl s.

Fixpoint takeWhile (p : code_unit -> bool) (s : jsstring) : jsstring :=
  match s with
  | [] => []
  | c :: s' => if p c then c :: takeWhile p s' else []
  end.

Fixpoint dropWhile (p : code_unit -> bool) (s : jsstring) : jsstring :=
  match s with
  | [] => []
  | c :: s' => if p c then dropWhile p s' else s
  end.

(** [String.prototype.trim] *)
Definition trimStart (s : jsstring) : jsstring := dropWhile isWhiteSpace s.
Definition trimEnd (s : jsstring) : jsstring := rev (dropWhile isWhiteSpace (rev s)).
Definition trim (s : jsstring) : jsstring := trimEnd (trimStart s).

Fixpoint jsstring_eqb (a b : jsstring) : bool :=
  match a, b with
  | [], [] => true
  | x :: a', y :: b' => (x =? y) && jsstring_eqb a' b'
  | _, _ => false
  end.

Fixpoint startsWith (s t : jsstring) : bool :=
  match t, s with
  | [], _ => true
  | _ :: _, [] => false
  | y :: t', x :: s' => (x =? y) && startsWith s' t'
  end.

(** [s.includes(t)]: [t] occurs in [s] at some position (case-sensitive). *)
Fixpoint includes (s t : jsstring) : bool :=
  startsWith s t ||
  match s with
  | [] => false
  | _ :: s' => includes s' t
  end.

(** The comparison of [Array.prototype.sort] without a comparator, on
    strings: code unit by code unit, a proper prefix first. *)
Fixpoint jsstring_leb (a b : jsstring) : bool :=
  match a, b with
  | [], _ => true
  | _ :: _, [] => false
  | x :: a', y :: b' => (x <? y) || ((x =? y) && jsstring_leb a' b')
  end.

Definition jsstring_le (a b : jsstring) : Prop := jsstring_leb a b = true.

Fixpoint insert_sorted (x : jsstring) (l : list jsstring) : list jsstring :=
  match l with
  | [] => [x]
  | y :: l' => if jsstring_leb x y then x :: l else y :: insert_sorted x l'
  end.

(** [arr.sort()] on an array of strings.  The order is total and two strings
    that compare equal are the same string, so the sorted array does not depend
    on the engine's algorithm. *)
Definition sort (l : list jsstring) : list jsstring :=
  fold_right insert_sorted [] l.

(* ===================================================================== *)
(** ** [Map], as used by [new Map(entries)] and [map.values()] *)
(* ===================================================================== *)

(** A [Map] keeps its entries in insertion order.  [map.set(k, v)] on a key
    already present replaces the value and leaves the entry at its place;
    on a new key it appends the entry.  Keys are compared as strings. *)
Definition jsMap := list (jsstring * jsstring).

Fixpoint map_set (k v : jsstring) (m : jsMap) : jsMap :=
  match m with
  | [] => [(k, v)]
  | (k', v') :: m' =>
      if jsstring_eqb k' k then (k', v) :: m' else (k', v') :: map_set k v m'
  end.

(** [new Map(entries)]: the entries are set one after the other. *)
Definition Map_of_entries (entries : list (jsstring * jsstring)) : jsMap :=
  fold_left (fun m kv => map_set (fst kv) (snd kv) m) entries [].

(** [[...map.values()]] *)
Definition values (m : jsMap) : list jsstring := map snd m.

(* ===================================================================== *)
(** ** Regular expressions and [RegExp.prototype.test] *)
(* ===================================================================== *)

(** The fragment of the pattern language the source uses: character
    classes, sequence, alternative and repetition. *)
Inductive regex : Type :=
| Never : regex
| Empty : regex
| Class : (code_unit -> bool) -> regex
| Seq : regex -> regex -> regex
| Alt : regex -> regex -> regex
| Star : regex -> regex.

(** [r?] and [r{2,}] *)
Definition Optional (r : regex) : regex := Alt r Empty.
Definition AtLeast2 (r : regex) : regex := Seq r (Seq r (Star r)).

(** The strings a pattern matches in full. *)
Inductive matches : regex -> jsstring -> Prop :=
| m_empty : matches Empty []
| m_class : forall (p : code_unit -> bool) c, p c = true -> matches (Class p) [c]
| m_seq : forall r1 r2 s1 s2,
    matches r1 s1 -> matches r2 s2 -> matches (Seq r1 r2) (s1 ++ s2)
| m_alt_l : forall r1 r2 s, matches r1 s -> matches (Alt r1 r2) s
| m_alt_r : forall r1 r2 s, matches r2 s -> matches (Alt r1 r2) s
| m_star_nil : forall r, matches (Star r) []
| m_star_cons : forall r s1 s2,
    matches r s1 -> matches (Star r) s2 -> matches (Star r) (s1 ++ s2).

Fixpoint nullable (r : regex) : bool :=
  match r with
  | Never => false
  | Empty => true
  | Class _ => false
  | Seq r1 r2 => nullable r1 && nullable r2
  | Alt r1 r2 => nullable r1 || nullable r2
  | Star _ => true
  end.

(** What is left of [r] to match after the code unit [c] was read. *)
Fixpoint residual (c : code_unit) (r : regex) : regex :=
  match r with
  | Never => Never
  | Empty => Never
  | Class p => if p c then Empty else Never
  | Seq r1 r2 =>
      if nullable r1
      then Alt (Seq (residual c r1) r2) (residual c r2)
      else Seq (residual c r1) r2
  | Alt r1 r2 => Alt (residual c r1) (residual c r2)
  | Star r1 => Seq (residual c r1) (Star r1)
  end.

(** [/^r$/.test(s)]: the pattern between the two anchors has to match the
    whole of [s] (no [m] flag, so the anchors are the ends of the string; no
    [g] flag, so the call has no state). *)
Fixpoint test (r : regex) (s : jsstring) : bool :=
  match s with
  | [] => nullable r
  | c :: s' => test (residual c r) s'
  end.

(* ===================================================================== *)
(** ** [page.tsx]: the label normalizer *)
(* ===================================================================== *)

(** [/^(?:[A-Za-z]\.){2,}[A-Za-z]?\.?$/], the pattern between the anchors. *)
Definition letter_dot : regex := Seq (Class isLetter) (Class isDot).
Definition initialism : regex :=
  Seq (AtLeast2 letter_dot)
      (Seq (Optional (Class isLetter)) (Optional (Class isDot))).

(** [str.replace(/\w\S*/g, callback)].  The search for the next match goes
    from left to right: a code unit that is not a word character is copied;
    at a word character the match is that character and, the star being
    greedy with nothing after it, every code unit up to the next white
    space.  The search resumes after the match. *)
Equations? replace_words (callback : jsstring -> jsstring) (str : jsstring)
  : jsstring by wf (length str) lt :=
  replace_words callback [] := [];
  replace_words callback (c :: s) :=
    if isWordChar c
    then callback (c :: takeWhile isNonSpace s)
           ++ replace_words callback (dropWhile isNonSpace s)
    else c :: replace_words callback s.
Proof.
  clear. induction s as [|x s IH]; simpl; [lia|].
  destruct (isNonSpace x); simpl in *; lia.
Qed.

(** The callback of [toTitleCase]:
    [word => test(word) ? word.toUpperCase()
                        : word.charAt(0).toUpperCase() + word.slice(1).toLowerCase()] *)
Definition titleCaseWord (word : jsstring) : jsstring :=
  if test initialism word
  then toUpperCase word
  else toUpperCase (charAt0 word) ++ toLowerCase (slice1 word).

Definition toTitleCase (str : jsstring) : jsstring :=
  replace_words titleCaseWord str.

(* ===================================================================== *)
(** ** [page.tsx]: the data model *)
(* ===================================================================== *)

(** [type Name = { name: string; hasDepartments: boolean; hideInList: boolean }] *)
Module Name.
Record t : Type := mk { name : jsstring; hasDepartments : bool; hideInList : bool }.
End Name.

(** [type Institution = { code; names: Name[]; id; isCommunityCollege; beginId }] *)
Module Institution.
Record t : Type := mk {
    code : jsstring;
    names : list Name.t;
    id : jsstring;
    isCommunityCollege : bool;
    beginId : jsstring }.
End Institution.

(** [type AgreementInstitution]: every field but [isCommunityCollege] is
    optional ([?:]); an absent field reads as [undefined], here [None]. *)
Module AgreementInstitution.
Record t : Type := mk {
    code : option jsstring;
    institutionName : option jsstring;
    isCommunityCollege : bool;
    sendingYearIds : option (list jsstring);
    id : option jsstring;
    academicYearId : option jsstring;
    receivingYearIds : option (list jsstring) }.
End AgreementInstitution.

(** [type Agreement = { label: string; key: string }].  The aggregator reads
    [r.label ?? ""], so a report of the upstream service may come without a
    label: the field is optional here. *)
Module Agreement.
Record t : Type := mk { label : option jsstring; key : jsstring }.
End Agreement.

(** [type Agreements = { reports?: Agreement[] }] *)
Module Agreements.
Record t : Type := mk { reports : option (list Agreement.t) }.
End Agreements.

(** [a ?? b] *)
Definition nullish {A : Type} (a : option A) (b : option A) : option A :=
  match a with Some x => Some x | None => b end.

(** [a ?? b] with a [b] that is never [undefined]. *)
Definition nullish_default {A : Type} (a : option A) (b : A) : A :=
  match a with Some x => x | None => b end.

(** [arr.at(-1)]: the last element, [undefined] on an empty array. *)
Fixpoint at_last {A : Type} (arr : list A) : option A :=
  match arr with
  | [] => None
  | [x] => Some x
  | _ :: arr' => at_last arr'
  end.

(** [arr?.at(-1)] *)
Definition opt_at_last {A : Type} (arr : option (list A)) : option A :=
  match arr with Some l => at_last l | None => None end.

(** [!x] on a value of type [string | undefined]: [undefined] and the empty
    string are falsy. *)
Definition falsy (x : option jsstring) : bool :=
  match x with
  | None => true
  | Some [] => true
  | Some (_ :: _) => false
  end.

(* ===================================================================== *)
(** ** [page.tsx]: the agreement resolver (the [data.map] callback) *)
(* ===================================================================== *)

(** [schools.find((inst) => inst.names.some((n) => n.name.includes(institutionName)))?.id] *)
Definition resolveId (schools : list Institution.t) (institutionName : jsstring)
  : option jsstring :=
  option_map Institution.id
    (find (fun inst =>
             existsb (fun n => includes (Name.name n) institutionName)
                     (Institution.names inst))
          schools).

(** The callback of [data.map]: destructuring with the default
    [institutionName = ""], then the object
    [{ id, isCommunityCollege, academicYearId }]. *)
Definition resolveAgreement (schools : list Institution.t)
  (school : AgreementInstitution.t) : AgreementInstitution.t :=
  let institutionName :=
    nullish_default (AgreementInstitution.institutionName school) (js "") in
  let isCommunityCollege := AgreementInstitution.isCommunityCollege school in
  let sendingYearIds := AgreementInstitution.sendingYearIds school in
  let receivingYearIds := AgreementInstitution.receivingYearIds school in
  let id := resolveId schools institutionName in
  let academicYearId :=
    nullish (opt_at_last sendingYearIds) (opt_at_last receivingYearIds) in
  {| AgreementInstitution.code := None;
     AgreementInstitution.institutionName := None;
     AgreementInstitution.isCommunityCollege := isCommunityCollege;
     AgreementInstitution.sendingYearIds := None;
     AgreementInstitution.id := id;
     AgreementInstitution.academicYearId := academicYearId;
     AgreementInstitution.receivingYearIds := None |}.

(* ===================================================================== *)
(** ** Requests, cancellation and what a run does *)
(* ===================================================================== *)

(** What an awaited request can throw: the error axios raises when the
    [AbortSignal] given to the request is aborted ([axios.isCancel] holds of
    it), or any other failure of the request. *)
Inductive jserror : Type :=
| CanceledError : jserror
| RequestError : jsstring -> jserror.

(** [axios.isCancel(err)] *)
Definition isCancel (err : jserror) : bool :=
  match err with CanceledError => true | RequestError _ => false end.

(** The two requests of the pipeline:
    [GET /api/institutions/${institutionId}/agreements] and
    [GET /api/agreements] with the parameters [receivingInstitutionId],
    [sendingInstitutionId], [academicYearId] and [categoryCode: "major"]. *)
Inductive request : Type :=
| GetInstitutionAgreements : jsstring -> request
| GetMajorAgreements : jsstring -> jsstring -> jsstring -> request.

(** What the upstream service answers when the request is left to
    complete. *)
Inductive response (A : Type) : Type :=
| ok : A -> response A
| failed : jsstring -> response A.
Arguments ok {A} _.
Arguments failed {A} _.

(** The upstream service.  The answer to a major request may depend on the
    position of the partner in the agreement list, so that two partners
    resolved to the same institution and year can still see different
    outcomes. *)
Record network : Type := mkNetwork {
  institutionAgreements : jsstring -> response (list AgreementInstitution.t);
  majorAgreements :
    nat -> jsstring -> jsstring -> jsstring -> response Agreements.t }.

(** The [AbortSignal] of a selection, seen from its requests: request [0] is
    the agreement list, request [S i] the majors of the partner at position
    [i]; [signal k = true] when the signal is aborted while request [k] is in
    flight.  The per-partner requests overlap, so any subset of them can be
    the one still in flight at the abort. *)
Definition AbortSignal := nat -> bool.

(** A settled promise, as [Promise.allSettled] reports it. *)
Inductive settled (A : Type) : Type :=
| fulfilled : A -> settled A
| rejected : jserror -> settled A.
Arguments fulfilled {A} _.
Arguments rejected {A} _.

(** What a run does that is visible from outside, in order: the requests it
    issues, the React state it sets, the errors it logs. *)
Inductive event : Type :=
| Get : request -> event
| SetInstitutionsWithAgreements : list AgreementInstitution.t -> event
| SetMajors : list jsstring -> event
| SetSelectedMajor : jsstring -> event
| ConsoleError : jsstring -> jserror -> event.

(** A computation that emits events and then returns a value or throws. *)
Definition io (A : Type) : Type := (list event * (A + jserror))%type.

Definition ret {A : Type} (a : A) : io A := ([], inl a).

Definition throw {A : Type} (err : jserror) : io A := ([], inr err).

Definition bind {A B : Type} (m : io A) (f : A -> io B) : io B :=
  match m with
  | (t, inl a) => let (t', r) := f a in (t ++ t', r)
  | (t, inr err) => (t, inr err)
  end.

Definition emit (e : event) : io unit := ([e], inl tt).

Notation "x <- m ;; k" := (bind m (fun x => k))
  (at level 61, m at next level, right associativity).
Notation "m ;;; k" := (bind m (fun _ => k))
  (at level 61, right associativity).

(** [try { body } catch (err) { handler }] *)
Definition try_catch {A : Type} (body : io A) (handler : jserror -> io A) : io A :=
  match body with
  | (t, inl a) => (t, inl a)
  | (t, inr err) => let (t', r) := handler err in (t ++ t', r)
  end.

(** [await promise] *)
Definition await {A : Type} (promise : settled A) : io A :=
  match promise with
  | fulfilled a => ret a
  | rejected err => throw err
  end.

(** Calling an [async] function: the body runs, what it returns or throws
    settles the promise the call hands back; the call itself never throws. *)
Definition async {A : Type} (body : io A) : io (settled A) :=
  match body with
  | (t, inl a) => (t, inl (fulfilled a))
  | (t, inr err) => (t, inl (rejected err))
  end.

(** [Promise.allSettled(promises)]: awaited, it gives the outcome of every
    promise, in the order of the array, and never throws. *)
Definition Promise_allSettled {A : Type} (promises : list (settled A))
  : io (list (settled A)) := ret promises.

(** How request number [k] of the selection settles: it is rejected with
    the cancellation error when the signal is aborted while it is in flight,
    and settles with the answer of the service otherwise.  Without a signal
    nothing cancels it. *)
Definition settle {A : Type} (signal : option AbortSignal) (k : nat)
  (answer : response A) : settled A :=
  let completed :=
    match answer with
    | ok a => fulfilled a
    | failed msg => rejected (RequestError msg)
    end in
  match signal with
  | Some aborted => if aborted k then rejected CanceledError else completed
  | None => completed
  end.

(** [api.get(url, { signal })] as request number [k]: the request is issued
    and the call hands back its promise. *)
Definition api_get {A : Type} (signal : option AbortSignal) (k : nat)
  (req : request) (answer : response A) : io (settled A) :=
  emit (Get req) ;;;
  ret (settle signal k answer).

(** [arr.map(f)] for an [f] that has effects and uses the index. *)
Fixpoint mapM_from {A B : Type} (i : nat) (f : nat -> A -> io B) (arr : list A)
  : io (list B) :=
  match arr with
  | [] => ret []
  | a :: arr' =>
      b <- f i a ;;
      bs <- mapM_from (S i) f arr' ;;
      ret (b :: bs)
  end.

(* ===================================================================== *)
(** ** [page.tsx]: the major aggregator *)
(* ===================================================================== *)

(** The [async] callback of [agreements.map], for the partner at position
    [i]: no request when [!id || !academicYearId]; otherwise one request,
    and its reports (none when [reports] is absent) with their labels
    trimmed and title-cased. *)
Definition majorsOfPartner (net : network) (signal : option AbortSignal)
  (institutionId : jsstring) (i : nat) (agreement : AgreementInstitution.t)
  : io (list jsstring) :=
  if falsy (AgreementInstitution.id agreement)
     || falsy (AgreementInstitution.academicYearId agreement)
  then ret []
  else
    match AgreementInstitution.id agreement,
          AgreementInstitution.academicYearId agreement with
    | Some id, Some academicYearId =>
        promise <- api_get signal (S i)
                     (GetMajorAgreements institutionId id academicYearId)
                     (majorAgreements net i institutionId id academicYearId) ;;
        majorsResp <- await promise ;;
        let reports := nullish_default (Agreements.reports majorsResp) [] in
        ret (map (fun r =>
                    toTitleCase (trim (nullish_default (Agreement.label r) (js ""))))
                 reports)
    | _, _ => ret []
    end.

(** [settled.flatMap((r) => (r.status === "fulfilled" ? r.value : []))] *)
Definition fulfilledValues (settledReqs : list (settled (list jsstring)))
  : list jsstring :=
  flat_map (fun r => match r with
                     | fulfilled value => value
                     | rejected _ => []
                     end) settledReqs.

(** [[...new Map(all.map((m) => [m.toLowerCase().trim(), m.trim()])).values()].sort()] *)
Definition uniqueMajors (all : list jsstring) : list jsstring :=
  sort (values (Map_of_entries
                  (map (fun m => (trim (toLowerCase m), trim m)) all))).

(** [getAndSetInstitutionAgreements(institutionId, schools, signal)] *)
Definition getAndSetInstitutionAgreements (net : network)
  (institutionId : jsstring) (schools : list Institution.t)
  (signal : option AbortSignal) : io unit :=
  try_catch
    (promise <- api_get signal 0%nat (GetInstitutionAgreements institutionId)
                  (institutionAgreements net institutionId) ;;
     data <- await promise ;;
     let agreements := map (resolveAgreement schools) data in
     emit (SetInstitutionsWithAgreements agreements) ;;;
     reqs <- mapM_from 0%nat
               (fun i agreement =>
                  async (majorsOfPartner net signal institutionId i agreement))
               agreements ;;
     settledReqs <- Promise_allSettled reqs ;;
     let all := fulfilledValues settledReqs in
     let unique := uniqueMajors all in
     emit (SetMajors unique) ;;;
     emit (SetSelectedMajor (nullish_default (nth_error unique 0) (js ""))))
    (fun err =>
       if isCancel err then ret tt
       else emit (ConsoleError (js "Fetch agreements failed:") err)).

(** The React state the function writes, and the setters as state updates. *)
Record state : Type := mkState {
  institutionsWithAgreements : list AgreementInstitution.t;
  majors : list jsstring;
  selectedMajor : jsstring }.

Definition apply_event (st : state) (e : event) : state :=
  match e with
  | SetInstitutionsWithAgreements l =>
      {| institutionsWithAgreements := l;
         majors := majors st; selectedMajor := selectedMajor st |}
  | SetMajors l =>
      {| institutionsWithAgreements := institutionsWithAgreements st;
         majors := l; selectedMajor := selectedMajor st |}
  | SetSelectedMajor s =>
      {| institutionsWithAgreements := institutionsWithAgreements st;
         majors := majors st; selectedMajor := s |}
  | Get _ | ConsoleError _ _ => st
  end.

Definition run_on (st : state) (m : io unit) : state :=
  fold_left apply_event (fst m) st.

(* ===================================================================== *)
(** ** Notions the statements below are written with *)
(* ===================================================================== *)

(** U+002E FULL STOP, the period of an initialism. *)
Definition FULL_STOP : code_unit := 0x2E.

(** The initialism pattern in words: two or more single letters each
    followed by a period, then optionally one bare letter, then optionally
    one more period. *)
Definition letters_with_periods (letters : list code_unit) : jsstring :=
  flat_map (fun l => [l; FULL_STOP]) letters.

Definition optional_unit (c : option code_unit) : jsstring :=
  match c with Some x => [x] | None => [] end.

Definition initialism_shape (word : jsstring) : Prop :=
  exists (letters : list code_unit) (bare : option code_unit) (period : bool),
    (2 <= length letters)%nat /\
    Forall (fun l => isLetter l = true) letters /\
    Forall (fun l => isLetter l = true) (optional_unit bare) /\
    word = letters_with_periods letters ++ optional_unit bare
             ++ (if period then [FULL_STOP] else []).

(** Where a token ends: at the end of the string or before white space. *)
Definition endOfToken (rest : jsstring) : bool :=
  match rest with
  | [] => true
  | c :: _ => isWhiteSpace c
  end.

(** Every character class of [r] gives the same answer on two code units
    related by [R]. *)
Fixpoint respects (R : code_unit -> code_unit -> Prop) (r : regex) : Prop :=
  match r with
  | Never | Empty => True
  | Class p => forall x y, R x y -> p x = p y
  | Seq r1 r2 | Alt r1 r2 => respects R r1 /\ respects R r2
  | Star r1 => respects R r1
  end.

Definition same_class (x y : code_unit) : Prop :=
  isLetter x = isLetter y /\ isDot x = isDot y.

(** Two Basic Latin code units with the same lower-case form. *)
Definition same_letter (x y : code_unit) : Prop :=
  isAscii x = true /\ isAscii y = true /\
  toLowerCase_unit x = toLowerCase_unit y.

(** The identity of a label for deduplication: lower-cased and trimmed. *)
Definition dedupKey (m : jsstring) : jsstring := trim (toLowerCase m).

(** The entries of the map built by [uniqueMajors]. *)
Definition majorEntries (all : list jsstring) : list (jsstring * jsstring) :=
  map (fun m => (trim (toLowerCase m), trim m)) all.

(** The normalization the aggregator applies to a raw label. *)
Definition normalizeLabel (raw : jsstring) : jsstring := toTitleCase (trim raw).

(** The partner and year a major request is made for: an agreement has them
    when its resolved id and its academic year are both present and not the
    empty string. *)
Definition fetchParams (agreement : AgreementInstitution.t)
  : option (jsstring * jsstring) :=
  match AgreementInstitution.id agreement,
        AgreementInstitution.academicYearId agreement with
  | Some (c :: id), Some (d :: year) => Some (c :: id, d :: year)
  | _, _ => None
  end.

(** The request issued for the partner at position [i], if any, and how it
    settles. *)
Definition partnerRequest (institutionId : jsstring)
  (agreement : AgreementInstitution.t) : list event :=
  match fetchParams agreement with
  | Some (id, year) => [Get (GetMajorAgreements institutionId id year)]
  | None => []
  end.

Definition partnerFetch (net : network) (signal : option AbortSignal)
  (institutionId : jsstring) (i : nat) (agreement : AgreementInstitution.t)
  : option (settled Agreements.t) :=
  match fetchParams agreement with
  | Some (id, year) =>
      Some (settle signal (S i) (majorAgreements net i institutionId id year))
  | None => None
  end.

(** The labels of a response, normalized. *)
Definition reportLabels (majorsResp : Agreements.t) : list jsstring :=
  map (fun r => normalizeLabel (nullish_default (Agreement.label r) (js "")))
      (nullish_default (Agreements.reports majorsResp) []).

(** What the partner at position [i] contributes: the labels of its fetch
    when that fetch is fulfilled, nothing when it is rejected or when no
    fetch was made. *)
Definition contribution (net : network) (signal : option AbortSignal)
  (institutionId : jsstring) (i : nat) (agreement : AgreementInstitution.t)
  : list jsstring :=
  match partnerFetch net signal institutionId i agreement with
  | Some (fulfilled majorsResp) => reportLabels majorsResp
  | Some (rejected _) => []
  | None => []
  end.

(** The requests and the contributions of the partners from position [i]
    on, in the order of the agreement list. *)
Fixpoint partnerRequests (institutionId : jsstring)
  (agreements : list AgreementInstitution.t) : list event :=
  match agreements with
  | [] => []
  | a :: rest => partnerRequest institutionId a ++ partnerRequests institutionId rest
  end.

Fixpoint contributions (net : network) (signal : option AbortSignal)
  (institutionId : jsstring) (i : nat)
  (agreements : list AgreementInstitution.t) : list jsstring :=
  match agreements with
  | [] => []
  | a :: rest =>
      contribution net signal institutionId i a
        ++ contributions net signal institutionId (S i) rest
  end.

(** The default selection the caller makes: [unique[0] ?? ""]. *)
Definition defaultMajor (unique : list jsstring) : jsstring :=
  match unique with
  | [] => js ""
  | m :: _ => m
  end.

Definition isMajorsUpdate (e : event) : bool :=
  match e with
  | SetMajors _ | SetSelectedMajor _ => true
  | _ => false
  end.

Definition isConsoleError (e : event) : bool :=
  match e with
  | ConsoleError _ _ => true
  | _ => false
  end.

Definition isGet (e : event) : bool :=
  match e with
  | Get _ => true
  | _ => false
  end.

(** Proof automation for facts about character classes: the boolean
    tests become linear arithmetic. *)
Ltac unfold_classes :=
  unfold isWordChar, isLetter, isUpperAZ, isLowerAZ, isDot, isNonSpace, isWhiteSpace,
    isLatin1Upper, isAscii, between, KELVIN_SIGN, ANGSTROM_SIGN in *.

Ltac to_props :=
  repeat rewrite ?orb_true_iff, ?andb_true_iff, ?negb_true_iff, ?orb_false_iff,
    ?andb_false_iff, ?negb_false_iff, ?N.leb_le, ?N.eqb_eq, ?N.ltb_lt,
    ?N.leb_gt, ?N.eqb_neq, ?N.ltb_ge in *.

Ltac class_lia := unfold_classes; to_props; lia.

(** An institution with at least one display name. *)
Definition hasDisplayName (inst : Institution.t) : bool :=
  match Institution.names inst with
  | [] => false
  | _ :: _ => true
  end.

(** "The form kept for a key is that of the first label seen with this
    key", for one sequence of labels. *)
Definition keepsFirstSeen (all : list jsstring) : Prop :=
  forall v, In v (uniqueMajors all) ->
    exists before m after,
      all = before ++ m :: after /\ v = trim m /\
      Forall (fun m' => dedupKey m' <> dedupKey m) before.

(** "Every partner fetch that fails for a reason other than cancellation is
    logged", for one run. *)
Definition logsFailedPartnerFetches (net : network) (institutionId : jsstring)
  (schools : list Institution.t) (signal : option AbortSignal) : Prop :=
  forall data i agreement msg,
    settle signal 0 (institutionAgreements net institutionId) = fulfilled data ->
    nth_error (map (resolveAgreement schools) data) i = Some agreement ->
    partnerFetch net signal institutionId i agreement
      = Some (rejected (RequestError msg)) ->
    exists tag,
      In (ConsoleError tag (RequestError msg))
         (fst (getAndSetInstitutionAgreements net institutionId schools signal)).

(** "An abort while a request of the selection is in flight leaves the
    majors and the selected major as they were", for one run: when the
    request for the agreement list, or the request of some partner of the
    list, was cut by the abort, the run sets neither. *)
Definition abortLeavesMajorsAlone (net : network) (institutionId : jsstring)
  (schools : list Institution.t) (signal : option AbortSignal) : Prop :=
  (settle signal 0 (institutionAgreements net institutionId)
   = rejected CanceledError
   \/ exists data i agreement,
        settle signal 0 (institutionAgreements net institutionId) = fulfilled data
        /\ nth_error (map (resolveAgreement schools) data) i = Some agreement
        /\ partnerFetch net signal institutionId i agreement
           = Some (rejected CanceledError)) ->
  filter isMajorsUpdate
    (fst (getAndSetInstitutionAgreements net institutionId schools signal))
  = [].

(** The state before the first load: [useState([])] and [useState("")]. *)
Definition initialState : state :=
  {| institutionsWithAgreements := []; majors := []; selectedMajor := js "" |}.

(* ===================================================================== *)
(** ** Concrete inputs *)
(* ===================================================================== *)

Open Scope string_scope.

Definition institution (id displayName : string) : Institution.t :=
  {| Institution.code := js id;
     Institution.names :=
       [{| Name.name := js displayName;
           Name.hasDepartments := false;
           Name.hideInList := false |}];
     Institution.id := js id;
     Institution.isCommunityCollege := true;
     Institution.beginId := js "" |}.

(** An institution whose [names] array is empty. *)
Definition namelessInstitution (id : string) : Institution.t :=
  {| Institution.code := js id;
     Institution.names := [];
     Institution.id := js id;
     Institution.isCommunityCollege := true;
     Institution.beginId := js "" |}.

(** A raw agreement record of the upstream service. *)
Definition rawAgreement (institutionName : option string)
  (sendingYearIds receivingYearIds : option (list string))
  : AgreementInstitution.t :=
  {| AgreementInstitution.code := None;
     AgreementInstitution.institutionName := option_map js institutionName;
     AgreementInstitution.isCommunityCollege := true;
     AgreementInstitution.sendingYearIds := option_map (map js) sendingYearIds;
     AgreementInstitution.id := None;
     AgreementInstitution.academicYearId := None;
     AgreementInstitution.receivingYearIds := option_map (map js) receivingYearIds |}.

Definition reportsOf (labels : list string) : Agreements.t :=
  {| Agreements.reports :=
       Some (map (fun l => {| Agreement.label := Some (js l);
                              Agreement.key := js "k" |}) labels) |}.

Definition threeColleges : list Institution.t :=
  [institution "1" "Allan Hancock College";
   institution "2" "Cuesta College";
   institution "3" "De Anza College"].

Definition threePartners : list AgreementInstitution.t :=
  [rawAgreement (Some "Allan Hancock College") (Some ["74"; "75"]) None;
   rawAgreement (Some "Cuesta College") (Some ["75"]) None;
   rawAgreement (Some "De Anza College") None (Some ["73"; "74"])].

(** Two of the three partner fetches fail, the third answers ["Physics"]. *)
Definition onlyThirdAnswers : network :=
  {| institutionAgreements := fun _ => ok threePartners;
     majorAgreements := fun i _ _ _ =>
       match i with
       | 2%nat => ok (reportsOf ["Physics"])
       | _ => failed (js "Network Error")
       end |}.

(** Every partner answers. *)
Definition everyPartnerAnswers : network :=
  {| institutionAgreements := fun _ => ok threePartners;
     majorAgreements := fun i _ _ _ =>
       match i with
       | 0%nat => ok (reportsOf ["Physics"])
       | 1%nat => ok (reportsOf ["Chemistry"])
       | _ => ok (reportsOf ["art history"; " b.s. in computer science "])
       end |}.

(** The signal is aborted after the first partner has answered, while the
    requests for the second and the third are still in flight. *)
Definition abortedAfterFirstPartner : AbortSignal :=
  fun k => match k with
           | 0%nat | 1%nat => false
           | _ => true
           end.

(** The signal is aborted while the agreement list is in flight. *)
Definition abortedDuringList : AbortSignal := fun _ => true.

(** One partner, whose fetch fails with a server error. *)
Definition onePartnerFails : network :=
  {| institutionAgreements := fun _ =>
       ok [rawAgreement (Some "Cuesta College") (Some ["75"]) None];
     majorAgreements := fun _ _ _ _ =>
       failed (js "Request failed with status code 500") |}.

(** A record without [institutionName], and a catalog whose first
    institution has no display name. *)
Definition unnamedPartner : AgreementInstitution.t :=
  rawAgreement None (Some ["75"]) None.

Definition catalogStartingNameless : list Institution.t :=
  [namelessInstitution "1"; institution "2" "Cuesta College"].

(** "a.K." written with U+212A KELVIN SIGN for the K. *)
Definition kelvinInitialism : jsstring :=
  (js "a." ++ [KELVIN_SIGN] ++ js ".")%list.

(** "école" and "École", whose first letters U+00E9 and U+00C9 are not word
    characters of [\w]. *)
Definition ecoleLower : jsstring := 0xE9 :: js "cole".
Definition ecoleUpper : jsstring := 0xC9 :: js "cole".

Close Scope string_scope.

(* ===================================================================== *)
(** ** [page.tsx]: the component around the pipeline *)
(* ===================================================================== *)

(** The eight [useState] cells of [Home]. *)
Module Home.
Record state : Type := mk {
  institutions : list Institution.t;
  institutions_filtered : list Institution.t;
  selectedSystem : jsstring;
  selectedInstitution : jsstring;
  institutionsWithAgreements : list AgreementInstitution.t;
  majors : list jsstring;
  selectedMajor : jsstring;
  query : jsstring }.
End Home.

(** [useState] with its initial values. *)
Definition homeInitial : Home.state :=
  {| Home.institutions := [];
     Home.institutions_filtered := [];
     Home.selectedSystem := js "California Polytechnic University";
     Home.selectedInstitution :=
       js "California Polytechnic University, San Luis Obispo";
     Home.institutionsWithAgreements := [];
     Home.majors := [];
     Home.selectedMajor := js "";
     Home.query := js "" |}.

(** [filteredMajors]: the body of the [useMemo],
    [!query.trim() ? majors
       : majors.filter((m) => m.toLowerCase().includes(query.toLowerCase()))]. *)
Definition filteredMajors (majors : list jsstring) (query : jsstring)
  : list jsstring :=
  if falsy (Some (trim query))
  then majors
  else filter (fun m => includes (toLowerCase m) (toLowerCase query)) majors.

(** [institutions.filter((inst) => !inst.isCommunityCollege)
                 .filter((inst) => inst.names.some((n) => n.name.includes(name)))],
    the list [setSystemInstitutions(name)] stores and, with the name
    "California Polytechnic University", the list the first load stores. *)
Definition systemInstitutions (name : jsstring)
  (institutions : list Institution.t) : list Institution.t :=
  filter (fun inst =>
            existsb (fun n => includes (Name.name n) name)
                    (Institution.names inst))
         (filter (fun inst => negb (Institution.isCommunityCollege inst))
                 institutions).

(** The text of an [<option>]:
    [institution.names.find((n) => n.name.includes(selectedSystem))?.name.toString()]. *)
Definition optionLabel (selectedSystem : jsstring) (institution : Institution.t)
  : option jsstring :=
  option_map Name.name
    (find (fun n => includes (Name.name n) selectedSystem)
          (Institution.names institution)).

(** What the component does that is visible from outside: what the pipeline
    does, the request for the catalog and the five other setters. *)
Inductive home_event : Type :=
| Core : event -> home_event
| GetInstitutions : home_event
| SetInstitutions : list Institution.t -> home_event
| SetInstitutionsFiltered : list Institution.t -> home_event
| SetSelectedSystem : jsstring -> home_event
| SetSelectedInstitution : jsstring -> home_event
| SetQuery : jsstring -> home_event.

Definition home (A : Type) : Type := (list home_event * (A + jserror))%type.

Definition home_ret {A : Type} (a : A) : home A := ([], inl a).

Definition home_bind {A B : Type} (m : home A) (f : A -> home B) : home B :=
  match m with
  | (t, inl a) => let (t', r) := f a in (t ++ t', r)
  | (t, inr err) => (t, inr err)
  end.

Definition home_emit (e : home_event) : home unit := ([e], inl tt).

(** A call of a function of the pipeline from the component. *)
Definition core {A : Type} (m : io A) : home A := (map Core (fst m), snd m).

Notation "x <~ m ;; k" := (home_bind m (fun x => k))
  (at level 61, m at next level, right associativity).
Notation "m ;;, k" := (home_bind m (fun _ => k))
  (at level 61, right associativity).

Definition home_try_catch {A : Type} (body : home A)
  (handler : jserror -> home A) : home A :=
  match body with
  | (t, inl a) => (t, inl a)
  | (t, inr err) => let (t', r) := handler err in (t ++ t', r)
  end.

(** The setters of the component, as state updates. *)
Definition home_apply (st : Home.state) (e : home_event) : Home.state :=
  match e with
  | Core (SetInstitutionsWithAgreements l) =>
      {| Home.institutions := Home.institutions st;
         Home.institutions_filtered := Home.institutions_filtered st;
         Home.selectedSystem := Home.selectedSystem st;
         Home.selectedInstitution := Home.selectedInstitution st;
         Home.institutionsWithAgreements := l;
         Home.majors := Home.majors st;
         Home.selectedMajor := Home.selectedMajor st;
         Home.query := Home.query st |}
  | Core (SetMajors l) =>
      {| Home.institutions := Home.institutions st;
         Home.institutions_filtered := Home.institutions_filtered st;
         Home.selectedSystem := Home.selectedSystem st;
         Home.selectedInstitution := Home.selectedInstitution st;
         Home.institutionsWithAgreements := Home.institutionsWithAgreements st;
         Home.majors := l;
         Home.selectedMajor := Home.selectedMajor st;
         Home.query := Home.query st |}
  | Core (SetSelectedMajor s) =>
      {| Home.institutions := Home.institutions st;
         Home.institutions_filtered := Home.institutions_filtered st;
         Home.selectedSystem := Home.selectedSystem st;
         Home.selectedInstitution := Home.selectedInstitution st;
         Home.institutionsWithAgreements := Home.institutionsWithAgreements st;
         Home.majors := Home.majors st;
         Home.selectedMajor := s;
         Home.query := Home.query st |}
  | Core (Get _) | Core (ConsoleError _ _) | GetInstitutions => st
  | SetInstitutions l =>
      {| Home.institutions := l;
         Home.institutions_filtered := Home.institutions_filtered st;
         Home.selectedSystem := Home.selectedSystem st;
         Home.selectedInstitution := Home.selectedInstitution st;
         Home.institutionsWithAgreements := Home.institutionsWithAgreements st;
         Home.majors := Home.majors st;
         Home.selectedMajor := Home.selectedMajor st;
         Home.query := Home.query st |}
  | SetInstitutionsFiltered l =>
      {| Home.institutions := Home.institutions st;
         Home.institutions_filtered := l;
         Home.selectedSystem := Home.selectedSystem st;
         Home.selectedInstitution := Home.selectedInstitution st;
         Home.institutionsWithAgreements := Home.institutionsWithAgreements st;
         Home.majors := Home.majors st;
         Home.selectedMajor := Home.selectedMajor st;
         Home.query := Home.query st |}
  | SetSelectedSystem s =>
      {| Home.institutions := Home.institutions st;
         Home.institutions_filtered := Home.institutions_filtered st;
         Home.selectedSystem := s;
         Home.selectedInstitution := Home.selectedInstitution st;
         Home.institutionsWithAgreements := Home.institutionsWithAgreements st;
         Home.majors := Home.majors st;
         Home.selectedMajor := Home.selectedMajor st;
         Home.query := Home.query st |}
  | SetSelectedInstitution s =>
      {| Home.institutions := Home.institutions st;
         Home.institutions_filtered := Home.institutions_filtered st;
         Home.selectedSystem := Home.selectedSystem st;
         Home.selectedInstitution := s;
         Home.institutionsWithAgreements := Home.institutionsWithAgreements st;
         Home.majors := Home.majors st;
         Home.selectedMajor := Home.selectedMajor st;
         Home.query := Home.query st |}
  | SetQuery s =>
      {| Home.institutions := Home.institutions st;
         Home.institutions_filtered := Home.institutions_filtered st;
         Home.selectedSystem := Home.selectedSystem st;
         Home.selectedInstitution := Home.selectedInstitution st;
         Home.institutionsWithAgreements := Home.institutionsWithAgreements st;
         Home.majors := Home.majors st;
         Home.selectedMajor := Home.selectedMajor st;
         Home.query := s |}
  end.

(** The state once the updates of a handler are applied, in order. *)
Definition home_after (st : Home.state) (m : home unit) : Home.state :=
  fold_left home_apply (fst m) st.

(** The body of the [useEffect]: the catalog is requested (request [0] of
    the signal of the mount), stored and filtered, the pipeline runs for
    Cal Poly San Luis Obispo (id "11") with the whole catalog and the same
    signal, whose later requests are those of the pipeline. *)
Definition mountEffect (catalogAnswer : response (list Institution.t))
  (net : network) (aborted : AbortSignal) : home unit :=
  home_try_catch
    (home_emit GetInstitutions ;;,
     data <~ core (await (settle (Some aborted) 0%nat catalogAnswer)) ;;
     home_emit (SetInstitutions data) ;;,
     let filtered :=
       systemInstitutions (js "California Polytechnic University") data in
     home_emit (SetInstitutionsFiltered filtered) ;;,
     core (getAndSetInstitutionAgreements net (js "11") data
             (Some (fun k => aborted (S k)))))
    (fun err =>
       if isCancel err then home_ret tt
       else home_emit
              (Core (ConsoleError (js "Fetch institutions failed:") err))).

(** [setSystemInstitutions(name)], with the [institutions] of the render the
    handler belongs to. *)
Definition setSystemInstitutions (st : Home.state) (name : jsstring) : home unit :=
  home_emit (SetInstitutionsFiltered
               (systemInstitutions name (Home.institutions st))).

Definition onSystemChange (st : Home.state) (name : jsstring) : home unit :=
  setSystemInstitutions st name.

(** [handleSystemSelect], [value] being [e.target.value]. *)
Definition handleSystemSelect (st : Home.state) (value : jsstring) : home unit :=
  home_emit (Core (SetMajors [])) ;;,
  home_emit (Core (SetSelectedMajor (js ""))) ;;,
  home_emit (SetQuery (js "")) ;;,
  home_emit (SetSelectedInstitution (js "")) ;;,
  home_emit (SetSelectedSystem value) ;;,
  onSystemChange st value.

(** [handleInstitutionSelect]: the pipeline is called without signal. *)
Definition handleInstitutionSelect (net : network) (st : Home.state)
  (value : jsstring) : home unit :=
  home_emit (SetSelectedInstitution value) ;;,
  home_emit (Core (SetMajors [])) ;;,
  home_emit (Core (SetSelectedMajor (js ""))) ;;,
  home_emit (SetQuery (js "")) ;;,
  core (getAndSetInstitutionAgreements net value (Home.institutions st) None).

(** [handleMajorPick] *)
Definition handleMajorPick (major : jsstring) : home unit :=
  home_emit (Core (SetSelectedMajor major)) ;;,
  home_emit (SetQuery (js "")).

(** [onChange={(e) => setQuery(e.currentTarget.value)}] of the search box. *)
Definition handleQueryChange (value : jsstring) : home unit :=
  home_emit (SetQuery value).

(** What the user can do once the component is mounted: choose a system,
    choose an institution, click one of the majors listed, type in the search
    box.  The buttons are those of [filteredMajors]. *)
Inductive action : Type :=
| SystemSelect : jsstring -> action
| InstitutionSelect : network -> jsstring -> action
| MajorPick : jsstring -> action
| QueryChange : jsstring -> action.

Definition enabled (st : Home.state) (a : action) : Prop :=
  match a with
  | MajorPick major => In major (filteredMajors (Home.majors st) (Home.query st))
  | _ => True
  end.

Definition handle (st : Home.state) (a : action) : home unit :=
  match a with
  | SystemSelect value => handleSystemSelect st value
  | InstitutionSelect net value => handleInstitutionSelect net st value
  | MajorPick major => handleMajorPick major
  | QueryChange value => handleQueryChange value
  end.

(** What holds of the majors and the selection between two handlers: the
    majors are sorted and no major stands twice in the list, and the
    selected major is one of them, or the empty string when there is
    none. *)
Definition majorsConsistent (st : Home.state) : Prop :=
  StronglySorted jsstring_le (Home.majors st)
  /\ NoDup (Home.majors st)
  /\ ((Home.majors st = [] /\ Home.selectedMajor st = js "")
      \/ In (Home.selectedMajor st) (Home.majors st)).

(** The states the component goes through when each handler has run to its
    end before the next one starts. *)
Inductive reachable : Home.state -> Prop :=
| reach_initial : reachable homeInitial
| reach_mount : forall st catalogAnswer net aborted,
    reachable st ->
    reachable (home_after st (mountEffect catalogAnswer net aborted))
| reach_handle : forall st a,
    reachable st -> enabled st a ->
    reachable (home_after st (handle st a)).

(** [s] contains [t]: [t] stands in [s] between some text before and some
    text after. *)
Definition occursIn (t s : jsstring) : Prop :=
  exists before after, s = before ++ t ++ after.

(** Two code units that are both white space or both not. *)
Definition same_space (x y : code_unit) : Prop :=
  isWhiteSpace x = isWhiteSpace y.

(** No white space at the start and none at the end. *)
Definition cleanEnds (s : jsstring) : Prop :=
  match s with [] => True | c :: _ => isWhiteSpace c = false end
  /\ match rev s with [] => True | c :: _ => isWhiteSpace c = false end.

(** Only white space, or nothing. *)
Definition isBlank (s : jsstring) : Prop :=
  Forall (fun c => isWhiteSpace c = true) s.

Definition isHomeGet (e : home_event) : bool :=
  match e with
  | GetInstitutions | Core (Get _) => true
  | _ => false
  end.

(* ===================================================================== *)
(** ** [page.tsx] with the built-in case mappings as parameters *)
(* ===================================================================== *)

(** The expressions of [page.tsx] that call [toLowerCase] or [toUpperCase],
    with the two built-ins as the parameters [lower] and [upper].  The
    bodies are those of [titleCaseWord], [toTitleCase], [uniqueMajors] and
    [filteredMajors] above, which are these functions at the embedded rows
    (by computation).  What a statement needs of the built-ins it takes as
    a hypothesis on [lower] and [upper]. *)
Definition titleCaseWordWith (lower upper : jsstring -> jsstring)
  (word : jsstring) : jsstring :=
  if test initialism word
  then upper word
  else upper (charAt0 word) ++ lower (slice1 word).

Definition toTitleCaseWith (lower upper : jsstring -> jsstring)
  (str : jsstring) : jsstring :=
  replace_words (titleCaseWordWith lower upper) str.

(** [m.toLowerCase().trim()], the key of a label in the map. *)
Definition dedupKeyWith (lower : jsstring -> jsstring) (m : jsstring) : jsstring :=
  trim (lower m).

Definition uniqueMajorsWith (lower : jsstring -> jsstring)
  (all : list jsstring) : list jsstring :=
  sort (values (Map_of_entries
                  (map (fun m => (trim (lower m), trim m)) all))).

Definition filteredMajorsWith (lower : jsstring -> jsstring)
  (majors : list jsstring) (query : jsstring) : list jsstring :=
  if falsy (Some (trim query))
  then majors
  else filter (fun m => includes (lower m) (lower query)) majors.

(** Text without white space, Basic Latin text, text without the Kelvin
    sign. *)
Definition nonSpaceText (s : jsstring) : Prop :=
  Forall (fun c => isWhiteSpace c = false) s.

Definition basicLatinText (s : jsstring) : Prop :=
  Forall (fun c => isAscii c = true) s.

Definition kelvinFree (s : jsstring) : Prop :=
  Forall (fun c => c <> KELVIN_SIGN) s.

(** Text of the blocks Basic Latin and Latin-1 Supplement: code units below
    U+0100, on which the embedded rows are the built-in. *)
Definition latin1Text (s : jsstring) : Prop :=
  Forall (fun c => (c <? 0x100) = true) s.

(** The number of different keys among the labels. *)
Definition jsstring_eq_dec : forall a b : jsstring, {a = b} + {a <> b} :=
  list_eq_dec N.eq_dec.

Definition distinctKeys (lower : jsstring -> jsstring) (all : list jsstring)
  : nat :=
  length (nodup jsstring_eq_dec (map (dedupKeyWith lower) all)).

(** The labels a run collects: the contributions of the partners of the
    resolved agreement list, in the order of the list. *)
Definition collected (net : network) (signal : option AbortSignal)
  (institutionId : jsstring) (schools : list Institution.t)
  (data : list AgreementInstitution.t) : list jsstring :=
  contributions net signal institutionId 0
    (map (resolveAgreement schools) data).

(** The values of the map of [uniqueMajors], in insertion order: what
    [sort()] is given. *)
Definition dedupedValues (all : list jsstring) : list jsstring :=
  values (Map_of_entries (majorEntries all)).

Open Scope string_scope.

(** One partner, Cuesta College, whose fetch answers the given labels. *)
Definition cuestaAnswers (labels : list string) : network :=
  {| institutionAgreements := fun _ =>
       ok [rawAgreement (Some "Cuesta College") (Some ["75"]) None];
     majorAgreements := fun _ _ _ _ => ok (reportsOf labels) |}.

Definition cuestaResolved : AgreementInstitution.t :=
  resolveAgreement threeColleges
    (rawAgreement (Some "Cuesta College") (Some ["75"]) None).

(** A university of the catalog that is no community college. *)
Definition university (id displayName : string) : Institution.t :=
  {| Institution.code := js id;
     Institution.names :=
       [{| Name.name := js displayName;
           Name.hasDepartments := false;
           Name.hideInList := false |}];
     Institution.id := js id;
     Institution.isCommunityCollege := false;
     Institution.beginId := js "" |}.

Definition calPolyPomona : Institution.t :=
  university "75" "California Polytechnic University, Pomona".

(** The user chooses "University of California" while the catalog is still
    on its way; then the catalog arrives and the first load stores it. *)
Definition systemChosenBeforeCatalog : Home.state :=
  let chosen :=
    home_after homeInitial
      (handleSystemSelect homeInitial (js "University of California")) in
  home_after chosen
    (mountEffect (ok [calPolyPomona]) (cuestaAnswers []) (fun _ => false)).

Close Scope string_scope.

(* ===================================================================== *)
(** ** Facts: the matcher decides the language of a pattern *)
(* ===================================================================== *)

Lemma nullable_matches r : nullable r = true <-> matches r [].
Proof.
  induction r; simpl.
  - split; [discriminate | inversion 1].
  - split; [constructor | reflexivity].
  - split; [discriminate | inversion 1].
  - rewrite andb_true_iff, IHr1, IHr2. split.
    + intros [H1 H2]. change (@nil code_unit) with (@nil code_unit ++ []). now constructor.
    + intros H. inversion H as [| |? ? s1 s2 H1 H2 [E1 E2] E| | | |]; subst.
      apply app_eq_nil in E as [-> ->]. now split.
  - rewrite orb_true_iff, IHr1, IHr2. split.
    + intros [H|H]; [now apply m_alt_l | now apply m_alt_r].
    + inversion 1; subst; [now left | now right].
  - split; [constructor | reflexivity].
Qed.

Lemma matches_star_cons_inv r c s :
  matches (Star r) (c :: s) ->
  exists s1 s2, s = s1 ++ s2 /\ matches r (c :: s1) /\ matches (Star r) s2.
Proof.
  intros H. remember (Star r) as r' eqn:Er. remember (c :: s) as w eqn:Ew.
  revert c s Ew. induction H; intros c0 s0 Ew; try discriminate.
  injection Er as ->.
  destruct s1 as [|x s1].
  - simpl in Ew. now apply IHmatches2.
  - simpl in Ew. injection Ew as -> <-. exists s1, s2. now repeat split.
Qed.

Lemma residual_matches r : forall c s, matches (residual c r) s <-> matches r (c :: s).
Proof.
  induction r; intros c s; simpl.
  - split; inversion 1.
  - split; inversion 1.
  - destruct (b c) eqn:E; split.
    + inversion 1; subst. now constructor.
    + inversion 1; subst. constructor.
    + inversion 1.
    + inversion 1; subst. congruence.
  - assert (Hseq : matches (Seq (residual c r1) r2) s ->
                   matches (Seq r1 r2) (c :: s)).
    { inversion 1; subst. change (c :: s1 ++ s2) with ((c :: s1) ++ s2).
      constructor; [now apply IHr1 | assumption]. }
    assert (Hinv : matches (Seq r1 r2) (c :: s) ->
                   matches (Seq (residual c r1) r2) s \/
                   (matches r1 [] /\ matches r2 (c :: s))).
    { intros H. inversion H as [| |? ? s1 s2 H1 H2 [E1 E2] E| | | |]; subst.
      destruct s1 as [|x s1]; simpl in E.
      - right. subst. now split.
      - injection E as -> <-. left. constructor; [now apply IHr1 | assumption]. }
    destruct (nullable r1) eqn:N.
    + split.
      * inversion 1; subst; [now apply Hseq|].
        change (c :: s) with ([] ++ c :: s). constructor.
        -- now apply nullable_matches.
        -- now apply IHr2.
      * intros H. destruct (Hinv H) as [H'|[_ H']].
        -- now apply m_alt_l.
        -- apply m_alt_r. now apply IHr2.
    + split; [exact Hseq|].
      intros H. destruct (Hinv H) as [H'|[H' _]]; [assumption|].
      apply nullable_matches in H'. congruence.
  - split.
    + inversion 1; subst; [apply m_alt_l; now apply IHr1 | apply m_alt_r; now apply IHr2].
    + inversion 1; subst; [apply m_alt_l; now apply IHr1 | apply m_alt_r; now apply IHr2].
  - split.
    + inversion 1; subst. change (c :: s1 ++ s2) with ((c :: s1) ++ s2).
      constructor; [now apply IHr | assumption].
    + intros H. apply matches_star_cons_inv in H as (s1 & s2 & -> & H1 & H2).
      constructor; [now apply IHr | assumption].
Qed.

Lemma test_matches s : forall r, test r s = true <-> matches r s.
Proof.
  induction s as [|c s IH]; intros r; simpl.
  - apply nullable_matches.
  - rewrite IH. apply residual_matches.
Qed.


Lemma matches_seq_inv r1 r2 s :
  matches (Seq r1 r2) s ->
  exists s1 s2, s = s1 ++ s2 /\ matches r1 s1 /\ matches r2 s2.
Proof. inversion 1; subst; eauto. Qed.

Lemma matches_alt_inv r1 r2 s :
  matches (Alt r1 r2) s -> matches r1 s \/ matches r2 s.
Proof. inversion 1; subst; auto. Qed.

Lemma matches_class_inv p s :
  matches (Class p) s -> exists c, s = [c] /\ p c = true.
Proof. inversion 1; subst; eauto. Qed.

Lemma matches_empty_inv s : matches Empty s -> s = [].
Proof. now inversion 1. Qed.

Lemma isDot_eq c : isDot c = true <-> c = FULL_STOP.
Proof. unfold isDot, FULL_STOP. apply N.eqb_eq. Qed.

Lemma matches_letter_dot s :
  matches letter_dot s <-> exists l, isLetter l = true /\ s = [l; FULL_STOP].
Proof.
  unfold letter_dot. split.
  - intros H. apply matches_seq_inv in H as (s1 & s2 & -> & H1 & H2).
    apply matches_class_inv in H1 as (l & -> & Hl).
    apply matches_class_inv in H2 as (d & -> & Hd).
    apply isDot_eq in Hd as ->. now exists l.
  - intros (l & Hl & ->). change [l; FULL_STOP] with ([l] ++ [FULL_STOP]).
    constructor; now constructor.
Qed.

Lemma matches_star_letter_dot s :
  matches (Star letter_dot) s <->
  exists letters, Forall (fun l => isLetter l = true) letters /\
                  s = letters_with_periods letters.
Proof.
  split.
  - intros H. remember (Star letter_dot) as r eqn:Er.
    induction H; try discriminate.
    + now exists [].
    + injection Er as ->.
      destruct (IHmatches2 eq_refl) as (letters & Hall & ->).
      apply matches_letter_dot in H as (l & Hl & ->).
      exists (l :: letters). split; [now constructor | reflexivity].
  - intros (letters & Hall & ->).
    induction Hall as [|l letters Hl _ IH]; simpl.
    + constructor.
    + change (l :: FULL_STOP :: letters_with_periods letters)
        with ([l; FULL_STOP] ++ letters_with_periods letters).
      constructor; [|exact IH]. apply matches_letter_dot. now exists l.
Qed.

Lemma matches_optional_class p s :
  matches (Optional (Class p)) s <->
  s = [] \/ exists c, p c = true /\ s = [c].
Proof.
  unfold Optional. split.
  - intros H. apply matches_alt_inv in H as [H|H].
    + apply matches_class_inv in H as (c & -> & Hc). right. now exists c.
    + left. now apply matches_empty_inv.
  - intros [->|(c & Hc & ->)].
    + apply m_alt_r. constructor.
    + apply m_alt_l. now constructor.
Qed.

Lemma matches_initialism word : matches initialism word <-> initialism_shape word.
Proof.
  unfold initialism, AtLeast2, initialism_shape. split.
  - intros H.
    apply matches_seq_inv in H as (w1 & w2 & -> & H1 & H2).
    apply matches_seq_inv in H1 as (a & w1' & -> & Ha & H1).
    apply matches_seq_inv in H1 as (b & w1'' & -> & Hb & H1).
    apply matches_letter_dot in Ha as (la & Hla & ->).
    apply matches_letter_dot in Hb as (lb & Hlb & ->).
    apply matches_star_letter_dot in H1 as (letters & Hall & ->).
    apply matches_seq_inv in H2 as (t1 & t2 & -> & Ht1 & Ht2).
    apply matches_optional_class in Ht1, Ht2.
    exists (la :: lb :: letters),
      (match t1 with [] => None | c :: _ => Some c end),
      (match t2 with [] => false | _ => true end).
    split; [simpl; lia|]. split; [now repeat constructor|].
    split.
    + destruct Ht1 as [->|(c & Hc & ->)]; simpl; now repeat constructor.
    + simpl. do 5 f_equal. f_equal.
      * destruct Ht1 as [->|(c & Hc & ->)]; reflexivity.
      * destruct Ht2 as [->|(c & Hc & ->)]; [reflexivity|].
        apply isDot_eq in Hc as ->. reflexivity.
  - intros (letters & bare & period & Hlen & Hall & Hbare & ->).
    destruct letters as [|la [|lb letters]]; simpl in Hlen; try lia.
    inversion Hall as [|? ? Hla Hall']; subst.
    inversion Hall' as [|? ? Hlb Hall'']; subst.
    constructor.
    + simpl.
      change (la :: FULL_STOP :: lb :: FULL_STOP :: letters_with_periods letters)
        with ([la; FULL_STOP] ++ [lb; FULL_STOP] ++ letters_with_periods letters).
      constructor; [apply matches_letter_dot; now exists la|].
      constructor; [apply matches_letter_dot; now exists lb|].
      apply matches_star_letter_dot. now exists letters.
    + constructor; apply matches_optional_class.
      * destruct bare as [c|]; simpl in *; [right|now left].
        inversion Hbare; subst. now exists c.
      * destruct period; [right|now left]. exists FULL_STOP. split; [|reflexivity].
        now apply isDot_eq.
Qed.

Lemma test_initialism word : test initialism word = true <-> initialism_shape word.
Proof. rewrite test_matches. apply matches_initialism. Qed.

(* ===================================================================== *)
(** ** Facts: character classes and the case tables *)
(* ===================================================================== *)

Lemma lower_cases c :
  (isUpperAZ c = true /\ toLowerCase_unit c = c + 32) \/
  (isLatin1Upper c = true /\ toLowerCase_unit c = c + 32) \/
  (c = KELVIN_SIGN /\ toLowerCase_unit c = 0x6B) \/
  (c = ANGSTROM_SIGN /\ toLowerCase_unit c = 0xE5) \/
  (isUpperAZ c = false /\ isLatin1Upper c = false /\ c <> KELVIN_SIGN /\
   c <> ANGSTROM_SIGN /\ toLowerCase_unit c = c).
Proof.
  unfold toLowerCase_unit.
  destruct (isUpperAZ c) eqn:E1; [now left|].
  destruct (isLatin1Upper c) eqn:E2; [now (right; left)|].
  destruct (N.eqb_spec c KELVIN_SIGN); [now (right; right; left)|].
  destruct (N.eqb_spec c ANGSTROM_SIGN); [now (right; right; right; left)|].
  now repeat right.
Qed.

Lemma upper_cases c :
  (isLowerAZ c = true /\ toUpperCase_unit c = c - 32) \/
  (isLowerAZ c = false /\ toUpperCase_unit c = c).
Proof. unfold toUpperCase_unit. destruct (isLowerAZ c); auto. Qed.

Lemma lower_isWhiteSpace c : isWhiteSpace (toLowerCase_unit c) = isWhiteSpace c.
Proof.
  apply eq_true_iff_eq.
  destruct (lower_cases c) as [[H ->]|[[H ->]|[[-> ->]|[[-> ->]|(_&_&_&_&->)]]]];
    try reflexivity; try (split; intros; class_lia).
Qed.

Lemma lower_idem c : toLowerCase_unit (toLowerCase_unit c) = toLowerCase_unit c.
Proof.
  destruct (lower_cases c) as [[H E]|[[H E]|[[-> E]|[[-> E]|(H1&H2&H3&H4&E)]]]];
    rewrite E; try reflexivity; try exact E.
  - destruct (lower_cases (c + 32)) as [[H' _]|[[H' _]|[[H' _]|[[H' _]|(_&_&_&_&E')]]]];
      try exact E'; exfalso; class_lia.
  - destruct (lower_cases (c + 32)) as [[H' _]|[[H' _]|[[H' _]|[[H' _]|(_&_&_&_&E')]]]];
      try exact E'; exfalso; class_lia.
Qed.

Lemma lower_isLetter c :
  c <> KELVIN_SIGN -> isLetter (toLowerCase_unit c) = isLetter c.
Proof.
  intros Hk. apply eq_true_iff_eq.
  destruct (lower_cases c) as [[H ->]|[[H ->]|[[-> ->]|[[-> ->]|(_&_&_&_&->)]]]];
    try reflexivity; try congruence; try (split; intros; class_lia).
Qed.

Lemma lower_isDot c : isDot (toLowerCase_unit c) = isDot c.
Proof.
  apply eq_true_iff_eq.
  destruct (lower_cases c) as [[H ->]|[[H ->]|[[-> ->]|[[-> ->]|(_&_&_&_&->)]]]];
    try reflexivity; try (split; intros; class_lia).
Qed.

Lemma upper_idem c : toUpperCase_unit (toUpperCase_unit c) = toUpperCase_unit c.
Proof.
  destruct (upper_cases c) as [[H E]|[H E]]; rewrite E; [|exact E].
  destruct (upper_cases (c - 32)) as [[H' _]|[_ E']]; [exfalso; class_lia | exact E'].
Qed.

Lemma upper_isLetter c : isLetter (toUpperCase_unit c) = isLetter c.
Proof.
  apply eq_true_iff_eq.
  destruct (upper_cases c) as [[H ->]|[H ->]]; [split; intros; class_lia | reflexivity].
Qed.

Lemma upper_isDot c : isDot (toUpperCase_unit c) = isDot c.
Proof.
  apply eq_true_iff_eq.
  destruct (upper_cases c) as [[H ->]|[H ->]]; [split; intros; class_lia | reflexivity].
Qed.

Lemma upper_isWordChar c : isWordChar (toUpperCase_unit c) = isWordChar c.
Proof.
  apply eq_true_iff_eq.
  destruct (upper_cases c) as [[H ->]|[H ->]]; [split; intros; class_lia | reflexivity].
Qed.

Lemma upper_isWhiteSpace c : isWhiteSpace (toUpperCase_unit c) = isWhiteSpace c.
Proof.
  apply eq_true_iff_eq.
  destruct (upper_cases c) as [[H ->]|[H ->]]; [split; intros; class_lia | reflexivity].
Qed.

Lemma space_not_word c : isWhiteSpace c = true -> isWordChar c = false.
Proof.
  intros H. destruct (isWordChar c) eqn:E; [exfalso; class_lia | reflexivity].
Qed.

Lemma letter_ascii c : isLetter c = true -> isAscii c = true.
Proof. intros H. class_lia. Qed.

Lemma word_ascii c : isWordChar c = true -> isAscii c = true.
Proof. intros H. class_lia. Qed.

(* ===================================================================== *)
(** ** Facts: string equality, the sort order and [sort] *)
(* ===================================================================== *)

Lemma jsstring_eqb_eq a : forall b, jsstring_eqb a b = true <-> a = b.
Proof.
  induction a as [|x a IH]; intros [|y b]; simpl; try (split; congruence).
  rewrite andb_true_iff, N.eqb_eq, IH. split.
  - intros [-> ->]. reflexivity.
  - intros E. injection E as -> ->. now split.
Qed.

Lemma jsstring_eqb_neq a b : jsstring_eqb a b = false <-> a <> b.
Proof.
  rewrite <- jsstring_eqb_eq. destruct (jsstring_eqb a b); split; congruence.
Qed.

Lemma jsstring_leb_total a : forall b,
  jsstring_leb a b = false -> jsstring_leb b a = true.
Proof.
  induction a as [|x a IH]; intros [|y b]; simpl; try congruence.
  rewrite orb_false_iff, andb_false_iff, orb_true_iff, andb_true_iff.
  rewrite N.ltb_ge, N.ltb_lt, !N.eqb_eq, N.eqb_neq.
  intros [H1 [H2|H2]].
  - left. lia.
  - destruct (N.eq_dec x y) as [->|Hne]; [|left; lia].
    right. split; [reflexivity | now apply IH].
Qed.

Lemma jsstring_leb_trans a : forall b c,
  jsstring_leb a b = true -> jsstring_leb b c = true -> jsstring_leb a c = true.
Proof.
  induction a as [|x a IH]; intros [|y b] [|z c]; simpl; try congruence.
  rewrite !orb_true_iff, !andb_true_iff, !N.ltb_lt, !N.eqb_eq.
  intros [H1|[-> H1]] [H2|[-> H2]].
  - left. lia.
  - now left.
  - now left.
  - right. split; [reflexivity | now apply (IH b c)].
Qed.

Lemma jsstring_leb_refl a : jsstring_leb a a = true.
Proof.
  induction a as [|x a IH]; simpl; [reflexivity|].
  now rewrite N.eqb_refl, IH, orb_true_r.
Qed.

Lemma jsstring_leb_antisym a : forall b,
  jsstring_leb a b = true -> jsstring_leb b a = true -> a = b.
Proof.
  induction a as [|x a IH]; intros [|y b]; simpl; try congruence.
  rewrite !orb_true_iff, !andb_true_iff, !N.ltb_lt, !N.eqb_eq.
  intros [H1|[-> H1]] [H2|[E H2]]; try lia.
  f_equal. now apply IH.
Qed.

Lemma insert_sorted_perm x l : Permutation (insert_sorted x l) (x :: l).
Proof.
  induction l as [|y l IH]; simpl; [reflexivity|].
  destruct (jsstring_leb x y); [reflexivity|].
  rewrite IH. apply perm_swap.
Qed.

Lemma sort_perm l : Permutation (sort l) l.
Proof.
  induction l as [|x l IH]; simpl; [constructor|].
  unfold sort in *. simpl. rewrite insert_sorted_perm. now constructor.
Qed.

Lemma insert_sorted_sorted x l :
  StronglySorted jsstring_le l -> StronglySorted jsstring_le (insert_sorted x l).
Proof.
  induction 1 as [|y l Hl IH Hy]; simpl.
  - repeat constructor.
  - destruct (jsstring_leb x y) eqn:E.
    + constructor; [now constructor|]. constructor; [exact E|].
      eapply Forall_impl; [|exact Hy]. intros z Hz.
      exact (jsstring_leb_trans x y z E Hz).
    + constructor; [exact IH|].
      apply (Permutation_Forall (x := x :: l)).
      * symmetry. apply insert_sorted_perm.
      * constructor; [|exact Hy]. now apply jsstring_leb_total.
Qed.

Lemma sort_sorted l : StronglySorted jsstring_le (sort l).
Proof.
  induction l as [|x l IH]; [constructor|].
  apply insert_sorted_sorted. exact IH.
Qed.

Lemma sort_In l x : In x (sort l) <-> In x l.
Proof.
  split; apply Permutation_in; [apply sort_perm | symmetry; apply sort_perm].
Qed.

(** Two sorted arrangements of the same strings are the same list. *)
Lemma sorted_perm_unique l : forall l',
  StronglySorted jsstring_le l -> StronglySorted jsstring_le l' ->
  Permutation l l' -> l = l'.
Proof.
  induction l as [|x l IH]; intros l' Hl Hl' Hp.
  - apply Permutation_nil in Hp. now subst.
  - destruct l' as [|y l'].
    + apply Permutation_sym, Permutation_nil in Hp. discriminate.
    + inversion Hl as [|? ? Hl1 Hx]; inversion Hl' as [|? ? Hl1' Hy]; subst.
      assert (E : x = y).
      { assert (Hxy : In y (x :: l)).
        { apply (Permutation_in y (Permutation_sym Hp)). now left. }
        assert (Hyx : In x (y :: l')).
        { apply (Permutation_in x Hp). now left. }
        rewrite Forall_forall in Hx, Hy.
        destruct Hxy as [E|Hxy]; [exact E|].
        destruct Hyx as [E|Hyx]; [now symmetry|].
        apply jsstring_leb_antisym; [now apply Hx | now apply Hy]. }
      subst y. f_equal. apply IH; try assumption.
      now apply Permutation_cons_inv in Hp.
Qed.

(* ===================================================================== *)
(** ** Facts: [Map] *)
(* ===================================================================== *)

Lemma map_set_keys_in k v m :
  In k (map fst m) -> map fst (map_set k v m) = map fst m.
Proof.
  induction m as [|[k' v'] m IH]; simpl; [tauto|].
  destruct (jsstring_eqb k' k) eqn:E; [reflexivity|].
  apply jsstring_eqb_neq in E. intros [H|H]; [congruence|].
  simpl. now rewrite IH.
Qed.

Lemma map_set_keys_new k v m :
  ~ In k (map fst m) -> map fst (map_set k v m) = map fst m ++ [k].
Proof.
  induction m as [|[k' v'] m IH]; simpl; [reflexivity|].
  intros H. destruct (jsstring_eqb k' k) eqn:E.
  - apply jsstring_eqb_eq in E. tauto.
  - simpl. rewrite IH; tauto.
Qed.

Lemma map_set_NoDup k v m :
  NoDup (map fst m) -> NoDup (map fst (map_set k v m)).
Proof.
  intros H. destruct (in_dec jsstring_eq_dec k (map fst m)) as [Hin|Hin].
  - now rewrite map_set_keys_in.
  - rewrite map_set_keys_new by exact Hin.
    apply NoDup_rev in H. rewrite <- (rev_involutive (map fst m ++ [k])).
    apply NoDup_rev. rewrite rev_app_distr. simpl.
    constructor; [|exact H]. now rewrite <- in_rev.
Qed.

Lemma map_set_In k v m :
  NoDup (map fst m) ->
  forall k' v', In (k', v') (map_set k v m) <->
                (k' = k /\ v' = v) \/ (k' <> k /\ In (k', v') m).
Proof.
  induction m as [|[k0 v0] m IH]; simpl; intros Hnd k' v'.
  - split.
    + intros [E|[]]. injection E as <- <-. now left.
    + intros [[-> ->]|[_ []]]. now left.
  - inversion Hnd as [|? ? Hk0 Hnd']; subst.
    destruct (jsstring_eqb k0 k) eqn:E.
    + apply jsstring_eqb_eq in E. subst k0. simpl. split.
      * intros [E|H].
        -- injection E as <- <-. now left.
        -- right. split; [|now right].
           intros ->. apply Hk0. apply (in_map fst) in H. exact H.
      * intros [[-> ->]|[Hne [E|H]]].
        -- now left.
        -- injection E as <- <-. congruence.
        -- now right.
    + apply jsstring_eqb_neq in E. simpl. rewrite (IH Hnd'). split.
      * intros [E'|[H|H]].
        -- injection E' as <- <-. right. split; [congruence | now left].
        -- now left.
        -- right. split; [tauto | right; tauto].
      * intros [H|[Hne [E'|H]]].
        -- right. now left.
        -- now left.
        -- right. right. now split.
Qed.

Lemma Map_of_entries_snoc es k v :
  Map_of_entries (es ++ [(k, v)]) = map_set k v (Map_of_entries es).
Proof. unfold Map_of_entries. now rewrite fold_left_app. Qed.

Lemma Map_of_entries_NoDup es : NoDup (map fst (Map_of_entries es)).
Proof.
  induction es as [|[k v] es IH] using rev_ind.
  - constructor.
  - rewrite Map_of_entries_snoc. now apply map_set_NoDup.
Qed.

(** An entry of the map is the last entry given for its key. *)
Lemma Map_of_entries_In es : forall k v,
  In (k, v) (Map_of_entries es) <->
  exists before after,
    es = before ++ (k, v) :: after /\ Forall (fun kv => fst kv <> k) after.
Proof.
  induction es as [|[k0 v0] es IH] using rev_ind; intros k v.
  - simpl. split; [tauto|]. intros (b & a & E & _). now destruct b.
  - rewrite Map_of_entries_snoc, (map_set_In _ _ _ (Map_of_entries_NoDup es)).
    rewrite IH. split.
    + intros [[-> ->]|[Hne (b & a & -> & Ha)]].
      * exists es, []. split; [reflexivity | constructor].
      * exists b, (a ++ [(k0, v0)]). split.
        -- now rewrite <- app_assoc.
        -- apply Forall_app. split; [exact Ha|]. constructor; [|constructor].
           simpl. congruence.
    + intros (b & a & E & Ha).
      destruct a as [|x a] using rev_ind.
      * apply app_inj_tail in E as [-> E]. injection E as -> ->. now left.
      * clear IHa. change (b ++ (k, v) :: a ++ [x]) with (b ++ ((k, v) :: a) ++ [x]) in E.
        rewrite app_assoc in E. apply app_inj_tail in E as [-> <-].
        apply Forall_app in Ha as [Ha Hx]. inversion Hx; subst. simpl in *.
        right. split; [congruence|]. now exists b, a.
Qed.

Lemma Map_of_entries_keys es k :
  In k (map fst (Map_of_entries es)) <-> In k (map fst es).
Proof.
  induction es as [|[k0 v0] es IH] using rev_ind; [reflexivity|].
  rewrite Map_of_entries_snoc, map_app, in_app_iff. simpl.
  destruct (in_dec jsstring_eq_dec k0 (map fst (Map_of_entries es))) as [Hin|Hin].
  - rewrite map_set_keys_in by exact Hin. rewrite IH. split; [tauto|].
    intros [H|[<-|[]]]; [exact H | now apply IH].
  - rewrite map_set_keys_new by exact Hin. rewrite in_app_iff, IH. reflexivity.
Qed.

(* ===================================================================== *)
(** ** Facts: [replace_words] and [toTitleCase] *)
(* ===================================================================== *)

Section Replace.
Variable callback : jsstring -> jsstring.

Lemma replace_words_nil : replace_words callback [] = [].
Proof. now simp replace_words. Qed.

Lemma replace_words_cons c s :
  replace_words callback (c :: s) =
  if isWordChar c
  then callback (c :: takeWhile isNonSpace s)
         ++ replace_words callback (dropWhile isNonSpace s)
  else c :: replace_words callback s.
Proof. now simp replace_words. Qed.

Lemma replace_words_gap gap s :
  Forall (fun x => isWordChar x = false) gap ->
  replace_words callback (gap ++ s) = gap ++ replace_words callback s.
Proof.
  induction 1 as [|x gap Hx _ IH]; simpl; [reflexivity|].
  now rewrite replace_words_cons, Hx, IH.
Qed.

Lemma takeWhile_run run rest :
  Forall (fun x => isWhiteSpace x = false) run -> endOfToken rest = true ->
  takeWhile isNonSpace (run ++ rest) = run.
Proof.
  intros Hrun Hrest. induction Hrun as [|x run Hx _ IH]; simpl.
  - destruct rest as [|y rest]; [reflexivity|]. simpl in *.
    unfold isNonSpace. now rewrite Hrest.
  - unfold isNonSpace at 1. rewrite Hx. simpl. now rewrite IH.
Qed.

Lemma dropWhile_run run rest :
  Forall (fun x => isWhiteSpace x = false) run -> endOfToken rest = true ->
  dropWhile isNonSpace (run ++ rest) = rest.
Proof.
  intros Hrun Hrest. induction Hrun as [|x run Hx _ IH]; simpl.
  - destruct rest as [|y rest]; [reflexivity|]. simpl in *.
    unfold isNonSpace. now rewrite Hrest.
  - unfold isNonSpace at 1. now rewrite Hx.
Qed.

Lemma replace_words_token c run rest :
  isWordChar c = true ->
  Forall (fun x => isWhiteSpace x = false) run -> endOfToken rest = true ->
  replace_words callback (c :: run ++ rest) =
  callback (c :: run) ++ replace_words callback rest.
Proof.
  intros Hc Hrun Hrest.
  now rewrite replace_words_cons, Hc, takeWhile_run, dropWhile_run.
Qed.

Lemma endOfToken_replace_words rest :
  endOfToken rest = true -> endOfToken (replace_words callback rest) = true.
Proof.
  destruct rest as [|x rest]; simpl; intros H.
  - now rewrite replace_words_nil.
  - now rewrite replace_words_cons, (space_not_word _ H).
Qed.

End Replace.

Lemma takeWhile_nonspace s :
  Forall (fun x => isWhiteSpace x = false) (takeWhile isNonSpace s).
Proof.
  induction s as [|x s IH]; simpl; [constructor|].
  unfold isNonSpace at 1. destruct (isWhiteSpace x) eqn:E; simpl; now constructor.
Qed.

Lemma dropWhile_endOfToken s : endOfToken (dropWhile isNonSpace s) = true.
Proof.
  induction s as [|x s IH]; simpl; [reflexivity|].
  unfold isNonSpace at 1. destruct (isWhiteSpace x) eqn:E; simpl; auto.
Qed.

Lemma takeWhile_dropWhile p s : takeWhile p s ++ dropWhile p s = s.
Proof.
  induction s as [|x s IH]; simpl; [reflexivity|].
  destruct (p x); simpl; [now rewrite IH | reflexivity].
Qed.

Lemma dropWhile_length p s : (length (dropWhile p s) <= length s)%nat.
Proof.
  induction s as [|x s IH]; simpl; [lia|]. destruct (p x); simpl; lia.
Qed.

Lemma Forall_dropWhile (P : code_unit -> Prop) p s :
  Forall P s -> Forall P (dropWhile p s).
Proof.
  induction 1 as [|x s Hx Hs IH]; simpl; [constructor|].
  destruct (p x); [exact IH | now constructor].
Qed.

Lemma Forall_takeWhile (P : code_unit -> Prop) p s :
  Forall P s -> Forall P (takeWhile p s).
Proof.
  induction 1 as [|x s Hx Hs IH]; simpl; [constructor|].
  destruct (p x); now constructor.
Qed.

(** Regex classes *)
Lemma respects_residual R r c : respects R r -> respects R (residual c r).
Proof.
  induction r; simpl; try tauto.
  - intros H. destruct (b c); exact I.
  - intros [H1 H2]. destruct (nullable r1); simpl; tauto.
Qed.

Lemma residual_respects R r x y :
  respects R r -> R x y -> residual x r = residual y r.
Proof.
  intros Hr Hxy. induction r; simpl in *; try reflexivity.
  - now rewrite (Hr x y Hxy).
  - destruct Hr as [H1 H2]. now rewrite IHr1, IHr2.
  - destruct Hr as [H1 H2]. now rewrite IHr1, IHr2.
  - now rewrite IHr.
Qed.

Lemma test_respects R s s' :
  Forall2 R s s' -> forall r, respects R r -> test r s = test r s'.
Proof.
  induction 1 as [|x y s s' Hxy _ IH]; intros r Hr; simpl; [reflexivity|].
  rewrite (residual_respects R r x y Hr Hxy). apply IH. now apply respects_residual.
Qed.

Lemma initialism_respects : respects same_class initialism.
Proof. unfold same_class. simpl. intuition. Qed.

Lemma test_initialism_same_class s s' :
  Forall2 same_class s s' -> test initialism s = test initialism s'.
Proof. intros H. apply (test_respects same_class s s' H). apply initialism_respects. Qed.

Lemma same_class_upper s : Forall2 same_class s (toUpperCase s).
Proof.
  induction s as [|c s IH]; simpl; constructor; [|exact IH].
  split; [now rewrite upper_isLetter | now rewrite upper_isDot].
Qed.

Lemma same_class_lower s :
  Forall (fun c => c <> KELVIN_SIGN) s -> Forall2 same_class s (toLowerCase s).
Proof.
  induction 1 as [|c s Hc _ IH]; simpl; constructor; [|exact IH].
  split; [now rewrite lower_isLetter | now rewrite lower_isDot].
Qed.

Lemma toUpperCase_idem s : toUpperCase (toUpperCase s) = toUpperCase s.
Proof.
  unfold toUpperCase. rewrite map_map. apply map_ext. apply upper_idem.
Qed.

Lemma toLowerCase_idem s : toLowerCase (toLowerCase s) = toLowerCase s.
Proof.
  unfold toLowerCase. rewrite map_map. apply map_ext. apply lower_idem.
Qed.

Lemma titleCaseWord_cons c run :
  titleCaseWord (c :: run) =
  if test initialism (c :: run)
  then toUpperCase (c :: run)
  else toUpperCase_unit c :: toLowerCase run.
Proof. reflexivity. Qed.

Lemma initialism_basicLatin s : test initialism s = true -> basicLatinText s.
Proof.
  intros H. apply test_initialism in H
    as (letters & bare & period & _ & Hl & Hb & ->).
  unfold basicLatinText. apply Forall_app. split; [|apply Forall_app; split].
  - unfold letters_with_periods. induction Hl as [|l ls Hl _ IH]; simpl.
    + constructor.
    + constructor; [now apply letter_ascii|]. constructor; [reflexivity | exact IH].
  - eapply Forall_impl; [|exact Hb]. intros x. apply letter_ascii.
  - destruct period; repeat constructor.
Qed.

Lemma lower_ascii_only_kelvin c :
  c <> KELVIN_SIGN -> isAscii (toLowerCase_unit c) = true -> isAscii c = true.
Proof.
  intros Hk.
  destruct (lower_cases c) as [[H ->]|[[H ->]|[[-> ->]|[[-> ->]|(_&_&_&_&->)]]]];
    try congruence; intros; class_lia.
Qed.

(** The normalizer with the built-ins as parameters: what idempotence needs
    of them. *)
Section TitleCaseWith.
Variables lower upper : jsstring -> jsstring.
Hypothesis lower_twice : forall s, lower (lower s) = lower s.
Hypothesis lower_nonSpace : forall s, nonSpaceText s -> nonSpaceText (lower s).
Hypothesis basicLatin_rows :
  forall s, basicLatinText s -> lower s = toLowerCase s /\ upper s = toUpperCase s.
Hypothesis only_kelvin :
  forall s, kelvinFree s -> basicLatinText (lower s) -> basicLatinText s.

Lemma titleCaseWordWith_cons c run :
  isWordChar c = true ->
  titleCaseWordWith lower upper (c :: run) =
  if test initialism (c :: run)
  then toUpperCase (c :: run)
  else toUpperCase_unit c :: lower run.
Proof.
  intros Hc. unfold titleCaseWordWith.
  destruct (test initialism (c :: run)) eqn:E.
  - apply basicLatin_rows. now apply initialism_basicLatin.
  - assert (Ha : basicLatinText [c]).
    { constructor; [now apply word_ascii | constructor]. }
    simpl. now rewrite (proj2 (basicLatin_rows [c] Ha)).
Qed.

Lemma titleCaseWordWith_shape c run :
  isWordChar c = true -> nonSpaceText run ->
  exists run',
    titleCaseWordWith lower upper (c :: run) = toUpperCase_unit c :: run'
    /\ nonSpaceText run'.
Proof.
  intros Hc Hrun. rewrite titleCaseWordWith_cons by exact Hc.
  destruct (test initialism (c :: run)).
  - exists (toUpperCase run). split; [reflexivity|].
    unfold nonSpaceText, toUpperCase in *. apply Forall_map.
    eapply Forall_impl; [|exact Hrun]. intros x. now rewrite upper_isWhiteSpace.
  - exists (lower run). split; [reflexivity | now apply lower_nonSpace].
Qed.

Lemma titleCaseWordWith_idem c run :
  isWordChar c = true -> kelvinFree run ->
  titleCaseWordWith lower upper (titleCaseWordWith lower upper (c :: run))
  = titleCaseWordWith lower upper (c :: run).
Proof.
  intros Hc Hk. rewrite (titleCaseWordWith_cons c run Hc).
  destruct (test initialism (c :: run)) eqn:E.
  - change (toUpperCase (c :: run)) with (toUpperCase_unit c :: toUpperCase run).
    rewrite titleCaseWordWith_cons by now rewrite upper_isWordChar.
    change (toUpperCase_unit c :: toUpperCase run) with (toUpperCase (c :: run)).
    rewrite <- (test_initialism_same_class _ _ (same_class_upper (c :: run))), E.
    apply toUpperCase_idem.
  - rewrite titleCaseWordWith_cons by now rewrite upper_isWordChar.
    destruct (test initialism (toUpperCase_unit c :: lower run)) eqn:E'.
    + exfalso. pose proof (initialism_basicLatin _ E') as Ha.
      inversion Ha as [|? ? _ Hrun]; subst.
      apply (only_kelvin run Hk) in Hrun.
      assert (H : Forall2 same_class (c :: run) (toUpperCase_unit c :: lower run)).
      { rewrite (proj1 (basicLatin_rows run Hrun)).
        constructor; [|now apply same_class_lower].
        split; [now rewrite upper_isLetter | now rewrite upper_isDot]. }
      rewrite (test_initialism_same_class _ _ H) in E. congruence.
    + now rewrite upper_idem, lower_twice.
Qed.

Lemma toTitleCaseWith_idem_aux n : forall s,
  (length s <= n)%nat -> kelvinFree s ->
  toTitleCaseWith lower upper (toTitleCaseWith lower upper s)
  = toTitleCaseWith lower upper s.
Proof.
  unfold toTitleCaseWith, kelvinFree.
  induction n as [|n IH]; intros s Hlen Hk.
  - destruct s; [|simpl in Hlen; lia]. now rewrite !replace_words_nil.
  - destruct s as [|c s]; [now rewrite !replace_words_nil|].
    simpl in Hlen. inversion Hk as [|? ? Hc Hs]; subst.
    rewrite (replace_words_cons (titleCaseWordWith lower upper) c s).
    destruct (isWordChar c) eqn:Ew.
    + pose proof (titleCaseWordWith_idem c _ Ew
                    (Forall_takeWhile _ isNonSpace s Hs)) as Hidem.
      destruct (titleCaseWordWith_shape c (takeWhile isNonSpace s) Ew
                  (takeWhile_nonspace s)) as (run' & E & Hrun').
      rewrite E in *. simpl.
      rewrite replace_words_token.
      * rewrite Hidem. simpl. f_equal. f_equal. apply IH.
        -- pose proof (dropWhile_length isNonSpace s). lia.
        -- now apply Forall_dropWhile.
      * now rewrite upper_isWordChar.
      * exact Hrun'.
      * apply endOfToken_replace_words, dropWhile_endOfToken.
    + rewrite replace_words_cons, Ew. f_equal. apply IH; [lia | assumption].
Qed.

Lemma toTitleCaseWith_idem s :
  kelvinFree s ->
  toTitleCaseWith lower upper (toTitleCaseWith lower upper s)
  = toTitleCaseWith lower upper s.
Proof. apply (toTitleCaseWith_idem_aux (length s)). lia. Qed.

End TitleCaseWith.

(** The embedded rows have what the section asks of the built-ins. *)
Lemma toLowerCase_nonSpace s : nonSpaceText s -> nonSpaceText (toLowerCase s).
Proof.
  unfold nonSpaceText, toLowerCase. intros H. apply Forall_map.
  eapply Forall_impl; [|exact H]. intros x. now rewrite lower_isWhiteSpace.
Qed.

Lemma toLowerCase_only_kelvin s :
  kelvinFree s -> basicLatinText (toLowerCase s) -> basicLatinText s.
Proof.
  unfold kelvinFree, basicLatinText, toLowerCase.
  induction 1 as [|c s Hc _ IH]; simpl; intros H; [constructor|].
  inversion H; subst. constructor; [now apply lower_ascii_only_kelvin | auto].
Qed.

(* ===================================================================== *)
(** ** Facts: [trim], the deduplication key and [uniqueMajors] *)
(* ===================================================================== *)

Lemma dropWhile_idem p s : dropWhile p (dropWhile p s) = dropWhile p s.
Proof.
  induction s as [|x s IH]; simpl; [reflexivity|].
  destruct (p x) eqn:E; [exact IH|]. simpl. now rewrite E.
Qed.

Lemma dropWhile_snoc_stop p s c :
  p c = false -> dropWhile p (s ++ [c]) = dropWhile p s ++ [c].
Proof.
  intros Hc. induction s as [|x s IH]; simpl.
  - now rewrite Hc.
  - destruct (p x); [exact IH | reflexivity].
Qed.

Lemma trimEnd_cons c s :
  isWhiteSpace c = false -> trimEnd (c :: s) = c :: trimEnd s.
Proof.
  intros Hc. unfold trimEnd. simpl.
  rewrite dropWhile_snoc_stop by exact Hc.
  rewrite rev_app_distr. reflexivity.
Qed.

Lemma trimEnd_idem s : trimEnd (trimEnd s) = trimEnd s.
Proof. unfold trimEnd. now rewrite rev_involutive, dropWhile_idem. Qed.

Lemma trimStart_clean s :
  match trimStart s with [] => True | c :: _ => isWhiteSpace c = false end.
Proof.
  unfold trimStart. induction s as [|x s IH]; simpl; [exact I|].
  destruct (isWhiteSpace x) eqn:E; [exact IH | exact E].
Qed.

Lemma trim_idem s : trim (trim s) = trim s.
Proof.
  unfold trim. pose proof (trimStart_clean s) as H.
  destruct (trimStart s) as [|c t].
  - reflexivity.
  - rewrite (trimEnd_cons c t H). unfold trimStart at 1. simpl. rewrite H.
    rewrite <- (trimEnd_cons c t H). apply trimEnd_idem.
Qed.

Lemma map_dropWhile (f : code_unit -> code_unit) p s :
  (forall c, p (f c) = p c) -> map f (dropWhile p s) = dropWhile p (map f s).
Proof.
  intros Hf. induction s as [|x s IH]; simpl; [reflexivity|].
  rewrite Hf. destruct (p x); [exact IH | reflexivity].
Qed.

Lemma toLowerCase_trim s : toLowerCase (trim s) = trim (toLowerCase s).
Proof.
  unfold trim, trimEnd, trimStart, toLowerCase.
  rewrite map_rev, (map_dropWhile _ _ _ lower_isWhiteSpace), map_rev.
  now rewrite (map_dropWhile _ _ _ lower_isWhiteSpace).
Qed.

Lemma dedupKey_trim m : dedupKey (trim m) = dedupKey m.
Proof. unfold dedupKey. now rewrite toLowerCase_trim, trim_idem. Qed.

Lemma uniqueMajors_In all v :
  In v (uniqueMajors all) <-> exists k, In (k, v) (Map_of_entries (majorEntries all)).
Proof.
  unfold uniqueMajors. fold (majorEntries all).
  rewrite sort_In. unfold values. rewrite in_map_iff. split.
  - intros ([k v'] & E & H). simpl in E. subst. now exists k.
  - intros (k & H). now exists (k, v).
Qed.

Lemma majorEntries_dedupKey all k v :
  In (k, v) (Map_of_entries (majorEntries all)) -> dedupKey v = k.
Proof.
  intros H. apply Map_of_entries_In in H as (b & a & E & _).
  assert (Hin : In (k, v) (majorEntries all)).
  { rewrite E. apply in_or_app. right. now left. }
  unfold majorEntries in Hin. apply in_map_iff in Hin as (m & Em & _).
  injection Em as <- <-. apply dedupKey_trim.
Qed.

(** The element kept for a key is the trimmed form of the last label of the
    sequence that has this key. *)
Lemma uniqueMajors_last_seen all v :
  In v (uniqueMajors all) <->
  exists before m after,
    all = before ++ m :: after /\ v = trim m /\
    Forall (fun m' => dedupKey m' <> dedupKey m) after.
Proof.
  rewrite uniqueMajors_In. split.
  - intros (k & H). apply Map_of_entries_In in H as (b & a & E & Ha).
    unfold majorEntries in E.
    apply map_eq_app in E as (b' & r & -> & Eb & Er).
    apply map_eq_cons in Er as (m & a' & -> & Em & Ea').
    injection Em as <- <-. exists b', m, a'. repeat split.
    subst a. rewrite Forall_forall in *. intros m' Hm'.
    apply (Ha (trim (toLowerCase m'), trim m')).
    apply in_map_iff. now exists m'.
  - intros (b & m & a & -> & -> & Ha).
    exists (dedupKey m). apply Map_of_entries_In.
    exists (majorEntries b), (majorEntries a). split.
    + unfold majorEntries. now rewrite map_app.
    + unfold majorEntries. rewrite Forall_forall in *.
      intros kv Hkv. apply in_map_iff in Hkv as (m' & <- & Hm').
      simpl. now apply Ha.
Qed.

Lemma uniqueMajors_keys_NoDup all : NoDup (map dedupKey (uniqueMajors all)).
Proof.
  unfold uniqueMajors. fold (majorEntries all).
  apply (Permutation_NoDup (l := map dedupKey (values (Map_of_entries (majorEntries all))))).
  - apply Permutation_map. symmetry. apply sort_perm.
  - assert (E : map dedupKey (values (Map_of_entries (majorEntries all)))
                = map fst (Map_of_entries (majorEntries all))).
    { unfold values. rewrite map_map. apply map_ext_in.
      intros [k v] H. simpl. now apply (majorEntries_dedupKey all). }
    rewrite E. apply Map_of_entries_NoDup.
Qed.

Lemma uniqueMajors_represents all m :
  In m all -> In (dedupKey m) (map dedupKey (uniqueMajors all)).
Proof.
  intros Hm.
  assert (Hk : In (dedupKey m) (map fst (Map_of_entries (majorEntries all)))).
  { apply Map_of_entries_keys. unfold majorEntries. rewrite map_map. simpl.
    apply in_map_iff. now exists m. }
  apply in_map_iff in Hk as ([k v] & Ek & Hin). simpl in Ek. subst k.
  apply in_map_iff. exists v. split.
  - now apply (majorEntries_dedupKey all).
  - apply uniqueMajors_In. now exists (dedupKey m).
Qed.

(** The same facts for any lower-casing function: where the map keeps the
    last label of a key, nothing depends on what the key is. *)
Section UniqueMajorsWith.
Variable lower : jsstring -> jsstring.

Lemma uniqueMajorsWith_In all v :
  In v (uniqueMajorsWith lower all) <->
  exists k,
    In (k, v) (Map_of_entries (map (fun m => (trim (lower m), trim m)) all)).
Proof.
  unfold uniqueMajorsWith.
  rewrite sort_In. unfold values. rewrite in_map_iff. split.
  - intros ([k v'] & E & H). simpl in E. subst. now exists k.
  - intros (k & H). now exists (k, v).
Qed.

Lemma uniqueMajorsWith_last_seen all v :
  In v (uniqueMajorsWith lower all) <->
  exists before m after,
    all = before ++ m :: after /\ v = trim m /\
    Forall (fun m' => dedupKeyWith lower m' <> dedupKeyWith lower m) after.
Proof.
  unfold dedupKeyWith. rewrite uniqueMajorsWith_In. split.
  - intros (k & H). apply Map_of_entries_In in H as (b & a & E & Ha).
    apply map_eq_app in E as (b' & r & -> & Eb & Er).
    apply map_eq_cons in Er as (m & a' & -> & Em & Ea').
    injection Em as <- <-. exists b', m, a'. repeat split.
    subst a. rewrite Forall_forall in *. intros m' Hm'.
    apply (Ha (trim (lower m'), trim m')).
    apply in_map_iff. now exists m'.
  - intros (b & m & a & -> & -> & Ha).
    exists (trim (lower m)). apply Map_of_entries_In.
    exists (map (fun m => (trim (lower m), trim m)) b),
      (map (fun m => (trim (lower m), trim m)) a). split.
    + now rewrite map_app.
    + rewrite Forall_forall in *.
      intros kv Hkv. apply in_map_iff in Hkv as (m' & <- & Hm').
      simpl. now apply Ha.
Qed.

(** One element for each key. *)
Lemma uniqueMajorsWith_length all :
  length (uniqueMajorsWith lower all) = distinctKeys lower all.
Proof.
  unfold uniqueMajorsWith, distinctKeys.
  rewrite (Permutation_length (sort_perm _)).
  unfold values. rewrite length_map.
  rewrite <- (length_map fst). apply Permutation_length, NoDup_Permutation.
  - apply Map_of_entries_NoDup.
  - apply NoDup_nodup.
  - intros k. rewrite Map_of_entries_keys, nodup_In, map_map. reflexivity.
Qed.

Hypothesis lower_trim : forall s, lower (trim s) = trim (lower s).

Lemma dedupKeyWith_trim m : dedupKeyWith lower (trim m) = dedupKeyWith lower m.
Proof. unfold dedupKeyWith. now rewrite lower_trim, trim_idem. Qed.

Lemma uniqueMajorsWith_key all k v :
  In (k, v) (Map_of_entries (map (fun m => (trim (lower m), trim m)) all)) ->
  dedupKeyWith lower v = k.
Proof.
  intros H. apply Map_of_entries_In in H as (b & a & E & _).
  assert (Hin : In (k, v) (map (fun m => (trim (lower m), trim m)) all)).
  { rewrite E. apply in_or_app. right. now left. }
  apply in_map_iff in Hin as (m & Em & _).
  injection Em as <- <-. apply dedupKeyWith_trim.
Qed.

Lemma uniqueMajorsWith_keys_NoDup all :
  NoDup (map (dedupKeyWith lower) (uniqueMajorsWith lower all)).
Proof.
  unfold uniqueMajorsWith.
  set (M := Map_of_entries (map (fun m => (trim (lower m), trim m)) all)).
  apply (Permutation_NoDup (l := map (dedupKeyWith lower) (values M))).
  - apply Permutation_map. symmetry. apply sort_perm.
  - assert (E : map (dedupKeyWith lower) (values M) = map fst M).
    { unfold values. rewrite map_map. apply map_ext_in.
      intros [k v] H. simpl. now apply (uniqueMajorsWith_key all). }
    rewrite E. apply Map_of_entries_NoDup.
Qed.

Lemma uniqueMajorsWith_represents all m :
  In m all ->
  In (dedupKeyWith lower m) (map (dedupKeyWith lower) (uniqueMajorsWith lower all)).
Proof.
  intros Hm.
  assert (Hk : In (dedupKeyWith lower m)
                 (map fst (Map_of_entries
                             (map (fun m => (trim (lower m), trim m)) all)))).
  { apply Map_of_entries_keys. rewrite map_map. simpl.
    apply in_map_iff. now exists m. }
  apply in_map_iff in Hk as ([k v] & Ek & Hin). simpl in Ek. subst k.
  apply in_map_iff. exists v. split.
  - now apply (uniqueMajorsWith_key all).
  - apply uniqueMajorsWith_In. now exists (dedupKeyWith lower m).
Qed.

End UniqueMajorsWith.

(* ===================================================================== *)
(** ** Facts: labels of Basic Latin text with the same key *)
(* ===================================================================== *)

Lemma lower_upper c :
  toLowerCase_unit (toUpperCase_unit c) = toLowerCase_unit c.
Proof.
  destruct (upper_cases c) as [[H ->]|[H ->]]; [|reflexivity].
  destruct (lower_cases (c - 32)) as [[H' ->]|[[H' _]|[[H' _]|[[H' _]|(H'&_)]]]];
    try (exfalso; class_lia).
  destruct (lower_cases c) as [[H2 _]|[[H2 _]|[[H2 _]|[[H2 _]|(_&_&_&_&->)]]]];
    try (exfalso; class_lia).
  class_lia.
Qed.

Lemma ascii_same_lower x y :
  isAscii x = true -> isAscii y = true ->
  toLowerCase_unit x = toLowerCase_unit y ->
  x = y \/ (isUpperAZ x = true /\ y = x + 32) \/ (isUpperAZ y = true /\ x = y + 32).
Proof.
  intros Hx Hy.
  destruct (lower_cases x) as [[H1 ->]|[[H1 _]|[[H1 _]|[[H1 _]|(_&_&_&_&->)]]]];
    try (exfalso; class_lia);
    (destruct (lower_cases y) as [[H2 ->]|[[H2 _]|[[H2 _]|[[H2 _]|(_&_&_&_&->)]]]];
     try (exfalso; class_lia)); intros E.
  - left. lia.
  - right. left. now split.
  - right. right. now split.
  - now left.
Qed.

Lemma same_letter_upper x y :
  same_letter x y -> toUpperCase_unit x = toUpperCase_unit y.
Proof.
  intros (Hx & Hy & E).
  destruct (ascii_same_lower x y Hx Hy E) as [->|[[H ->]|[H ->]]]; [reflexivity| |].
  - destruct (upper_cases x) as [[H1 _]|[_ ->]]; [exfalso; class_lia|].
    destruct (upper_cases (x + 32)) as [[_ ->]|[H2 _]]; [lia | exfalso; class_lia].
  - destruct (upper_cases y) as [[H1 _]|[_ ->]]; [exfalso; class_lia|].
    destruct (upper_cases (y + 32)) as [[_ ->]|[H2 _]]; [lia | exfalso; class_lia].
Qed.

Lemma same_letter_isWordChar x y : same_letter x y -> isWordChar x = isWordChar y.
Proof.
  intros (Hx & Hy & E). apply eq_true_iff_eq.
  destruct (ascii_same_lower x y Hx Hy E) as [->|[[H ->]|[H ->]]];
    [reflexivity | split; intros; class_lia | split; intros; class_lia].
Qed.

Lemma same_letter_isWhiteSpace x y : same_letter x y -> isWhiteSpace x = isWhiteSpace y.
Proof.
  intros (Hx & Hy & E). apply eq_true_iff_eq.
  destruct (ascii_same_lower x y Hx Hy E) as [->|[[H ->]|[H ->]]];
    [reflexivity | split; intros; class_lia | split; intros; class_lia].
Qed.

Lemma same_letter_same_class x y : same_letter x y -> same_class x y.
Proof.
  intros (Hx & Hy & E). unfold same_class.
  destruct (ascii_same_lower x y Hx Hy E) as [->|[[H ->]|[H ->]]]; [now split| |];
    split; apply eq_true_iff_eq; split; intros; class_lia.
Qed.

Lemma same_letter_takeWhile s s' :
  Forall2 same_letter s s' ->
  Forall2 same_letter (takeWhile isNonSpace s) (takeWhile isNonSpace s').
Proof.
  induction 1 as [|x y s s' Hxy _ IH]; simpl; [constructor|].
  unfold isNonSpace at 1 3. rewrite (same_letter_isWhiteSpace x y Hxy).
  destruct (isWhiteSpace y); simpl; now constructor.
Qed.

Lemma same_letter_dropWhile s s' :
  Forall2 same_letter s s' ->
  Forall2 same_letter (dropWhile isNonSpace s) (dropWhile isNonSpace s').
Proof.
  induction 1 as [|x y s s' Hxy Hs IH]; simpl; [constructor|].
  unfold isNonSpace at 1 3. rewrite (same_letter_isWhiteSpace x y Hxy).
  destruct (isWhiteSpace y); simpl; [now constructor | exact IH].
Qed.

Lemma same_letter_toLowerCase s s' :
  Forall2 same_letter s s' -> toLowerCase s = toLowerCase s'.
Proof.
  induction 1 as [|x y s s' (_ & _ & E) _ IH]; simpl; [reflexivity|].
  now rewrite E, IH.
Qed.

Lemma same_letter_toUpperCase s s' :
  Forall2 same_letter s s' -> toUpperCase s = toUpperCase s'.
Proof.
  induction 1 as [|x y s s' Hxy _ IH]; simpl; [reflexivity|].
  now rewrite (same_letter_upper x y Hxy), IH.
Qed.

Lemma same_letter_titleCaseWord c c' run run' :
  same_letter c c' -> Forall2 same_letter run run' ->
  titleCaseWord (c :: run) = titleCaseWord (c' :: run').
Proof.
  intros Hc Hrun. rewrite !titleCaseWord_cons.
  assert (Hcls : Forall2 same_class (c :: run) (c' :: run')).
  { constructor; [now apply same_letter_same_class|].
    eapply Forall2_impl; [|exact Hrun]. apply same_letter_same_class. }
  rewrite (test_initialism_same_class _ _ Hcls).
  rewrite (same_letter_toUpperCase (c :: run) (c' :: run')) by now constructor.
  now rewrite (same_letter_upper c c' Hc), (same_letter_toLowerCase run run' Hrun).
Qed.

Lemma same_letter_toTitleCase_aux n : forall s s',
  (length s <= n)%nat -> Forall2 same_letter s s' ->
  toTitleCase s = toTitleCase s'.
Proof.
  unfold toTitleCase. induction n as [|n IH]; intros s s' Hlen H.
  - destruct H; [reflexivity | simpl in Hlen; lia].
  - destruct H as [|c c' s s' Hc Hs]; [reflexivity|]. simpl in Hlen.
    rewrite !replace_words_cons, (same_letter_isWordChar c c' Hc).
    destruct (isWordChar c') eqn:Ew.
    + rewrite (same_letter_titleCaseWord c c' _ _ Hc (same_letter_takeWhile s s' Hs)).
      f_equal. apply IH.
      * pose proof (dropWhile_length isNonSpace s). lia.
      * now apply same_letter_dropWhile.
    + pose proof (same_letter_isWordChar c c' Hc) as Ew'. rewrite Ew in Ew'.
      destruct Hc as (Hx & Hy & E).
      destruct (ascii_same_lower c c' Hx Hy E) as [->|[[H1 ->]|[H1 ->]]].
      * f_equal. apply IH; [lia | exact Hs].
      * exfalso. class_lia.
      * exfalso. class_lia.
Qed.

Lemma same_lower_Forall2 s : forall s',
  Forall (fun c => isAscii c = true) s -> Forall (fun c => isAscii c = true) s' ->
  toLowerCase s = toLowerCase s' -> Forall2 same_letter s s'.
Proof.
  induction s as [|x s IH]; intros [|y s'] Hs Hs' E; simpl in E; try discriminate.
  - constructor.
  - injection E as E1 E2. inversion Hs; inversion Hs'; subst.
    constructor; [now repeat split | now apply IH].
Qed.

Lemma toTitleCase_same_lower s s' :
  Forall (fun c => isAscii c = true) s -> Forall (fun c => isAscii c = true) s' ->
  toLowerCase s = toLowerCase s' -> toTitleCase s = toTitleCase s'.
Proof.
  intros Hs Hs' E. apply (same_letter_toTitleCase_aux (length s)); [lia|].
  now apply same_lower_Forall2.
Qed.

Lemma toLowerCase_titleCaseWord c run :
  toLowerCase (titleCaseWord (c :: run)) = toLowerCase (c :: run).
Proof.
  rewrite titleCaseWord_cons. destruct (test initialism (c :: run)).
  - unfold toLowerCase, toUpperCase. rewrite map_map. apply map_ext. apply lower_upper.
  - simpl. now rewrite lower_upper, toLowerCase_idem.
Qed.

Lemma toLowerCase_toTitleCase_aux n : forall s,
  (length s <= n)%nat -> toLowerCase (toTitleCase s) = toLowerCase s.
Proof.
  unfold toTitleCase. induction n as [|n IH]; intros s Hlen.
  - destruct s; [|simpl in Hlen; lia]. now rewrite replace_words_nil.
  - destruct s as [|c s]; [now rewrite replace_words_nil|]. simpl in Hlen.
    rewrite replace_words_cons. destruct (isWordChar c).
    + unfold toLowerCase at 1. rewrite map_app.
      fold (toLowerCase (titleCaseWord (c :: takeWhile isNonSpace s))).
      fold (toLowerCase (replace_words titleCaseWord (dropWhile isNonSpace s))).
      rewrite toLowerCase_titleCaseWord, IH.
      * unfold toLowerCase. rewrite <- map_app. simpl.
        now rewrite takeWhile_dropWhile.
      * pose proof (dropWhile_length isNonSpace s). lia.
    + simpl. f_equal. apply IH. lia.
Qed.

Lemma toLowerCase_toTitleCase s : toLowerCase (toTitleCase s) = toLowerCase s.
Proof. apply (toLowerCase_toTitleCase_aux (length s)). lia. Qed.

Lemma dedupKey_normalizeLabel raw : dedupKey (normalizeLabel raw) = dedupKey raw.
Proof.
  unfold dedupKey, normalizeLabel.
  now rewrite toLowerCase_toTitleCase, toLowerCase_trim, trim_idem.
Qed.

Lemma trim_ascii s :
  Forall (fun c => isAscii c = true) s -> Forall (fun c => isAscii c = true) (trim s).
Proof.
  intros H. unfold trim, trimEnd, trimStart.
  apply Forall_rev, Forall_dropWhile, Forall_rev, Forall_dropWhile. exact H.
Qed.

(** Basic Latin labels with the same key have the same normalized form. *)
Lemma normalizeLabel_same_key raw raw' :
  Forall (fun c => isAscii c = true) raw ->
  Forall (fun c => isAscii c = true) raw' ->
  dedupKey (normalizeLabel raw) = dedupKey (normalizeLabel raw') ->
  normalizeLabel raw = normalizeLabel raw'.
Proof.
  intros H H'. rewrite !dedupKey_normalizeLabel. unfold dedupKey, normalizeLabel.
  rewrite <- !toLowerCase_trim. intros E.
  apply toTitleCase_same_lower; [now apply trim_ascii | now apply trim_ascii | exact E].
Qed.

Lemma first_with_key (k : jsstring) (all : list jsstring) :
  In k (map dedupKey all) ->
  exists before m after,
    all = before ++ m :: after /\ dedupKey m = k /\
    Forall (fun m' => dedupKey m' <> k) before.
Proof.
  induction all as [|x all IH]; simpl; [tauto|].
  destruct (jsstring_eq_dec (dedupKey x) k) as [E|Hne].
  - intros _. exists [], x, all. repeat split; [exact E | constructor].
  - intros [E|Hin]; [contradiction|].
    destruct (IH Hin) as (b & m & a & -> & Em & Hb).
    exists (x :: b), m, a. repeat split; [exact Em | now constructor].
Qed.

(** On Basic Latin labels the element kept for a key is also the first
    label seen with this key: the normalized labels that share a key are the
    same string. *)
Lemma ascii_labels_keep_first_seen raws :
  Forall (Forall (fun c => isAscii c = true)) raws ->
  keepsFirstSeen (map normalizeLabel raws).
Proof.
  intros Hascii v Hv.
  apply uniqueMajors_last_seen in Hv as (b & m & a & E & -> & _).
  assert (Hm : In m (map normalizeLabel raws)).
  { rewrite E. apply in_or_app. right. now left. }
  destruct (first_with_key (dedupKey m) (map normalizeLabel raws))
    as (b0 & m0 & a0 & E0 & Ek & Hb0).
  { apply in_map. exact Hm. }
  assert (Hm0 : In m0 (map normalizeLabel raws)).
  { rewrite E0. apply in_or_app. right. now left. }
  apply in_map_iff in Hm as (r & <- & Hr).
  apply in_map_iff in Hm0 as (r0 & <- & Hr0).
  rewrite Forall_forall in Hascii.
  assert (Eq : normalizeLabel r0 = normalizeLabel r).
  { apply normalizeLabel_same_key; [now apply Hascii | now apply Hascii | exact Ek]. }
  exists b0, (normalizeLabel r0), a0. split; [exact E0|]. split; [now rewrite Eq|].
  now rewrite Eq.
Qed.

(* ===================================================================== *)
(** ** Facts: the shape of a run *)
(* ===================================================================== *)

(** The call of the [async] callback for one partner: the request it issues
    and the promise it hands back. *)
Lemma async_majorsOfPartner net signal institutionId i agreement :
  async (majorsOfPartner net signal institutionId i agreement) =
  (partnerRequest institutionId agreement,
   inl (match partnerFetch net signal institutionId i agreement with
        | Some (fulfilled majorsResp) => fulfilled (reportLabels majorsResp)
        | Some (rejected err) => rejected err
        | None => fulfilled []
        end)).
Proof.
  unfold majorsOfPartner, partnerRequest, partnerFetch, fetchParams.
  destruct (AgreementInstitution.id agreement) as [[|c id]|];
    destruct (AgreementInstitution.academicYearId agreement) as [[|d y]|];
    try reflexivity.
  simpl.
  destruct (settle signal (S i)
              (majorAgreements net i institutionId (c :: id) (d :: y)));
    reflexivity.
Qed.

Lemma fulfilledValues_cons p ps :
  fulfilledValues (p :: ps) =
  match p with fulfilled v => v | rejected _ => [] end ++ fulfilledValues ps.
Proof. reflexivity. Qed.

Lemma mapM_partners net signal institutionId agreements : forall i,
  exists promises,
    mapM_from i
      (fun i agreement =>
         async (majorsOfPartner net signal institutionId i agreement))
      agreements
    = (partnerRequests institutionId agreements, inl promises)
    /\ fulfilledValues promises
       = contributions net signal institutionId i agreements.
Proof.
  induction agreements as [|a rest IH]; intros i; simpl.
  - exists []. split; reflexivity.
  - destruct (IH (S i)) as (ps & E & Hv).
    rewrite async_majorsOfPartner, E. simpl.
    eexists. split.
    + rewrite app_nil_r. reflexivity.
    + rewrite fulfilledValues_cons, Hv. f_equal.
      unfold contribution.
      destruct (partnerFetch net signal institutionId i a) as [[v|e]|]; reflexivity.
Qed.

(** A run whose agreement list arrives. *)
Lemma run_fulfilled net institutionId schools signal data :
  settle signal 0 (institutionAgreements net institutionId) = fulfilled data ->
  getAndSetInstitutionAgreements net institutionId schools signal =
  ([Get (GetInstitutionAgreements institutionId);
    SetInstitutionsWithAgreements (map (resolveAgreement schools) data)]
     ++ partnerRequests institutionId (map (resolveAgreement schools) data)
     ++ [SetMajors
           (uniqueMajors
              (contributions net signal institutionId 0
                 (map (resolveAgreement schools) data)));
         SetSelectedMajor
           (defaultMajor
              (uniqueMajors
                 (contributions net signal institutionId 0
                    (map (resolveAgreement schools) data))))],
   inl tt).
Proof.
  intros Hs. unfold getAndSetInstitutionAgreements, api_get.
  destruct (mapM_partners net signal institutionId
              (map (resolveAgreement schools) data) 0) as (ps & E & Hv).
  simpl. rewrite Hs. simpl. rewrite E. simpl.
  rewrite Hv. do 5 f_equal.
  destruct (uniqueMajors _); reflexivity.
Qed.

(** A run whose agreement list is rejected: nothing but the request, and
    the log entry when the rejection is not a cancellation. *)
Lemma run_rejected net institutionId schools signal err :
  settle signal 0 (institutionAgreements net institutionId) = rejected err ->
  getAndSetInstitutionAgreements net institutionId schools signal =
  (Get (GetInstitutionAgreements institutionId)
     :: (if isCancel err then []
         else [ConsoleError (js "Fetch agreements failed:") err]),
   inl tt).
Proof.
  intros Hs. unfold getAndSetInstitutionAgreements, api_get.
  simpl. rewrite Hs. simpl. destruct (isCancel err); reflexivity.
Qed.

(* ===================================================================== *)
(** ** The label normalizer *)
(* ===================================================================== *)

(** [toUpperCase] is only ever given Basic Latin text by [titleCaseWord]:
    a word that matches the initialism pattern is made of letters and
    periods, and the first character of a match of [\w\S*] is a word
    character. *)
Lemma callback_upper_args_ascii c run :
  isWordChar c = true ->
  Forall (fun x => isAscii x = true) (charAt0 (c :: run)) /\
  (test initialism (c :: run) = true ->
   Forall (fun x => isAscii x = true) (c :: run)).
Proof.
  intros Hc. split.
  - simpl. constructor; [now apply word_ascii | constructor].
  - intros H. apply test_initialism in H
      as (letters & bare & period & _ & Hl & Hb & ->).
    apply Forall_app. split; [|apply Forall_app; split].
    + unfold letters_with_periods. induction Hl as [|l ls Hl _ IH]; simpl.
      * constructor.
      * constructor; [now apply letter_ascii|]. constructor; [reflexivity | exact IH].
    + eapply Forall_impl; [|exact Hb]. intros x. apply letter_ascii.
    + destruct period; repeat constructor.
Qed.

Lemma latin1_kelvinFree s : latin1Text s -> kelvinFree s.
Proof.
  apply Forall_impl. intros c H ->. discriminate H.
Qed.

(** C4, as amended.  The normalizer is idempotent on every string that does
    not contain U+212A KELVIN SIGN.  The two case mappings are built-ins of
    the language; the statement is made for every [lower] and [upper] of
    which the following holds, as it does of [String.prototype.toLowerCase]
    and [toUpperCase]: lower-casing twice is lower-casing once; the lower-case
    form of text without white space has no white space; on Basic Latin text
    the two mappings are the rows for Basic Latin ("A" to "Z" and "a" to
    "z" exchanged, the rest unchanged); and text without the Kelvin sign
    whose lower-case form is Basic Latin is itself Basic Latin (U+212A is
    the one character outside Basic Latin with a Basic Latin lower-case
    form).  On text of the blocks Basic Latin and Latin-1 Supplement, where
    the embedded rows are the built-in, [toTitleCase] is idempotent without
    any assumption. *)
Theorem toTitleCase_idempotent_without_kelvin (lower upper : jsstring -> jsstring)
  (s : jsstring) :
  (forall t, lower (lower t) = lower t) ->
  (forall t, nonSpaceText t -> nonSpaceText (lower t)) ->
  (forall t, basicLatinText t ->
             lower t = toLowerCase t /\ upper t = toUpperCase t) ->
  (forall t, kelvinFree t -> basicLatinText (lower t) -> basicLatinText t) ->
  kelvinFree s ->
  toTitleCaseWith lower upper (toTitleCaseWith lower upper s)
  = toTitleCaseWith lower upper s
  /\ (forall t, toTitleCase t = toTitleCaseWith toLowerCase toUpperCase t)
  /\ (forall t, latin1Text t -> toTitleCase (toTitleCase t) = toTitleCase t).
Proof.
  intros H1 H2 H3 H4 Hs. split; [now apply toTitleCaseWith_idem|].
  split; [reflexivity|].
  intros t Ht. apply (toTitleCaseWith_idem toLowerCase toUpperCase).
  - apply toLowerCase_idem.
  - apply toLowerCase_nonSpace.
  - intros u _. split; reflexivity.
  - apply toLowerCase_only_kelvin.
  - now apply latin1_kelvinFree.
Qed.

Lemma toTitleCase_idempotent_without_kelvin_witness :
  toTitleCase (toTitleCase (js "b.s. in computer SCIENCE"))
  = toTitleCase (js "b.s. in computer SCIENCE").
Proof.
  refine (proj1 (toTitleCase_idempotent_without_kelvin toLowerCase toUpperCase
                   (js "b.s. in computer SCIENCE") _ _ _ _ _)).
  - apply toLowerCase_idem.
  - apply toLowerCase_nonSpace.
  - intros t _. split; reflexivity.
  - apply toLowerCase_only_kelvin.
  - unfold kelvinFree. simpl. repeat constructor; discriminate.
Defined.

(** C4, as stated, fails on "a.K." written with the Kelvin sign: the token
    is no initialism, so it becomes "A.k." with an ASCII k, which is one and
    becomes "A.K." in the second pass. *)
Lemma toTitleCase_not_idempotent_on_kelvin :
  toTitleCase kelvinInitialism = js "A.k." /\
  toTitleCase (toTitleCase kelvinInitialism) = js "A.K." /\
  toTitleCase (toTitleCase kelvinInitialism) <> toTitleCase kelvinInitialism.
Proof. repeat split. discriminate. Qed.

(** C7.  In a string made of a gap without word character, a token (a word
    character followed by a run of non-space code units, up to white space or
    the end) and a rest, the normalizer copies the gap, emits the token in
    upper case when it matches the initialism pattern and with its first
    character in upper case and the remainder in lower case otherwise, and
    goes on with the rest: this for whatever the built-ins [toLowerCase] and
    [toUpperCase] are, [toTitleCase] being the function at the embedded
    rows.  The pattern is matched exactly by the words made of two or more
    letters each followed by a period, an optional bare letter and an
    optional period.  On a Basic Latin code unit lower-casing adds 32 to
    "A".."Z" and upper-casing takes 32 from "a".."z", and they change
    nothing else.  "b.s. in computer science" becomes
    "B.S. In Computer Science", "COMPUTER sCIENCE, b.A." becomes
    "Computer Science, B.A.", and "école", whose first letter is no word
    character, becomes "éCole". *)
Theorem toTitleCase_token_rule (lower upper : jsstring -> jsstring)
  (gap : jsstring) (c : code_unit) (run rest : jsstring) :
  Forall (fun x => isWordChar x = false) gap ->
  isWordChar c = true ->
  Forall (fun x => isWhiteSpace x = false) run ->
  endOfToken rest = true ->
  toTitleCaseWith lower upper (gap ++ c :: run ++ rest)
  = gap
    ++ (if test initialism (c :: run)
        then upper (c :: run)
        else upper [c] ++ lower run)
    ++ toTitleCaseWith lower upper rest
  /\ (test initialism (c :: run) = true <-> initialism_shape (c :: run))
  /\ toTitleCaseWith lower upper gap = gap
  /\ (forall s, toTitleCase s = toTitleCaseWith toLowerCase toUpperCase s)
  /\ (forall x, isAscii x = true ->
        toLowerCase [x] = [if isUpperAZ x then x + 32 else x]
        /\ toUpperCase [x] = [if isLowerAZ x then x - 32 else x])
  /\ toTitleCase (js "b.s. in computer science") = js "B.S. In Computer Science"
  /\ toTitleCase (js "COMPUTER sCIENCE, b.A.") = js "Computer Science, B.A."
  /\ toTitleCase ecoleLower = 0xE9 :: js "Cole".
Proof.
  intros Hgap Hc Hrun Hrest.
  split; [|split; [|split; [|split; [|split; [|split; [|split]]]]]];
    try reflexivity.
  - unfold toTitleCaseWith.
    rewrite replace_words_gap by exact Hgap.
    rewrite replace_words_token by assumption.
    reflexivity.
  - apply test_initialism.
  - unfold toTitleCaseWith. rewrite <- (app_nil_r gap) at 1.
    rewrite replace_words_gap by exact Hgap.
    rewrite replace_words_nil. apply app_nil_r.
  - intros x Hx. split; [|reflexivity].
    simpl. unfold toLowerCase_unit.
    destruct (isUpperAZ x) eqn:E1; [reflexivity|].
    destruct (isLatin1Upper x) eqn:E2; [exfalso; class_lia|].
    destruct (N.eqb_spec x KELVIN_SIGN); [exfalso; class_lia|].
    destruct (N.eqb_spec x ANGSTROM_SIGN); [exfalso; class_lia|].
    reflexivity.
Qed.

Lemma toTitleCase_token_rule_witness :
  toTitleCase (js "(bACHELOR) OF") = js "(Bachelor) Of".
Proof.
  refine (proj1 (toTitleCase_token_rule toLowerCase toUpperCase
                   (js "(") 0x62 (js "ACHELOR)") (js " OF") _ _ _ _)).
  - simpl. repeat constructor.
  - reflexivity.
  - simpl. repeat constructor.
  - reflexivity.
Defined.
(* ===================================================================== *)
(** ** Deduplication and ordering *)
(* ===================================================================== *)

(** C1, as amended.  The element kept for a key (the lower-cased, trimmed
    form of a label) is the trimmed text of the LAST label of the input
    that has this key, and the result has one element for each key of the
    input: this for whatever the built-in [toLowerCase] is, [uniqueMajors]
    being the function at the embedded rows.  Deduplication is
    case-insensitive and trim-insensitive: when lower-casing and trimming
    can be done in either order, as with the built-in, no two elements of
    the result have the same lower-cased, trimmed form, and every label of
    the input is represented by an element with its form.  When the labels
    are the normalized forms of Basic Latin text, the labels of one form
    are the same string, and the element kept is also the first one seen.
    For the raw labels "Computer Science", "computer science" and
    "COMPUTER SCIENCE" the aggregation yields the one entry
    "Computer Science". *)
Theorem dedup_keeps_last_seen (lower : jsstring -> jsstring)
  (all : list jsstring) :
  (forall v, In v (uniqueMajorsWith lower all) <->
     exists before m after,
       all = before ++ m :: after /\ v = trim m /\
       Forall (fun m' => dedupKeyWith lower m' <> dedupKeyWith lower m) after)
  /\ length (uniqueMajorsWith lower all) = distinctKeys lower all
  /\ ((forall s, lower (trim s) = trim (lower s)) ->
      NoDup (map (dedupKeyWith lower) (uniqueMajorsWith lower all))
      /\ forall m, In m all ->
           In (dedupKeyWith lower m)
              (map (dedupKeyWith lower) (uniqueMajorsWith lower all)))
  /\ uniqueMajors all = uniqueMajorsWith toLowerCase all
  /\ (forall raws,
        Forall (Forall (fun c => isAscii c = true)) raws ->
        keepsFirstSeen (map normalizeLabel raws))
  /\ uniqueMajors
       (map normalizeLabel
          [js "Computer Science"; js "computer science"; js "COMPUTER SCIENCE"])
     = [js "Computer Science"].
Proof.
  split; [apply uniqueMajorsWith_last_seen|].
  split; [apply uniqueMajorsWith_length|].
  split.
  { intros Ht. split.
    - now apply uniqueMajorsWith_keys_NoDup.
    - intros m. now apply uniqueMajorsWith_represents. }
  split; [reflexivity|].
  split; [apply ascii_labels_keep_first_seen|].
  reflexivity.
Qed.

Lemma dedup_keeps_last_seen_witness :
  In (js "Art") (uniqueMajors [js "art"; js " Art "; js "Biology"])
  /\ NoDup (map dedupKey (uniqueMajors [js "art"; js " Art "; js "Biology"])).
Proof.
  split.
  - apply (proj1 (dedup_keeps_last_seen toLowerCase
                    [js "art"; js " Art "; js "Biology"])).
    exists [js "art"], (js " Art "), [js "Biology"].
    split; [reflexivity|]. split; [reflexivity|].
    constructor; [discriminate | constructor].
  - apply (proj1 (proj2 (proj2 (dedup_keeps_last_seen toLowerCase
                                  [js "art"; js " Art "; js "Biology"])))).
    apply toLowerCase_trim.
Defined.

(** C1, as stated, fails on the normalized labels of "école" and "École":
    both have the form "école", the result keeps "ÉCole", the label seen
    last, and not "éCole", the label seen first. *)
Lemma dedup_does_not_keep_first_seen :
  map normalizeLabel [ecoleLower; ecoleUpper]
  = [0xE9 :: js "Cole"; 0xC9 :: js "Cole"]
  /\ uniqueMajors (map normalizeLabel [ecoleLower; ecoleUpper])
     = [0xC9 :: js "Cole"]
  /\ ~ keepsFirstSeen (map normalizeLabel [ecoleLower; ecoleUpper]).
Proof.
  split; [reflexivity|]. split; [reflexivity|].
  intros H. destruct (H (0xC9 :: js "Cole")) as (before & m & after & E & Ev & Hb).
  - left. reflexivity.
  - destruct before as [|b1 [|b2 before]].
    + injection E as <- _. discriminate Ev.
    + injection E as <- <- _. inversion Hb as [|? ? Hne _]; subst.
      apply Hne. reflexivity.
    + injection E as _ _ E. now destruct before.
Qed.

Lemma jsstring_le_cons x a y b :
  jsstring_le (x :: a) (y :: b) <-> x < y \/ (x = y /\ jsstring_le a b).
Proof.
  unfold jsstring_le. simpl.
  now rewrite orb_true_iff, andb_true_iff, N.ltb_lt, N.eqb_eq.
Qed.

(** C8.  When the agreement list arrives, the run ends by setting the
    majors to the deduplicated labels it has collected from the partners,
    sorted in ascending code-unit order (the order of [sort()] without
    comparator: code unit by code unit, a proper prefix first; no locale is
    involved), and the selected major to the first element of that sequence,
    or to the empty string when there is none.  The sequence set is the one
    sorted rearrangement of the deduplicated labels; an upper-case letter
    sorts before every lower-case letter ("Zoology" before "biology").  A
    run that collects "Zoology", "Biology", "Art" sets the majors "Art",
    "Biology", "Zoology" and selects "Art"; a run that collects nothing sets
    no majors and selects the empty string. *)
Theorem majors_sorted_and_default_selected (net : network)
  (institutionId : jsstring) (schools : list Institution.t)
  (signal : option AbortSignal) (data : list AgreementInstitution.t) :
  settle signal 0 (institutionAgreements net institutionId) = fulfilled data ->
  getAndSetInstitutionAgreements net institutionId schools signal
  = ([Get (GetInstitutionAgreements institutionId);
      SetInstitutionsWithAgreements (map (resolveAgreement schools) data)]
       ++ partnerRequests institutionId (map (resolveAgreement schools) data)
       ++ [SetMajors
             (uniqueMajors (collected net signal institutionId schools data));
           SetSelectedMajor
             (defaultMajor
                (uniqueMajors (collected net signal institutionId schools data)))],
     inl tt)
  /\ StronglySorted jsstring_le
       (uniqueMajors (collected net signal institutionId schools data))
  /\ Permutation
       (uniqueMajors (collected net signal institutionId schools data))
       (dedupedValues (collected net signal institutionId schools data))
  /\ (forall l,
        StronglySorted jsstring_le l ->
        Permutation l
          (dedupedValues (collected net signal institutionId schools data)) ->
        l = uniqueMajors (collected net signal institutionId schools data))
  /\ (uniqueMajors (collected net signal institutionId schools data) = [] ->
      defaultMajor
        (uniqueMajors (collected net signal institutionId schools data))
      = js "")
  /\ (forall m rest,
        uniqueMajors (collected net signal institutionId schools data)
        = m :: rest ->
        defaultMajor
          (uniqueMajors (collected net signal institutionId schools data))
        = m
        /\ Forall (jsstring_le m) rest)
  /\ ((forall b, jsstring_le [] b)
      /\ (forall x a, ~ jsstring_le (x :: a) [])
      /\ (forall x a y b,
            jsstring_le (x :: a) (y :: b) <->
            x < y \/ (x = y /\ jsstring_le a b)))
  /\ uniqueMajors [js "biology"; js "Zoology"; js "Art"]
     = [js "Art"; js "Zoology"; js "biology"]
  /\ getAndSetInstitutionAgreements
       (cuestaAnswers ["Zoology"; "Biology"; "Art"]%string) (js "11")
       threeColleges None
     = ([Get (GetInstitutionAgreements (js "11"));
         SetInstitutionsWithAgreements [cuestaResolved];
         Get (GetMajorAgreements (js "11") (js "2") (js "75"));
         SetMajors [js "Art"; js "Biology"; js "Zoology"];
         SetSelectedMajor (js "Art")],
        inl tt)
  /\ getAndSetInstitutionAgreements (cuestaAnswers []) (js "11")
       threeColleges None
     = ([Get (GetInstitutionAgreements (js "11"));
         SetInstitutionsWithAgreements [cuestaResolved];
         Get (GetMajorAgreements (js "11") (js "2") (js "75"));
         SetMajors [];
         SetSelectedMajor (js "")],
        inl tt).
Proof.
  intros Hs. unfold collected, dedupedValues.
  split; [exact (run_fulfilled net institutionId schools signal data Hs)|].
  split; [apply sort_sorted|].
  split; [apply sort_perm|].
  split.
  { intros l Hl Hp. apply sorted_perm_unique.
    - exact Hl.
    - apply sort_sorted.
    - rewrite Hp. symmetry. apply sort_perm. }
  split; [now intros ->|].
  split.
  { intros m rest E. rewrite E. split; [reflexivity|].
    pose proof (sort_sorted
                  (values (Map_of_entries
                             (majorEntries
                                (contributions net signal institutionId 0
                                   (map (resolveAgreement schools) data))))))
      as H.
    unfold uniqueMajors in E. fold (majorEntries
      (contributions net signal institutionId 0
         (map (resolveAgreement schools) data))) in E.
    rewrite E in H. now inversion H. }
  split.
  { split; [reflexivity|]. split; [intros x a H; discriminate H|].
    apply jsstring_le_cons. }
  split; [reflexivity|]. split; reflexivity.
Qed.

Lemma majors_sorted_and_default_selected_witness :
  getAndSetInstitutionAgreements everyPartnerAnswers (js "11") threeColleges None
  = ([Get (GetInstitutionAgreements (js "11"));
      SetInstitutionsWithAgreements (map (resolveAgreement threeColleges) threePartners)]
       ++ partnerRequests (js "11") (map (resolveAgreement threeColleges) threePartners)
       ++ [SetMajors
             (uniqueMajors
                (collected everyPartnerAnswers None (js "11") threeColleges
                   threePartners));
           SetSelectedMajor
             (defaultMajor
                (uniqueMajors
                   (collected everyPartnerAnswers None (js "11") threeColleges
                      threePartners)))],
     inl tt)
  /\ uniqueMajors
       (collected everyPartnerAnswers None (js "11") threeColleges threePartners)
     = [js "Art History"; js "B.S. In Computer Science"; js "Chemistry";
        js "Physics"].
Proof.
  split; [|reflexivity].
  apply (proj1 (majors_sorted_and_default_selected everyPartnerAnswers (js "11")
                  threeColleges None threePartners eq_refl)).
Defined.

(* ===================================================================== *)
(** ** The agreement resolver *)
(* ===================================================================== *)

Lemma at_last_snoc {A : Type} (l : list A) (x : A) : at_last (l ++ [x]) = Some x.
Proof.
  induction l as [|y l IH]; simpl; [reflexivity|].
  rewrite IH. now destruct l.
Qed.

Lemma at_last_None {A : Type} (l : list A) : at_last l = None <-> l = [].
Proof.
  split; [|now intros ->].
  destruct l as [|x l] using rev_ind; [reflexivity|].
  now rewrite at_last_snoc.
Qed.

Lemma opt_at_last_None {A : Type} (arr : option (list A)) :
  opt_at_last arr = None <-> arr = None \/ arr = Some [].
Proof.
  destruct arr as [l|]; simpl.
  - rewrite at_last_None. split.
    + intros ->. now right.
    + intros [H|H]; congruence.
  - split; auto.
Qed.

Lemma startsWith_empty s : startsWith s [] = true.
Proof. now destruct s. Qed.

Lemma includes_empty s : includes s [] = true.
Proof. destruct s; simpl; now rewrite ?startsWith_empty. Qed.

Lemma some_includes_empty inst :
  existsb (fun n => includes (Name.name n) (js "")) (Institution.names inst)
  = hasDisplayName inst.
Proof.
  unfold hasDisplayName. destruct (Institution.names inst) as [|n ns]; simpl.
  - reflexivity.
  - change (js "") with (@nil code_unit). now rewrite includes_empty.
Qed.

Lemma resolveId_empty schools :
  resolveId schools (js "")
  = option_map Institution.id (find hasDisplayName schools).
Proof.
  unfold resolveId. f_equal.
  induction schools as [|inst schools IH]; simpl; [reflexivity|].
  now rewrite some_includes_empty, IH.
Qed.

(** C5.  The academic year of a resolved agreement is the last element of
    [sendingYearIds] when that list is present and not empty; otherwise it
    is the last element of [receivingYearIds] when that one is present and
    not empty; it is absent exactly when neither list yields a last
    element. *)
Theorem academicYearId_is_last_year (schools : list Institution.t)
  (school : AgreementInstitution.t) :
  let year := AgreementInstitution.academicYearId (resolveAgreement schools school) in
  (forall ids y,
      AgreementInstitution.sendingYearIds school = Some (ids ++ [y]) ->
      year = Some y)
  /\ (AgreementInstitution.sendingYearIds school = None \/
      AgreementInstitution.sendingYearIds school = Some [] ->
      forall ids y,
        AgreementInstitution.receivingYearIds school = Some (ids ++ [y]) ->
        year = Some y)
  /\ (year = None <->
      (AgreementInstitution.sendingYearIds school = None \/
       AgreementInstitution.sendingYearIds school = Some []) /\
      (AgreementInstitution.receivingYearIds school = None \/
       AgreementInstitution.receivingYearIds school = Some [])).
Proof.
  simpl. unfold nullish. split; [|split; [|split]].
  - intros ids y ->. simpl. now rewrite at_last_snoc.
  - intros Hs ids y ->. apply opt_at_last_None in Hs. rewrite Hs. simpl.
    apply at_last_snoc.
  - destruct (opt_at_last (AgreementInstitution.sendingYearIds school)) eqn:E;
      [discriminate|]. intros Hr. split; now apply opt_at_last_None.
  - intros [Hs Hr]. apply opt_at_last_None in Hs, Hr. now rewrite Hs, Hr.
Qed.

Lemma academicYearId_is_last_year_witness :
  AgreementInstitution.academicYearId
    (resolveAgreement threeColleges
       (rawAgreement (Some "De Anza College"%string) (Some [])
          (Some ["73"; "74"]%string)))
  = Some (js "74").
Proof.
  apply (proj1 (proj2 (academicYearId_is_last_year threeColleges
                         (rawAgreement (Some "De Anza College"%string) (Some [])
                            (Some ["73"; "74"]%string))))
           (or_intror eq_refl) [js "73"] (js "74")).
  reflexivity.
Defined.

(** C10, as amended.  For a record without [institutionName] the resolver
    searches the empty string, which every display name contains, so the
    resolved id is the id of the first institution of the catalog that has at
    least one display name: the first of the catalog when that one has a
    display name, and none exactly when no institution has one.  When the
    institution found has an id that is not the empty string, the entry gets
    no request only for want of an academic year. *)
Theorem absent_name_resolves_to_first_named (schools : list Institution.t)
  (school : AgreementInstitution.t) :
  AgreementInstitution.institutionName school = None ->
  AgreementInstitution.id (resolveAgreement schools school)
  = option_map Institution.id (find hasDisplayName schools)
  /\ (forall inst rest,
        schools = inst :: rest -> hasDisplayName inst = true ->
        AgreementInstitution.id (resolveAgreement schools school)
        = Some (Institution.id inst))
  /\ (AgreementInstitution.id (resolveAgreement schools school) = None <->
      Forall (fun inst => Institution.names inst = []) schools)
  /\ (forall inst,
        find hasDisplayName schools = Some inst ->
        Institution.id inst <> [] ->
        (fetchParams (resolveAgreement schools school) = None <->
         falsy (AgreementInstitution.academicYearId
                  (resolveAgreement schools school)) = true)).
Proof.
  intros Hname.
  assert (Hid : AgreementInstitution.id (resolveAgreement schools school)
                = option_map Institution.id (find hasDisplayName schools)).
  { simpl. rewrite Hname. simpl.
    change (@nil code_unit) with (js ""). apply resolveId_empty. }
  split; [exact Hid|]. split; [|split].
  - intros inst rest -> H. rewrite Hid. simpl. now rewrite H.
  - rewrite Hid. clear Hid.
    induction schools as [|inst schools IH]; simpl.
    + split; [constructor | reflexivity].
    + destruct (hasDisplayName inst) eqn:E; simpl.
      * split; [discriminate|]. intros H. inversion H as [|? ? Hn _]; subst.
        unfold hasDisplayName in E. now rewrite Hn in E.
      * rewrite IH. split.
        -- intros H. constructor; [|exact H].
           unfold hasDisplayName in E.
           now destruct (Institution.names inst).
        -- intros H. now inversion H.
  - intros inst Hfind Hne. rewrite Hfind in Hid.
    remember (resolveAgreement schools school) as agreement eqn:Ea. clear Ea.
    unfold fetchParams. rewrite Hid. simpl.
    destruct (Institution.id inst) as [|c id]; [congruence|].
    destruct (AgreementInstitution.academicYearId agreement) as [[|d year]|];
      simpl; split; congruence.
Qed.

Lemma absent_name_resolves_to_first_named_witness :
  AgreementInstitution.id (resolveAgreement threeColleges unnamedPartner)
  = option_map Institution.id (find hasDisplayName threeColleges).
Proof.
  apply (absent_name_resolves_to_first_named threeColleges unnamedPartner).
  reflexivity.
Defined.

(** C10, as stated, fails on a catalog whose first institution has an
    empty [names] array: the record without name resolves to the second
    institution, and to nothing when no institution has a name. *)
Lemma absent_name_not_first_of_catalog :
  AgreementInstitution.institutionName unnamedPartner = None
  /\ catalogStartingNameless <> []
  /\ AgreementInstitution.id (resolveAgreement catalogStartingNameless unnamedPartner)
     = Some (js "2")
  /\ AgreementInstitution.id (resolveAgreement catalogStartingNameless unnamedPartner)
     <> option_map Institution.id (hd_error catalogStartingNameless)
  /\ AgreementInstitution.id
       (resolveAgreement [namelessInstitution "1"] unnamedPartner) = None.
Proof. repeat split; discriminate. Qed.

(* ===================================================================== *)
(** ** The major aggregator: requests, failures and cancellation *)
(* ===================================================================== *)

Lemma fst_async {A : Type} (m : io A) : fst (async m) = fst m.
Proof. destruct m as [t [a|e]]; reflexivity. Qed.

Lemma majorsOfPartner_requests net signal institutionId i agreement :
  fst (majorsOfPartner net signal institutionId i agreement)
  = partnerRequest institutionId agreement.
Proof. now rewrite <- fst_async, async_majorsOfPartner. Qed.

Lemma partnerRequests_are_gets institutionId agreements :
  filter isGet (partnerRequests institutionId agreements)
  = partnerRequests institutionId agreements.
Proof.
  induction agreements as [|a rest IH]; simpl; [reflexivity|].
  rewrite filter_app, IH. f_equal.
  unfold partnerRequest. now destruct (fetchParams a) as [[id y]|].
Qed.

Lemma partnerRequests_no_log institutionId agreements :
  filter isConsoleError (partnerRequests institutionId agreements) = [].
Proof.
  induction agreements as [|a rest IH]; simpl; [reflexivity|].
  rewrite filter_app, IH.
  unfold partnerRequest. now destruct (fetchParams a) as [[id y]|].
Qed.

Lemma run_never_throws net institutionId schools signal :
  snd (getAndSetInstitutionAgreements net institutionId schools signal) = inl tt.
Proof.
  destruct (settle signal 0 (institutionAgreements net institutionId))
    as [data|err] eqn:E.
  - now rewrite (run_fulfilled net institutionId schools signal data E).
  - now rewrite (run_rejected net institutionId schools signal err E).
Qed.

(** An abort while the agreement list is in flight: the run issued that one
    request and does nothing else; it sets no state and logs nothing. *)
Lemma abort_during_list_changes_nothing net institutionId schools aborted :
  aborted 0%nat = true ->
  getAndSetInstitutionAgreements net institutionId schools (Some aborted)
  = ([Get (GetInstitutionAgreements institutionId)], inl tt)
  /\ run_on initialState
       (getAndSetInstitutionAgreements net institutionId schools (Some aborted))
     = initialState.
Proof.
  intros H.
  assert (E : getAndSetInstitutionAgreements net institutionId schools (Some aborted)
              = ([Get (GetInstitutionAgreements institutionId)], inl tt)).
  { apply (run_rejected net institutionId schools (Some aborted) CanceledError).
    unfold settle. now rewrite H. }
  split; [exact E|]. now rewrite E.
Qed.

(** C2.  No exception leaves the function, whatever the requests do.  When
    the agreement list arrives, the request of every partner that has one is
    issued, whatever happens to the others, and the majors are set to the
    deduplicated, sorted contributions of the partners: the call for a
    partner never throws, its promise is fulfilled with the labels of the
    answer or rejected with the error of the fetch, and a rejected one
    contributes nothing.  With two of three partner fetches rejected and
    the third answering "Physics", the majors are set to "Physics". *)
Theorem partial_failure_isolated (net : network) (institutionId : jsstring)
  (schools : list Institution.t) (signal : option AbortSignal) :
  snd (getAndSetInstitutionAgreements net institutionId schools signal) = inl tt
  /\ (forall data,
        settle signal 0 (institutionAgreements net institutionId) = fulfilled data ->
        getAndSetInstitutionAgreements net institutionId schools signal
        = ([Get (GetInstitutionAgreements institutionId);
            SetInstitutionsWithAgreements (map (resolveAgreement schools) data)]
             ++ partnerRequests institutionId (map (resolveAgreement schools) data)
             ++ [SetMajors
                   (uniqueMajors
                      (contributions net signal institutionId 0
                         (map (resolveAgreement schools) data)));
                 SetSelectedMajor
                   (defaultMajor
                      (uniqueMajors
                         (contributions net signal institutionId 0
                            (map (resolveAgreement schools) data))))],
           inl tt))
  /\ (forall i agreement,
        exists promise,
          async (majorsOfPartner net signal institutionId i agreement)
          = (partnerRequest institutionId agreement, inl promise)
          /\ fulfilledValues [promise]
             = contribution net signal institutionId i agreement
          /\ (forall err,
                partnerFetch net signal institutionId i agreement
                = Some (rejected err) ->
                promise = rejected err /\ fulfilledValues [promise] = [])
          /\ (forall majorsResp,
                partnerFetch net signal institutionId i agreement
                = Some (fulfilled majorsResp) ->
                promise = fulfilled (reportLabels majorsResp)))
  /\ getAndSetInstitutionAgreements onlyThirdAnswers (js "11") threeColleges None
     = ([Get (GetInstitutionAgreements (js "11"));
         SetInstitutionsWithAgreements
           (map (resolveAgreement threeColleges) threePartners);
         Get (GetMajorAgreements (js "11") (js "1") (js "75"));
         Get (GetMajorAgreements (js "11") (js "2") (js "75"));
         Get (GetMajorAgreements (js "11") (js "3") (js "74"));
         SetMajors [js "Physics"];
         SetSelectedMajor (js "Physics")],
        inl tt).
Proof.
  split; [apply run_never_throws|].
  split; [apply run_fulfilled|].
  split; [|reflexivity].
  intros i agreement. rewrite async_majorsOfPartner. eexists. split; [reflexivity|].
  unfold contribution.
  destruct (partnerFetch net signal institutionId i agreement) as [[resp|e]|];
    simpl; rewrite ?app_nil_r; repeat split; congruence.
Qed.

Lemma partial_failure_isolated_witness :
  exists unique,
    getAndSetInstitutionAgreements onlyThirdAnswers (js "11") threeColleges None
    = ([Get (GetInstitutionAgreements (js "11"));
        SetInstitutionsWithAgreements
          (map (resolveAgreement threeColleges) threePartners)]
         ++ partnerRequests (js "11")
              (map (resolveAgreement threeColleges) threePartners)
         ++ [SetMajors unique; SetSelectedMajor (defaultMajor unique)],
       inl tt).
Proof.
  eexists.
  apply (proj1 (proj2 (partial_failure_isolated onlyThirdAnswers (js "11")
                         threeColleges None)) threePartners).
  reflexivity.
Defined.

(** C3, on the code.  The signal is aborted when the first partner has
    answered "Physics" and the requests for the two others are in flight:
    these two are rejected with the cancellation error, and the run then
    sets the majors to "Physics" and the selected major to "Physics".  An
    abort while the agreement list is in flight, on the same inputs, sets
    nothing. *)
Theorem abort_during_major_fetches_still_sets_majors :
  partnerFetch everyPartnerAnswers (Some abortedAfterFirstPartner) (js "11") 1
    (resolveAgreement threeColleges
       (rawAgreement (Some "Cuesta College"%string) (Some ["75"%string]) None))
  = Some (rejected CanceledError)
  /\ getAndSetInstitutionAgreements everyPartnerAnswers (js "11") threeColleges
       (Some abortedAfterFirstPartner)
     = ([Get (GetInstitutionAgreements (js "11"));
         SetInstitutionsWithAgreements
           (map (resolveAgreement threeColleges) threePartners);
         Get (GetMajorAgreements (js "11") (js "1") (js "75"));
         Get (GetMajorAgreements (js "11") (js "2") (js "75"));
         Get (GetMajorAgreements (js "11") (js "3") (js "74"));
         SetMajors [js "Physics"];
         SetSelectedMajor (js "Physics")],
        inl tt)
  /\ majors (run_on initialState
               (getAndSetInstitutionAgreements everyPartnerAnswers (js "11")
                  threeColleges (Some abortedAfterFirstPartner)))
     = [js "Physics"]
  /\ ~ abortLeavesMajorsAlone everyPartnerAnswers (js "11") threeColleges
         (Some abortedAfterFirstPartner)
  /\ getAndSetInstitutionAgreements everyPartnerAnswers (js "11") threeColleges
       (Some abortedDuringList)
     = ([Get (GetInstitutionAgreements (js "11"))], inl tt).
Proof.
  split; [reflexivity|]. split; [reflexivity|]. split; [reflexivity|].
  split; [|reflexivity].
  intros H.
  assert (E : filter isMajorsUpdate
                (fst (getAndSetInstitutionAgreements everyPartnerAnswers (js "11")
                        threeColleges (Some abortedAfterFirstPartner))) = []).
  { apply H. right.
    exists threePartners, 1%nat,
      (resolveAgreement threeColleges
         (rawAgreement (Some "Cuesta College"%string) (Some ["75"%string]) None)).
    repeat split. }
  discriminate E.
Qed.

(** C6.  For an agreement without resolved id or without academic year the
    callback issues no request, does not throw and returns no major.  Every
    request the callback issues is for an agreement that has both, and is the
    only one for it; an agreement whose id and year are both present and not
    empty gets exactly one request, and the guard [!id || !academicYearId]
    also stops an id or a year that is the empty string.  In a run whose agreement list arrives,
    the requests are that for the list and then those of the partners, in
    the order of the list. *)
Theorem missing_data_issues_no_fetch (net : network) (signal : option AbortSignal)
  (institutionId : jsstring) (i : nat) (agreement : AgreementInstitution.t) :
  (AgreementInstitution.id agreement = None \/
   AgreementInstitution.academicYearId agreement = None ->
   majorsOfPartner net signal institutionId i agreement = ([], inl [])
   /\ contribution net signal institutionId i agreement = [])
  /\ (forall e,
        In e (fst (majorsOfPartner net signal institutionId i agreement)) ->
        exists id year,
          AgreementInstitution.id agreement = Some id
          /\ AgreementInstitution.academicYearId agreement = Some year
          /\ fst (majorsOfPartner net signal institutionId i agreement)
             = [Get (GetMajorAgreements institutionId id year)])
  /\ (forall c id d year,
        AgreementInstitution.id agreement = Some (c :: id) ->
        AgreementInstitution.academicYearId agreement = Some (d :: year) ->
        fst (majorsOfPartner net signal institutionId i agreement)
        = [Get (GetMajorAgreements institutionId (c :: id) (d :: year))])
  /\ (falsy (AgreementInstitution.id agreement)
      || falsy (AgreementInstitution.academicYearId agreement) = true ->
      majorsOfPartner net signal institutionId i agreement = ([], inl []))
  /\ (forall schools data,
        settle signal 0 (institutionAgreements net institutionId) = fulfilled data ->
        filter isGet
          (fst (getAndSetInstitutionAgreements net institutionId schools signal))
        = Get (GetInstitutionAgreements institutionId)
            :: partnerRequests institutionId (map (resolveAgreement schools) data)).
Proof.
  split; [|split; [|split; [|split]]].
  - intros H. unfold majorsOfPartner, contribution, partnerFetch, fetchParams.
    destruct H as [-> | ->]; simpl.
    + now split.
    + destruct (AgreementInstitution.id agreement) as [[|c id]|]; now split.
  - intros e. rewrite majorsOfPartner_requests.
    unfold partnerRequest, fetchParams.
    destruct (AgreementInstitution.id agreement) as [[|c id]|];
      destruct (AgreementInstitution.academicYearId agreement) as [[|d y]|];
      simpl; try tauto.
    intros _. now exists (c :: id), (d :: y).
  - intros c id d year Hid Hy. rewrite majorsOfPartner_requests.
    unfold partnerRequest, fetchParams. now rewrite Hid, Hy.
  - intros H. unfold majorsOfPartner. now rewrite H.
  - intros schools data Hs.
    rewrite (run_fulfilled net institutionId schools signal data Hs).
    simpl. rewrite filter_app, partnerRequests_are_gets. simpl.
    now rewrite app_nil_r.
Qed.

Lemma missing_data_issues_no_fetch_witness :
  majorsOfPartner everyPartnerAnswers None (js "11") 0
    (resolveAgreement threeColleges
       (rawAgreement (Some "Cuesta College"%string) None None))
  = ([], inl [])
  /\ contribution everyPartnerAnswers None (js "11") 0
       (resolveAgreement threeColleges
          (rawAgreement (Some "Cuesta College"%string) None None))
     = [].
Proof.
  apply (proj1 (missing_data_issues_no_fetch everyPartnerAnswers None (js "11") 0
                  (resolveAgreement threeColleges
                     (rawAgreement (Some "Cuesta College"%string) None None)))).
  right. reflexivity.
Defined.

(** C9, as amended.  A partner fetch that is rejected, by cancellation or
    for any other reason, is not thrown out of the function, is not logged
    and contributes no major: a run whose agreement list arrives logs
    nothing.  The one error the function logs is the rejection of the request
    for the agreement list, when it is not a cancellation. *)
Theorem partner_failures_are_silent (net : network) (institutionId : jsstring)
  (schools : list Institution.t) (signal : option AbortSignal) :
  snd (getAndSetInstitutionAgreements net institutionId schools signal) = inl tt
  /\ (forall data,
        settle signal 0 (institutionAgreements net institutionId) = fulfilled data ->
        filter isConsoleError
          (fst (getAndSetInstitutionAgreements net institutionId schools signal))
        = []
        /\ forall i agreement err,
             partnerFetch net signal institutionId i agreement
             = Some (rejected err) ->
             async (majorsOfPartner net signal institutionId i agreement)
             = (partnerRequest institutionId agreement, inl (rejected err))
             /\ contribution net signal institutionId i agreement = [])
  /\ (forall err,
        settle signal 0 (institutionAgreements net institutionId) = rejected err ->
        filter isConsoleError
          (fst (getAndSetInstitutionAgreements net institutionId schools signal))
        = if isCancel err then []
          else [ConsoleError (js "Fetch agreements failed:") err]).
Proof.
  split; [apply run_never_throws|]. split.
  - intros data Hs. split.
    + rewrite (run_fulfilled net institutionId schools signal data Hs).
      simpl. rewrite filter_app, partnerRequests_no_log. reflexivity.
    + intros i agreement err H. rewrite async_majorsOfPartner.
      unfold contribution. now rewrite H.
  - intros err Hs.
    rewrite (run_rejected net institutionId schools signal err Hs).
    simpl. now destruct (isCancel err).
Qed.

Lemma partner_failures_are_silent_witness :
  filter isConsoleError
    (fst (getAndSetInstitutionAgreements onePartnerFails (js "11") threeColleges None))
  = [].
Proof.
  apply (proj1 (proj2 (partner_failures_are_silent onePartnerFails (js "11")
                         threeColleges None))
           [rawAgreement (Some "Cuesta College"%string) (Some ["75"%string]) None]).
  reflexivity.
Defined.

(** C9, as stated, fails when the fetch of the one partner is rejected with
    a server error: the run sets the majors to the empty list and logs
    nothing. *)
Lemma failed_partner_fetch_is_not_logged :
  partnerFetch onePartnerFails None (js "11") 0
    (resolveAgreement threeColleges
       (rawAgreement (Some "Cuesta College"%string) (Some ["75"%string]) None))
  = Some (rejected (RequestError (js "Request failed with status code 500")))
  /\ getAndSetInstitutionAgreements onePartnerFails (js "11") threeColleges None
     = ([Get (GetInstitutionAgreements (js "11"));
         SetInstitutionsWithAgreements
           [resolveAgreement threeColleges
              (rawAgreement (Some "Cuesta College"%string) (Some ["75"%string]) None)];
         Get (GetMajorAgreements (js "11") (js "2") (js "75"));
         SetMajors [];
         SetSelectedMajor (js "")],
        inl tt)
  /\ ~ logsFailedPartnerFetches onePartnerFails (js "11") threeColleges None.
Proof.
  split; [reflexivity|]. split; [reflexivity|].
  intros H.
  destruct (H [rawAgreement (Some "Cuesta College"%string) (Some ["75"%string]) None]
              0%nat
              (resolveAgreement threeColleges
                 (rawAgreement (Some "Cuesta College"%string)
                    (Some ["75"%string]) None))
              (js "Request failed with status code 500")
              eq_refl eq_refl eq_refl) as (tag & Hin).
  simpl in Hin.
  repeat (destruct Hin as [Hin|Hin]; [discriminate Hin|]).
  exact Hin.
Qed.

(* ===================================================================== *)
(** ** Facts: substrings, blank strings *)
(* ===================================================================== *)

Lemma startsWith_spec s : forall t,
  startsWith s t = true <-> exists after, s = t ++ after.
Proof.
  induction s as [|x s IH]; intros [|y t]; simpl.
  - split; [now exists [] | reflexivity].
  - split; [discriminate | intros (a & E); discriminate].
  - split; [now exists (x :: s) | reflexivity].
  - rewrite andb_true_iff, N.eqb_eq, IH. split.
    + intros [-> (a & ->)]. now exists a.
    + intros (a & E). injection E as -> ->. split; [reflexivity | now exists a].
Qed.

Lemma includes_spec s : forall t, includes s t = true <-> occursIn t s.
Proof.
  unfold occursIn. induction s as [|x s IH]; intros t.
  - change (includes [] t) with (startsWith [] t || false).
    rewrite orb_false_r, startsWith_spec. split.
    + intros (a & E). now exists [], a.
    + intros (b & a & E). destruct b; [now exists a | discriminate].
  - change (includes (x :: s) t) with (startsWith (x :: s) t || includes s t).
    rewrite orb_true_iff, startsWith_spec, IH. split.
    + intros [(a & E)|(b & a & E)].
      * now exists [], a.
      * exists (x :: b), a. simpl. now rewrite E.
    + intros ([|y b] & a & E).
      * left. now exists a.
      * right. injection E as -> ->. now exists b, a.
Qed.

Lemma occursIn_refl s : occursIn s s.
Proof. exists [], []. simpl. now rewrite app_nil_r. Qed.

Lemma occursIn_trans a b c : occursIn a b -> occursIn b c -> occursIn a c.
Proof.
  intros (b1 & a1 & ->) (b2 & a2 & ->).
  exists (b2 ++ b1), (a1 ++ a2). now rewrite <- !app_assoc.
Qed.

Lemma dropWhile_nil_iff p s :
  dropWhile p s = [] <-> Forall (fun c => p c = true) s.
Proof.
  induction s as [|x s IH]; simpl.
  - split; [constructor | reflexivity].
  - destruct (p x) eqn:E.
    + rewrite IH. split; [now constructor | now inversion 1].
    + split; [discriminate | inversion 1; congruence].
Qed.

Lemma trim_nil_iff s : trim s = [] <-> isBlank s.
Proof.
  unfold trim, trimEnd, trimStart, isBlank. split.
  - intros H. apply (f_equal (@rev code_unit)) in H.
    rewrite rev_involutive in H. simpl in H.
    apply dropWhile_nil_iff in H. apply Forall_rev in H.
    rewrite rev_involutive in H.
    destruct (dropWhile isWhiteSpace s) as [|c t] eqn:E.
    + now apply dropWhile_nil_iff.
    + pose proof (trimStart_clean s) as Hc. unfold trimStart in Hc.
      rewrite E in Hc. inversion H; congruence.
  - intros H. apply dropWhile_nil_iff in H. now rewrite H.
Qed.

Lemma falsy_trim_iff s : falsy (Some (trim s)) = true <-> isBlank s.
Proof.
  rewrite <- trim_nil_iff. simpl. destruct (trim s); split; congruence.
Qed.

Lemma isBlank_toLowerCase s : isBlank (toLowerCase s) <-> isBlank s.
Proof.
  unfold isBlank, toLowerCase. rewrite Forall_map. split; apply Forall_impl;
    intros c; now rewrite lower_isWhiteSpace.
Qed.

Lemma isBlank_occursIn t s : occursIn t s -> isBlank s -> isBlank t.
Proof.
  intros (b & a & ->) H. unfold isBlank in *.
  apply Forall_app in H as [_ H]. now apply Forall_app in H as [H _].
Qed.

(* ===================================================================== *)
(** ** The search box: [filteredMajors] *)
(* ===================================================================== *)

Lemma filteredMajors_blank majors query :
  isBlank query -> filteredMajors majors query = majors.
Proof.
  intros H. unfold filteredMajors. apply falsy_trim_iff in H. now rewrite H.
Qed.

Lemma filteredMajors_not_blank majors query :
  ~ isBlank query ->
  filteredMajors majors query
  = filter (fun m => includes (toLowerCase m) (toLowerCase query)) majors.
Proof.
  intros H. unfold filteredMajors.
  destruct (falsy (Some (trim query))) eqn:E; [|reflexivity].
  apply falsy_trim_iff in E. contradiction.
Qed.

Lemma isBlank_dec s : {isBlank s} + {~ isBlank s}.
Proof.
  unfold isBlank. apply Forall_dec. intros c.
  destruct (isWhiteSpace c); [now left | right; discriminate].
Defined.

Lemma filteredMajors_In majors query m :
  In m (filteredMajors majors query) <->
  In m majors /\ (isBlank query \/ occursIn (toLowerCase query) (toLowerCase m)).
Proof.
  destruct (isBlank_dec query) as [Hb|Hb].
  - rewrite filteredMajors_blank by exact Hb. tauto.
  - rewrite filteredMajors_not_blank by exact Hb.
    rewrite filter_In, includes_spec. tauto.
Qed.

Lemma filteredMajors_incl majors query : incl (filteredMajors majors query) majors.
Proof. intros m H. now apply filteredMajors_In in H. Qed.

Lemma filteredMajors_facts (majors : list jsstring) (query : jsstring) :
  (isBlank query -> filteredMajors majors query = majors)
  /\ (exists keep, filteredMajors majors query = filter keep majors)
  /\ (forall m,
        In m (filteredMajors majors query) <->
        In m majors /\
        (isBlank query \/ occursIn (toLowerCase query) (toLowerCase m))).
Proof.
  split; [apply filteredMajors_blank|]. split; [|apply filteredMajors_In].
  unfold filteredMajors. destruct (falsy (Some (trim query))).
  - exists (fun _ => true). clear. induction majors as [|m l IH]; simpl; congruence.
  - eexists. reflexivity.
Qed.

(** The same for any lower-casing function. *)
Lemma filteredMajorsWith_In lower majors query m :
  In m (filteredMajorsWith lower majors query) <->
  In m majors /\ (isBlank query \/ occursIn (lower query) (lower m)).
Proof.
  unfold filteredMajorsWith.
  destruct (falsy (Some (trim query))) eqn:E.
  - apply falsy_trim_iff in E. tauto.
  - rewrite filter_In, includes_spec.
    assert (Hb : ~ isBlank query).
    { intros H. apply falsy_trim_iff in H. congruence. }
    tauto.
Qed.

(** X2.  Refining the query only narrows the list: a query whose lower-cased
    text contains the lower-cased text of another query lists no major the
    other one does not list.  This for whatever the built-in [toLowerCase]
    is, as long as the lower-case form of a text is blank exactly when the
    text is (case mapping neither creates nor removes white space);
    [filteredMajors] is the function at the embedded rows. *)
Theorem filteredMajors_narrows (lower : jsstring -> jsstring)
  (majors : list jsstring) (query longer : jsstring) :
  (forall s, isBlank (lower s) <-> isBlank s) ->
  includes (lower longer) (lower query) = true ->
  incl (filteredMajorsWith lower majors longer)
       (filteredMajorsWith lower majors query)
  /\ filteredMajors majors query = filteredMajorsWith toLowerCase majors query.
Proof.
  intros Hblank H. split; [|reflexivity].
  intros m Hm. apply includes_spec in H.
  apply filteredMajorsWith_In in Hm as [Hin Hm]. apply filteredMajorsWith_In.
  split; [exact Hin|]. destruct Hm as [Hb|Ho].
  - left. apply Hblank.
    apply (isBlank_occursIn _ _ H). now apply Hblank.
  - right. exact (occursIn_trans _ _ _ H Ho).
Qed.

Lemma filteredMajors_narrows_witness :
  incl (filteredMajors [js "Art"; js "Art History"; js "Biology"] (js "art h"))
       (filteredMajors [js "Art"; js "Art History"; js "Biology"] (js "Art")).
Proof.
  apply (proj1 (filteredMajors_narrows toLowerCase
                  [js "Art"; js "Art History"; js "Biology"]
                  (js "Art") (js "art h") isBlank_toLowerCase eq_refl)).
Defined.

(** X3.  The letter case of the query does not matter: two queries with the
    same lower-cased text list the same majors, and a query with the
    lower-cased text of a major always lists that major.  This for whatever
    the built-in [toLowerCase] is, as long as the lower-case form of a text
    is blank exactly when the text is; "BIO" and "bio" list the same of
    "Art" and "Biology", namely "Biology". *)
Theorem filteredMajors_ignores_case (lower : jsstring -> jsstring)
  (majors : list jsstring) (query query' : jsstring) :
  (forall s, isBlank (lower s) <-> isBlank s) ->
  lower query = lower query' ->
  filteredMajorsWith lower majors query = filteredMajorsWith lower majors query'
  /\ (forall m, In m majors -> lower m = lower query ->
                In m (filteredMajorsWith lower majors query))
  /\ filteredMajors majors query = filteredMajorsWith toLowerCase majors query
  /\ filteredMajors [js "Art"; js "Biology"] (js "BIO") = [js "Biology"]
  /\ filteredMajors [js "Art"; js "Biology"] (js "bio") = [js "Biology"].
Proof.
  intros Hblank E. split; [|split; [|split; [|split]]]; try reflexivity.
  - unfold filteredMajorsWith.
    destruct (falsy (Some (trim query))) eqn:Eq,
             (falsy (Some (trim query'))) eqn:Eq'.
    + reflexivity.
    + apply falsy_trim_iff in Eq. apply (proj2 (Hblank query)) in Eq.
      rewrite E in Eq. apply (proj1 (Hblank query')) in Eq.
      apply falsy_trim_iff in Eq. congruence.
    + apply falsy_trim_iff in Eq'. apply (proj2 (Hblank query')) in Eq'.
      rewrite <- E in Eq'. apply (proj1 (Hblank query)) in Eq'.
      apply falsy_trim_iff in Eq'. congruence.
    + now rewrite E.
  - intros m Hin Em. apply filteredMajorsWith_In. split; [exact Hin|].
    right. rewrite Em. apply occursIn_refl.
Qed.

Lemma filteredMajors_ignores_case_witness :
  filteredMajors [js "Art"; js "Biology"] (js "BIO")
  = filteredMajors [js "Art"; js "Biology"] (js "bio").
Proof.
  apply (proj1 (filteredMajors_ignores_case toLowerCase
                  [js "Art"; js "Biology"] (js "BIO") (js "bio")
                  isBlank_toLowerCase eq_refl)).
Defined.

(* ===================================================================== *)
(** ** Facts: sorted lists, trimmed strings *)
(* ===================================================================== *)

Lemma filter_sorted (f : jsstring -> bool) l :
  StronglySorted jsstring_le l -> StronglySorted jsstring_le (filter f l).
Proof.
  induction 1 as [|x l Hl IH Hx]; simpl; [constructor|].
  destruct (f x); [|exact IH]. constructor; [exact IH|].
  rewrite Forall_forall in *. intros y Hy. apply Hx.
  now apply filter_In in Hy.
Qed.

Lemma dropWhile_head p s :
  match dropWhile p s with [] => True | c :: _ => p c = false end.
Proof.
  induction s as [|x s IH]; simpl; [exact I|].
  destruct (p x) eqn:E; [exact IH | exact E].
Qed.

Lemma dropWhile_fixed p s :
  match s with [] => True | c :: _ => p c = false end -> dropWhile p s = s.
Proof. destruct s as [|c s]; simpl; [reflexivity|]. now intros ->. Qed.

Lemma cleanEnds_trim s : cleanEnds (trim s).
Proof.
  unfold cleanEnds, trim. split.
  - pose proof (trimStart_clean s) as H.
    destruct (trimStart s) as [|c t]; [exact I|].
    now rewrite (trimEnd_cons c t H).
  - unfold trimEnd. rewrite rev_involutive. apply dropWhile_head.
Qed.

Lemma trim_cleanEnds s : cleanEnds s -> trim s = s.
Proof.
  intros [H1 H2]. unfold trim, trimStart, trimEnd.
  rewrite (dropWhile_fixed _ s H1), (dropWhile_fixed _ (rev s) H2).
  apply rev_involutive.
Qed.

Lemma same_space_rev s t :
  Forall2 same_space s t -> Forall2 same_space (rev s) (rev t).
Proof.
  induction 1 as [|x y s t Hxy _ IH]; simpl; [constructor|].
  apply Forall2_app; [exact IH | now repeat constructor].
Qed.

Lemma same_space_cleanEnds s t :
  Forall2 same_space s t -> cleanEnds s -> cleanEnds t.
Proof.
  intros H [H1 H2]. split.
  - destruct H as [|x y s t Hxy _]; [exact I|]. unfold same_space in Hxy. congruence.
  - apply same_space_rev in H.
    destruct H as [|x y s' t' Hxy _]; [exact I|]. unfold same_space in Hxy. congruence.
Qed.

Lemma same_space_map (f : code_unit -> code_unit) s :
  (forall c, isWhiteSpace (f c) = isWhiteSpace c) ->
  Forall2 same_space s (map f s).
Proof.
  intros Hf. induction s as [|c s IH]; simpl; constructor; [|exact IH].
  unfold same_space. now rewrite Hf.
Qed.

Lemma same_space_titleCaseWord c run :
  Forall2 same_space (c :: run) (titleCaseWord (c :: run)).
Proof.
  rewrite titleCaseWord_cons. destruct (test initialism (c :: run)).
  - apply same_space_map, upper_isWhiteSpace.
  - constructor.
    + unfold same_space. now rewrite upper_isWhiteSpace.
    + apply same_space_map, lower_isWhiteSpace.
Qed.

Lemma same_space_toTitleCase_aux n : forall s,
  (length s <= n)%nat -> Forall2 same_space s (toTitleCase s).
Proof.
  unfold toTitleCase. induction n as [|n IH]; intros s Hlen.
  - destruct s; [|simpl in Hlen; lia]. rewrite replace_words_nil. constructor.
  - destruct s as [|c s]; [rewrite replace_words_nil; constructor|].
    simpl in Hlen. rewrite replace_words_cons. destruct (isWordChar c).
    + rewrite <- (takeWhile_dropWhile isNonSpace s) at 1.
      change (c :: takeWhile isNonSpace s ++ dropWhile isNonSpace s)
        with ((c :: takeWhile isNonSpace s) ++ dropWhile isNonSpace s).
      apply Forall2_app; [apply same_space_titleCaseWord|].
      apply IH. pose proof (dropWhile_length isNonSpace s). lia.
    + constructor; [reflexivity|]. apply IH. lia.
Qed.

Lemma same_space_toTitleCase s : Forall2 same_space s (toTitleCase s).
Proof. apply (same_space_toTitleCase_aux (length s)). lia. Qed.

Lemma trim_normalizeLabel raw : trim (normalizeLabel raw) = normalizeLabel raw.
Proof.
  apply trim_cleanEnds. unfold normalizeLabel.
  apply (same_space_cleanEnds (trim raw)); [apply same_space_toTitleCase|].
  apply cleanEnds_trim.
Qed.

(* ===================================================================== *)
(** ** The aggregated list as a set of labels *)
(* ===================================================================== *)

Lemma uniqueMajors_NoDup all : NoDup (uniqueMajors all).
Proof. apply (NoDup_map_inv dedupKey), uniqueMajors_keys_NoDup. Qed.

Lemma uniqueMajors_sorted all : StronglySorted jsstring_le (uniqueMajors all).
Proof. apply sort_sorted. Qed.

(** Two aggregated lists with the same elements are the same list. *)
Lemma uniqueMajors_ext all all' :
  (forall v, In v (uniqueMajors all) <-> In v (uniqueMajors all')) ->
  uniqueMajors all = uniqueMajors all'.
Proof.
  intros H. apply sorted_perm_unique; try apply uniqueMajors_sorted.
  apply NoDup_Permutation; try apply uniqueMajors_NoDup. exact H.
Qed.

Lemma uniqueMajors_trimmed all v : In v (uniqueMajors all) -> trim v = v.
Proof.
  intros H. apply uniqueMajors_last_seen in H as (b & m & a & _ & -> & _).
  apply trim_idem.
Qed.

Lemma NoDup_map_later {A B : Type} (g : A -> B) b x a :
  NoDup (map g (b ++ x :: a)) -> Forall (fun y => g y <> g x) a.
Proof.
  rewrite map_app. simpl. intros H. apply NoDup_remove_2 in H.
  rewrite Forall_forall. intros y Hy E. apply H. apply in_or_app. right.
  rewrite <- E. now apply in_map.
Qed.

Lemma uniqueMajors_again all v :
  In v (uniqueMajors (uniqueMajors all)) <-> In v (uniqueMajors all).
Proof.
  split.
  - intros H. apply uniqueMajors_last_seen in H as (b & m & a & E & -> & _).
    assert (Hm : In m (uniqueMajors all)).
    { rewrite E. apply in_or_app. right. now left. }
    now rewrite (uniqueMajors_trimmed all m Hm).
  - intros H. apply uniqueMajors_last_seen.
    destruct (in_split _ _ H) as (b & a & E). exists b, v, a.
    split; [exact E|]. split; [symmetry; exact (uniqueMajors_trimmed all v H)|].
    apply (NoDup_map_later dedupKey b v a). rewrite <- E.
    apply uniqueMajors_keys_NoDup.
Qed.

(** X4.  Aggregating an aggregated list changes nothing; the result has no
    more entries than the input has labels, and it is empty only for an
    empty input. *)
Theorem uniqueMajors_idempotent (all : list jsstring) :
  uniqueMajors (uniqueMajors all) = uniqueMajors all
  /\ (length (uniqueMajors all) <= length all)%nat
  /\ (uniqueMajors all = [] <-> all = []).
Proof.
  split; [apply uniqueMajors_ext, uniqueMajors_again|]. split.
  - unfold uniqueMajors. fold (majorEntries all).
    rewrite (Permutation_length (sort_perm _)). unfold values. rewrite length_map.
    rewrite <- (length_map fst).
    assert (H : incl (map fst (Map_of_entries (majorEntries all)))
                     (map fst (majorEntries all))).
    { intros k Hk. now apply Map_of_entries_keys. }
    apply (NoDup_incl_length (Map_of_entries_NoDup _)) in H.
    unfold majorEntries in H at 2. rewrite !length_map in *. exact H.
  - split.
    + intros E. destruct all as [|m all]; [reflexivity|].
      pose proof (uniqueMajors_represents (m :: all) m (or_introl eq_refl)) as H.
      rewrite E in H. destruct H.
    + now intros ->.
Qed.

Lemma normalized_entries_facts (raws : list jsstring) :
  (forall raw, trim (normalizeLabel raw) = normalizeLabel raw)
  /\ (forall v, In v (uniqueMajors (map normalizeLabel raws)) ->
                In v (map normalizeLabel raws)).
Proof.
  split; [apply trim_normalizeLabel|].
  intros v H. apply uniqueMajors_last_seen in H as (b & m & a & E & -> & _).
  assert (Hm : In m (map normalizeLabel raws)).
  { rewrite E. apply in_or_app. right. now left. }
  apply in_map_iff in Hm as (r & <- & Hr).
  rewrite trim_normalizeLabel. apply in_map_iff. now exists r.
Qed.

(** X5.  A normalized label has no white space at its ends, so the second
    [trim] of the aggregation leaves it as it is: every entry of the
    aggregated list is one of the normalized labels, letter for letter. *)
Theorem aggregated_entries_are_labels (raws : list jsstring) :
  (forall raw, trim (normalizeLabel raw) = normalizeLabel raw)
  /\ (forall v, In v (uniqueMajors (map normalizeLabel raws)) ->
                In v (map normalizeLabel raws)).
Proof. apply normalized_entries_facts. Qed.


(** X6.  When the raw labels are Basic Latin text, the aggregated list is
    the set of their normalized forms, sorted: it holds exactly the
    normalized labels, each once, so two sequences of raw labels with the same
    normalized forms give the same list, in whatever order and however often
    the partners report them. *)
Theorem ascii_aggregation_is_a_set (raws raws' : list jsstring) :
  Forall (Forall (fun c => isAscii c = true)) raws ->
  Forall (Forall (fun c => isAscii c = true)) raws' ->
  (forall v, In v (uniqueMajors (map normalizeLabel raws)) <->
             In v (map normalizeLabel raws))
  /\ NoDup (uniqueMajors (map normalizeLabel raws))
  /\ ((forall v, In v (map normalizeLabel raws) <-> In v (map normalizeLabel raws')) ->
      uniqueMajors (map normalizeLabel raws) = uniqueMajors (map normalizeLabel raws')).
Proof.
  assert (Hset : forall rs,
    Forall (Forall (fun c => isAscii c = true)) rs ->
    forall v, In v (uniqueMajors (map normalizeLabel rs)) <->
              In v (map normalizeLabel rs)).
  { intros rs Hascii v. split.
    - apply (proj2 (normalized_entries_facts rs)).
    - intros Hv.
      pose proof (uniqueMajors_represents _ _ Hv) as Hk.
      apply in_map_iff in Hk as (w & Ek & Hw).
      pose proof (proj2 (normalized_entries_facts rs) w Hw) as Hw'.
      apply in_map_iff in Hv as (r & <- & Hr).
      apply in_map_iff in Hw' as (r' & <- & Hr').
      rewrite Forall_forall in Hascii.
      rewrite <- (normalizeLabel_same_key r' r (Hascii r' Hr') (Hascii r Hr) Ek).
      exact Hw. }
  intros H H'. split; [apply Hset, H|]. split; [apply uniqueMajors_NoDup|].
  intros E. apply uniqueMajors_ext. intros v.
  rewrite (Hset raws H), (Hset raws' H'). apply E.
Qed.

Lemma ascii_aggregation_is_a_set_witness :
  uniqueMajors (map normalizeLabel [js "art"; js "BIOLOGY"; js "Art "])
  = uniqueMajors (map normalizeLabel [js "biology"; js "ART"]).
Proof.
  apply (proj2 (proj2 (ascii_aggregation_is_a_set
                         [js "art"; js "BIOLOGY"; js "Art "]
                         [js "biology"; js "ART"]
                         ltac:(repeat constructor) ltac:(repeat constructor)))).
  intros v. simpl. tauto.
Defined.

(** X7.  Whatever was aggregated and whatever is typed, the list under the
    search box is sorted in code-unit order, holds no major twice and holds
    aggregated majors only. *)
Theorem filtered_aggregate_sorted (all : list jsstring) (query : jsstring) :
  StronglySorted jsstring_le (filteredMajors (uniqueMajors all) query)
  /\ NoDup (filteredMajors (uniqueMajors all) query)
  /\ incl (filteredMajors (uniqueMajors all) query) (uniqueMajors all).
Proof.
  destruct (proj1 (proj2 (filteredMajors_facts (uniqueMajors all) query)))
    as (keep & ->).
  split; [apply filter_sorted, uniqueMajors_sorted|].
  split; [apply NoDup_filter, uniqueMajors_NoDup|].
  intros m Hm. now apply filter_In in Hm.
Qed.

Lemma normalizeLabel_blank raw : isBlank raw -> normalizeLabel raw = [].
Proof.
  intros H. unfold normalizeLabel. apply trim_nil_iff in H. now rewrite H.
Qed.

Lemma dedupKey_nil_iff m : dedupKey m = [] <-> isBlank m.
Proof.
  unfold dedupKey. now rewrite trim_nil_iff, isBlank_toLowerCase.
Qed.

(** X16.  A label that is missing, empty or all white space becomes the
    empty major: it is kept in the aggregated list, where it sorts first, and
    is then the major selected by default. *)
Theorem blank_label_sorts_first (all : list jsstring) (m : jsstring) :
  In m all -> isBlank m ->
  normalizeLabel m = []
  /\ (forall key,
        reportLabels
          {| Agreements.reports :=
               Some [{| Agreement.label := None; Agreement.key := key |}] |}
        = [[]])
  /\ (exists rest, uniqueMajors all = [] :: rest)
  /\ defaultMajor (uniqueMajors all) = js "".
Proof.
  intros Hin Hb. split; [now apply normalizeLabel_blank|].
  split; [reflexivity|].
  assert (Hnil : In [] (uniqueMajors all)).
  { pose proof (uniqueMajors_represents all m Hin) as Hk.
    apply in_map_iff in Hk as (v & Ek & Hv).
    rewrite (proj2 (dedupKey_nil_iff m) Hb) in Ek.
    apply dedupKey_nil_iff in Ek.
    rewrite <- (uniqueMajors_trimmed all v Hv) in Hv.
    now rewrite (proj2 (trim_nil_iff v) Ek) in Hv. }
  pose proof (uniqueMajors_sorted all) as Hs.
  destruct (uniqueMajors all) as [|x rest]; [destruct Hnil|].
  assert (Ex : x = []).
  { destruct Hnil as [E|Hnil]; [exact E|].
    inversion Hs as [|? ? _ Hx]; subst. rewrite Forall_forall in Hx.
    specialize (Hx [] Hnil). unfold jsstring_le in Hx.
    destruct x; [reflexivity | discriminate]. }
  subst x. split; [now exists rest | reflexivity].
Qed.

Lemma blank_label_sorts_first_witness :
  defaultMajor (uniqueMajors [js "Physics"; js "  "; js "Art"]) = js "".
Proof.
  apply (blank_label_sorts_first [js "Physics"; js "  "; js "Art"] (js "  ")).
  - right. left. reflexivity.
  - simpl. repeat constructor.
Defined.

(* ===================================================================== *)
(** ** The catalog: resolving a partner, the institutions of a system *)
(* ===================================================================== *)

Lemma existsb_includes_spec names text :
  existsb (fun n => includes (Name.name n) text) names = true <->
  exists n, In n names /\ occursIn text (Name.name n).
Proof.
  rewrite existsb_exists. split; intros (n & Hn & H); exists n; split;
    try exact Hn; now apply includes_spec.
Qed.

Lemma find_first {A : Type} (f : A -> bool) l x :
  find f l = Some x <->
  exists before after,
    l = before ++ x :: after /\ f x = true /\
    Forall (fun y => f y = false) before.
Proof.
  induction l as [|y l IH]; simpl.
  - split; [discriminate | intros (b & a & E & _); now destruct b].
  - destruct (f y) eqn:Ey.
    + split.
      * intros E. injection E as ->. exists [], l. now repeat split.
      * intros ([|z b] & a & E & Hx & Hb).
        -- now injection E as ->.
        -- injection E as -> _. inversion Hb; congruence.
    + rewrite IH. split.
      * intros (b & a & -> & Hx & Hb). exists (y :: b), a.
        split; [reflexivity|]. split; [exact Hx | now constructor].
      * intros ([|z b] & a & E & Hx & Hb).
        -- injection E as -> _. congruence.
        -- injection E as -> ->. inversion Hb; subst. now exists b, a.
Qed.

Lemma find_none {A : Type} (f : A -> bool) l :
  find f l = None <-> Forall (fun y => f y = false) l.
Proof.
  induction l as [|y l IH]; simpl.
  - split; [constructor | reflexivity].
  - destruct (f y) eqn:Ey.
    + split; [discriminate | inversion 1; congruence].
    + rewrite IH. split; [now constructor | now inversion 1].
Qed.

(** X8.  The resolver takes the first match: a partner name resolves to an
    id exactly when that id is the id of the first institution of the catalog
    one of whose display names contains the partner name as a substring
    (with the letter case as it is), and to nothing exactly when no display
    name of the catalog contains it. *)
Theorem resolveId_first_match (schools : list Institution.t)
  (institutionName : jsstring) :
  (forall id,
     resolveId schools institutionName = Some id <->
     exists before inst after,
       schools = before ++ inst :: after
       /\ Institution.id inst = id
       /\ (exists n, In n (Institution.names inst)
                     /\ occursIn institutionName (Name.name n))
       /\ Forall (fun other =>
                    forall n, In n (Institution.names other) ->
                              ~ occursIn institutionName (Name.name n))
                 before)
  /\ (resolveId schools institutionName = None <->
      forall inst n, In inst schools -> In n (Institution.names inst) ->
                     ~ occursIn institutionName (Name.name n)).
Proof.
  unfold resolveId.
  set (f := fun inst =>
              existsb (fun n => includes (Name.name n) institutionName)
                      (Institution.names inst)).
  assert (Hf : forall inst, f inst = false <->
                 forall n, In n (Institution.names inst) ->
                           ~ occursIn institutionName (Name.name n)).
  { intros inst. unfold f. split.
    - intros H n Hn Ho.
      assert (E : existsb (fun n => includes (Name.name n) institutionName)
                    (Institution.names inst) = true).
      { apply existsb_includes_spec. now exists n. }
      congruence.
    - intros H.
      destruct (existsb _ (Institution.names inst)) eqn:E; [|reflexivity].
      apply existsb_includes_spec in E as (n & Hn & Ho). now destruct (H n Hn). }
  split.
  - intros id. split.
    + destruct (find f schools) as [inst|] eqn:E; [|discriminate].
      simpl. intros Eid. injection Eid as <-.
      apply find_first in E as (b & a & -> & Hx & Hb).
      exists b, inst, a. split; [reflexivity|]. split; [reflexivity|]. split.
      * now apply existsb_includes_spec.
      * eapply Forall_impl; [|exact Hb]. intros other. apply Hf.
    + intros (b & inst & a & -> & <- & Hn & Hb).
      assert (E : find f (b ++ inst :: a) = Some inst).
      { apply find_first. exists b, a. split; [reflexivity|]. split.
        - now apply existsb_includes_spec.
        - eapply Forall_impl; [|exact Hb]. intros other. apply Hf. }
      now rewrite E.
  - destruct (find f schools) as [inst|] eqn:E; simpl.
    + split; [discriminate|]. intros H.
      apply find_first in E as (b & a & -> & Hx & _).
      apply existsb_includes_spec in Hx as (n & Hn & Ho).
      destruct (H inst n); try assumption. apply in_or_app. right. now left.
    + split; [|reflexivity]. intros _ inst n Hinst Hn.
      apply find_none in E. rewrite Forall_forall in E.
      exact (proj1 (Hf inst) (E inst Hinst) n Hn).
Qed.

Lemma systemInstitutions_In name institutions inst :
  In inst (systemInstitutions name institutions) <->
  In inst institutions
  /\ Institution.isCommunityCollege inst = false
  /\ exists n, In n (Institution.names inst) /\ occursIn name (Name.name n).
Proof.
  unfold systemInstitutions. rewrite !filter_In, negb_true_iff, existsb_includes_spec.
  tauto.
Qed.

Lemma filter_filter_same {A : Type} (f : A -> bool) l :
  filter f (filter f l) = filter f l.
Proof.
  induction l as [|x l IH]; simpl; [reflexivity|].
  destruct (f x) eqn:E; simpl; [now rewrite E, IH | exact IH].
Qed.

Lemma filter_comm {A : Type} (f g : A -> bool) l :
  filter f (filter g l) = filter g (filter f l).
Proof.
  induction l as [|x l IH]; simpl; [reflexivity|].
  destruct (f x) eqn:Ef, (g x) eqn:Eg; simpl; rewrite ?Ef, ?Eg, ?IH; reflexivity.
Qed.

Lemma systemInstitutions_facts (name : jsstring)
  (institutions : list Institution.t) :
  (forall inst,
     In inst (systemInstitutions name institutions) <->
     In inst institutions
     /\ Institution.isCommunityCollege inst = false
     /\ exists n, In n (Institution.names inst) /\ occursIn name (Name.name n))
  /\ (exists keep, systemInstitutions name institutions = filter keep institutions)
  /\ (forall inst,
        In inst (systemInstitutions name institutions) ->
        exists label, optionLabel name inst = Some label /\ occursIn name label)
  /\ systemInstitutions name (systemInstitutions name institutions)
     = systemInstitutions name institutions.
Proof.
  split; [apply systemInstitutions_In|]. split; [|split].
  - exists (fun inst =>
              negb (Institution.isCommunityCollege inst)
              && existsb (fun n => includes (Name.name n) name)
                         (Institution.names inst)).
    unfold systemInstitutions. induction institutions as [|x l IH]; simpl;
      [reflexivity|].
    destruct (Institution.isCommunityCollege x); simpl; [exact IH|].
    destruct (existsb _ (Institution.names x)); now rewrite IH.
  - intros inst H. apply systemInstitutions_In in H as (_ & _ & n & Hn & Ho).
    unfold optionLabel.
    destruct (find (fun n => includes (Name.name n) name) (Institution.names inst))
      as [n'|] eqn:E.
    + exists (Name.name n'). split; [reflexivity|].
      apply find_first in E as (_ & _ & _ & E & _). now apply includes_spec.
    + apply find_none in E. rewrite Forall_forall in E.
      apply includes_spec in Ho. specialize (E n Hn). simpl in E. congruence.
  - unfold systemInstitutions.
    rewrite (filter_comm _ (fun inst => negb (Institution.isCommunityCollege inst))).
    rewrite filter_filter_same.
    rewrite (filter_comm (fun inst => negb (Institution.isCommunityCollege inst))).
    now rewrite filter_filter_same.
Qed.

Lemma not_includes_spec s t : includes s t = false <-> ~ occursIn t s.
Proof.
  rewrite <- includes_spec. destruct (includes s t); split; congruence.
Qed.

(** The option text is the first display name that contains the name, and
    is missing exactly when no display name contains it. *)
Lemma optionLabel_first name inst label :
  optionLabel name inst = Some label <->
  exists before n after,
    Institution.names inst = before ++ n :: after
    /\ label = Name.name n
    /\ occursIn name (Name.name n)
    /\ Forall (fun n' => ~ occursIn name (Name.name n')) before.
Proof.
  unfold optionLabel. split.
  - destruct (find _ (Institution.names inst)) as [n|] eqn:E; [|discriminate].
    intros H. injection H as <-.
    apply find_first in E as (b & a & E & Hn & Hb).
    exists b, n, a. split; [exact E|]. split; [reflexivity|].
    split; [now apply includes_spec|].
    eapply Forall_impl; [|exact Hb]. intros n'. apply not_includes_spec.
  - intros (b & n & a & E & -> & Hn & Hb).
    assert (H : find (fun n => includes (Name.name n) name) (Institution.names inst)
                = Some n).
    { apply find_first. exists b, a. split; [exact E|].
      split; [now apply includes_spec|].
      eapply Forall_impl; [|exact Hb]. intros n'. apply not_includes_spec. }
    now rewrite H.
Qed.

Lemma optionLabel_none name inst :
  optionLabel name inst = None <->
  Forall (fun n => ~ occursIn name (Name.name n)) (Institution.names inst).
Proof.
  unfold optionLabel.
  destruct (find _ (Institution.names inst)) as [n|] eqn:E.
  - split; [discriminate|]. intros H.
    apply find_first in E as (b & a & E & Hn & _).
    rewrite E in H. apply Forall_app in H as [_ H]. inversion H; subst.
    apply includes_spec in Hn. contradiction.
  - split; [|reflexivity]. intros _. apply find_none in E.
    eapply Forall_impl; [|exact E]. intros n'. apply not_includes_spec.
Qed.

(** X9.  The institutions listed for a system are those of the catalog, in
    catalog order, that are no community college and have a display name
    containing the name of the system; listing the institutions of a system
    among those already listed for it changes nothing.  The text of an
    option is the first display name of the institution that contains the
    selected system, and is missing exactly when no display name contains
    it.  So an institution listed for a name has an option text under that
    same name.  The component does not always list and label with one
    name: the first load lists with the literal
    "California Polytechnic University" whatever system is selected, and
    when the user has chosen "University of California" before the catalog
    arrives, the state reached lists Cal Poly Pomona, which has no option
    text under the selected system. *)
Theorem systemInstitutions_have_labels (name : jsstring)
  (institutions : list Institution.t) :
  (forall inst,
     In inst (systemInstitutions name institutions) <->
     In inst institutions
     /\ Institution.isCommunityCollege inst = false
     /\ exists n, In n (Institution.names inst) /\ occursIn name (Name.name n))
  /\ (exists keep, systemInstitutions name institutions = filter keep institutions)
  /\ systemInstitutions name (systemInstitutions name institutions)
     = systemInstitutions name institutions
  /\ (forall selectedSystem inst label,
        optionLabel selectedSystem inst = Some label <->
        exists before n after,
          Institution.names inst = before ++ n :: after
          /\ label = Name.name n
          /\ occursIn selectedSystem (Name.name n)
          /\ Forall (fun n' => ~ occursIn selectedSystem (Name.name n')) before)
  /\ (forall selectedSystem inst,
        optionLabel selectedSystem inst = None <->
        Forall (fun n => ~ occursIn selectedSystem (Name.name n))
               (Institution.names inst))
  /\ (forall inst,
        In inst (systemInstitutions name institutions) ->
        exists label, optionLabel name inst = Some label)
  /\ (reachable systemChosenBeforeCatalog
      /\ Home.selectedSystem systemChosenBeforeCatalog
         = js "University of California"
      /\ Home.institutions_filtered systemChosenBeforeCatalog = [calPolyPomona]
      /\ optionLabel (Home.selectedSystem systemChosenBeforeCatalog) calPolyPomona
         = None).
Proof.
  destruct (systemInstitutions_facts name institutions) as (H1 & H2 & H3 & H4).
  split; [exact H1|]. split; [exact H2|]. split; [exact H4|].
  split; [intros; apply optionLabel_first|].
  split; [intros; apply optionLabel_none|].
  split.
  { intros inst Hin. destruct (H3 inst Hin) as (label & E & _). now exists label. }
  split; [|split; [|split]]; try reflexivity.
  unfold systemChosenBeforeCatalog.
  apply reach_mount.
  apply (reach_handle homeInitial (SystemSelect (js "University of California"))).
  - apply reach_initial.
  - exact I.
Qed.

(* ===================================================================== *)
(** ** Facts: the pipeline inside the component *)
(* ===================================================================== *)

Lemma fold_noop t :
  Forall (fun e => forall st, home_apply st e = st) t ->
  forall st, fold_left home_apply t st = st.
Proof.
  induction 1 as [|e t He _ IH]; intros st; simpl; [reflexivity|].
  now rewrite He, IH.
Qed.

Lemma partnerRequests_noop institutionId agreements :
  Forall (fun e => forall st, home_apply st e = st)
         (map Core (partnerRequests institutionId agreements)).
Proof.
  induction agreements as [|a rest IH]; simpl; [constructor|].
  rewrite map_app. apply Forall_app. split; [|exact IH].
  unfold partnerRequest. destruct (fetchParams a) as [[id y]|]; simpl;
    repeat constructor.
Qed.

Lemma partnerRequests_In institutionId agreements e :
  In e (partnerRequests institutionId agreements) <->
  exists a id year,
    In a agreements /\ fetchParams a = Some (id, year)
    /\ e = Get (GetMajorAgreements institutionId id year).
Proof.
  induction agreements as [|a rest IH]; simpl.
  - split; [tauto | intros (? & ? & ? & [] & _)].
  - rewrite in_app_iff, IH. unfold partnerRequest. split.
    + intros [H|(a' & id & y & Ha & Hf & ->)].
      * destruct (fetchParams a) as [[id y]|] eqn:E; [|destruct H].
        destruct H as [<-|[]]. exists a, id, y. now repeat split; auto.
      * exists a', id, y. now repeat split; auto.
    + intros (a' & id & y & [->|Ha] & Hf & ->).
      * left. rewrite Hf. now left.
      * right. now exists a', id, y.
Qed.

Lemma partnerRequests_length institutionId agreements :
  (length (partnerRequests institutionId agreements) <= length agreements)%nat.
Proof.
  induction agreements as [|a rest IH]; simpl; [lia|].
  rewrite length_app. unfold partnerRequest.
  destruct (fetchParams a) as [[id y]|]; simpl; lia.
Qed.

(** The two outcomes of a run of the pipeline, together. *)
Lemma run_cases net institutionId schools signal :
  (exists data,
     settle signal 0 (institutionAgreements net institutionId) = fulfilled data
     /\ getAndSetInstitutionAgreements net institutionId schools signal
        = ([Get (GetInstitutionAgreements institutionId);
            SetInstitutionsWithAgreements (map (resolveAgreement schools) data)]
             ++ partnerRequests institutionId (map (resolveAgreement schools) data)
             ++ [SetMajors
                   (uniqueMajors
                      (contributions net signal institutionId 0
                         (map (resolveAgreement schools) data)));
                 SetSelectedMajor
                   (defaultMajor
                      (uniqueMajors
                         (contributions net signal institutionId 0
                            (map (resolveAgreement schools) data))))],
           inl tt))
  \/ (exists err,
        settle signal 0 (institutionAgreements net institutionId) = rejected err
        /\ getAndSetInstitutionAgreements net institutionId schools signal
           = (Get (GetInstitutionAgreements institutionId)
                :: (if isCancel err then []
                    else [ConsoleError (js "Fetch agreements failed:") err]),
              inl tt)).
Proof.
  destruct (settle signal 0 (institutionAgreements net institutionId))
    as [data|err] eqn:E.
  - left. exists data. split; [reflexivity|]. now apply run_fulfilled.
  - right. exists err. split; [reflexivity|]. now apply run_rejected.
Qed.

(** The one entry a run of the pipeline can log. *)
Lemma run_log net institutionId schools signal tag err :
  In (ConsoleError tag err)
     (fst (getAndSetInstitutionAgreements net institutionId schools signal)) ->
  tag = js "Fetch agreements failed:" /\ isCancel err = false
  /\ settle signal 0 (institutionAgreements net institutionId) = rejected err.
Proof.
  destruct (run_cases net institutionId schools signal)
    as [(data & Hs & ->)|(e & Hs & ->)]; simpl.
  - intros [H|[H|H]]; try discriminate.
    apply in_app_iff in H as [H|H].
    + apply partnerRequests_In in H as (? & ? & ? & _ & _ & H). discriminate.
    + destruct H as [H|[H|[]]]; discriminate.
  - intros [H|H]; [discriminate|].
    destruct (isCancel e) eqn:Ec; [destruct H|].
    destruct H as [H|[]]. injection H as <- <-. now repeat split.
Qed.

(** The state after the events of a run of the pipeline. *)
Lemma home_after_run net institutionId schools signal st :
  (exists data,
     settle signal 0 (institutionAgreements net institutionId) = fulfilled data
     /\ fold_left home_apply
          (map Core (fst (getAndSetInstitutionAgreements net institutionId
                            schools signal))) st
        = {| Home.institutions := Home.institutions st;
             Home.institutions_filtered := Home.institutions_filtered st;
             Home.selectedSystem := Home.selectedSystem st;
             Home.selectedInstitution := Home.selectedInstitution st;
             Home.institutionsWithAgreements :=
               map (resolveAgreement schools) data;
             Home.majors :=
               uniqueMajors
                 (contributions net signal institutionId 0
                    (map (resolveAgreement schools) data));
             Home.selectedMajor :=
               defaultMajor
                 (uniqueMajors
                    (contributions net signal institutionId 0
                       (map (resolveAgreement schools) data)));
             Home.query := Home.query st |})
  \/ (exists err,
        settle signal 0 (institutionAgreements net institutionId) = rejected err
        /\ fold_left home_apply
             (map Core (fst (getAndSetInstitutionAgreements net institutionId
                               schools signal))) st
           = st).
Proof.
  destruct (run_cases net institutionId schools signal)
    as [(data & Hs & ->)|(e & Hs & ->)].
  - left. exists data. split; [exact Hs|].
    cbn [fst]. rewrite !map_app, !fold_left_app.
    cbn [map fold_left]. rewrite (fold_noop _ (partnerRequests_noop _ _)).
    reflexivity.
  - right. exists e. split; [exact Hs|].
    cbn [fst]. destruct (isCancel e); simpl; now destruct st.
Qed.


Lemma defaultMajor_consistent u :
  (u = [] /\ defaultMajor u = js "") \/ In (defaultMajor u) u.
Proof. destruct u; [now left | right; now left]. Qed.

(* ===================================================================== *)
(** ** The handlers *)
(* ===================================================================== *)

Lemma mountEffect_fulfilled catalogAnswer net aborted data :
  settle (Some aborted) 0 catalogAnswer = fulfilled data ->
  mountEffect catalogAnswer net aborted
  = ([GetInstitutions; SetInstitutions data;
      SetInstitutionsFiltered
        (systemInstitutions (js "California Polytechnic University") data)]
       ++ map Core
            (fst (getAndSetInstitutionAgreements net (js "11") data
                    (Some (fun k => aborted (S k))))),
     inl tt).
Proof.
  intros Hs. unfold mountEffect. rewrite Hs. simpl.
  pose proof (run_never_throws net (js "11") data (Some (fun k => aborted (S k))))
    as Hn.
  destruct (getAndSetInstitutionAgreements net (js "11") data
              (Some (fun k => aborted (S k)))) as [t r].
  simpl in *. now rewrite Hn.
Qed.

Lemma mountEffect_rejected catalogAnswer net aborted err :
  settle (Some aborted) 0 catalogAnswer = rejected err ->
  mountEffect catalogAnswer net aborted
  = (GetInstitutions
       :: (if isCancel err then []
           else [Core (ConsoleError (js "Fetch institutions failed:") err)]),
     inl tt).
Proof.
  intros Hs. unfold mountEffect. rewrite Hs. simpl.
  now destruct (isCancel err).
Qed.

(** X10.  The first load never throws.  An abort while the catalog is in
    flight ends it with nothing set and nothing logged; a failure of the
    catalog request is logged as "Fetch institutions failed:" and ends it
    too.  When the catalog arrives it is stored whole, the Cal Poly
    institutions are listed, and the pipeline runs for the id "11" with
    the whole catalog; from then on the only entry that can be logged is the
    pipeline's own "Fetch agreements failed:", for an error that is no
    cancellation. *)
Theorem mountEffect_outcomes (catalogAnswer : response (list Institution.t))
  (net : network) (aborted : AbortSignal) :
  snd (mountEffect catalogAnswer net aborted) = inl tt
  /\ (aborted 0%nat = true ->
      mountEffect catalogAnswer net aborted = ([GetInstitutions], inl tt))
  /\ (forall msg,
        aborted 0%nat = false -> catalogAnswer = failed msg ->
        mountEffect catalogAnswer net aborted
        = ([GetInstitutions;
            Core (ConsoleError (js "Fetch institutions failed:")
                    (RequestError msg))],
           inl tt))
  /\ (forall data,
        aborted 0%nat = false -> catalogAnswer = ok data ->
        fst (mountEffect catalogAnswer net aborted)
        = [GetInstitutions; SetInstitutions data;
           SetInstitutionsFiltered
             (systemInstitutions (js "California Polytechnic University") data)]
            ++ map Core
                 (fst (getAndSetInstitutionAgreements net (js "11") data
                         (Some (fun k => aborted (S k)))))
        /\ forall tag err,
             In (Core (ConsoleError tag err))
                (fst (mountEffect catalogAnswer net aborted)) ->
             tag = js "Fetch agreements failed:" /\ isCancel err = false).
Proof.
  split; [|split; [|split]].
  - destruct (settle (Some aborted) 0 catalogAnswer) as [data|err] eqn:E.
    + now rewrite (mountEffect_fulfilled _ _ _ _ E).
    + now rewrite (mountEffect_rejected _ _ _ _ E).
  - intros H. apply (mountEffect_rejected _ _ _ CanceledError).
    unfold settle. now rewrite H.
  - intros msg H ->. apply (mountEffect_rejected _ _ _ (RequestError msg)).
    unfold settle. now rewrite H.
  - intros data H ->.
    rewrite (mountEffect_fulfilled (ok data) net aborted data)
      by (unfold settle; now rewrite H).
    split; [reflexivity|]. intros tag err Hin. cbn [fst] in Hin.
    apply in_app_iff in Hin as [Hin|Hin].
    + destruct Hin as [Hin|[Hin|[Hin|[]]]]; discriminate.
    + apply in_map_iff in Hin as (e & E & Hin). injection E as ->.
      apply run_log in Hin. tauto.
Qed.

Lemma mountEffect_outcomes_witness :
  mountEffect (ok threeColleges) everyPartnerAnswers abortedDuringList
  = ([GetInstitutions], inl tt).
Proof.
  apply (proj1 (proj2 (mountEffect_outcomes (ok threeColleges)
                         everyPartnerAnswers abortedDuringList))).
  reflexivity.
Defined.

Lemma handleInstitutionSelect_trace net st value :
  handleInstitutionSelect net st value
  = ([SetSelectedInstitution value; Core (SetMajors []);
      Core (SetSelectedMajor (js "")); SetQuery (js "")]
       ++ map Core
            (fst (getAndSetInstitutionAgreements net value
                    (Home.institutions st) None)),
     inl tt).
Proof.
  unfold handleInstitutionSelect. simpl.
  pose proof (run_never_throws net value (Home.institutions st) None) as Hn.
  destruct (getAndSetInstitutionAgreements net value (Home.institutions st) None)
    as [t r].
  simpl in *. now rewrite Hn.
Qed.



(* ===================================================================== *)
(** ** What the handlers keep *)
(* ===================================================================== *)

Lemma majorsConsistent_frame st st' :
  Home.majors st' = Home.majors st ->
  Home.selectedMajor st' = Home.selectedMajor st ->
  majorsConsistent st -> majorsConsistent st'.
Proof. unfold majorsConsistent. now intros -> ->. Qed.

Lemma majorsConsistent_cleared st' :
  Home.majors st' = [] -> Home.selectedMajor st' = js "" -> majorsConsistent st'.
Proof.
  intros Hm Hs. unfold majorsConsistent. rewrite Hm, Hs.
  split; [constructor|]. split; [constructor|]. now left.
Qed.

Lemma majorsConsistent_aggregated st' all :
  Home.majors st' = uniqueMajors all ->
  Home.selectedMajor st' = defaultMajor (uniqueMajors all) ->
  majorsConsistent st'.
Proof.
  intros Hm Hs. unfold majorsConsistent. rewrite Hm, Hs.
  split; [apply sort_sorted|]. split; [apply uniqueMajors_NoDup|].
  apply defaultMajor_consistent.
Qed.

Lemma majorsConsistent_run net institutionId schools signal st :
  majorsConsistent st ->
  majorsConsistent
    (fold_left home_apply
       (map Core (fst (getAndSetInstitutionAgreements net institutionId schools
                         signal))) st).
Proof.
  intros H.
  destruct (home_after_run net institutionId schools signal st)
    as [(data & _ & ->)|(err & _ & ->)]; [|exact H].
  now apply (majorsConsistent_aggregated _
               (contributions net signal institutionId 0
                  (map (resolveAgreement schools) data))).
Qed.

Lemma majorsConsistent_mount st catalogAnswer net aborted :
  majorsConsistent st ->
  majorsConsistent (home_after st (mountEffect catalogAnswer net aborted)).
Proof.
  intros H. unfold home_after.
  destruct (settle (Some aborted) 0 catalogAnswer) as [data|err] eqn:E.
  - rewrite (mountEffect_fulfilled _ _ _ _ E). cbn [fst].
    rewrite fold_left_app. apply majorsConsistent_run.
    now apply (majorsConsistent_frame st).
  - rewrite (mountEffect_rejected _ _ _ _ E). cbn [fst].
    destruct (isCancel err); now apply (majorsConsistent_frame st).
Qed.

Lemma majorsConsistent_handle st a :
  majorsConsistent st -> enabled st a ->
  majorsConsistent (home_after st (handle st a)).
Proof.
  intros H He. destruct a as [value|net value|major|value]; simpl in *.
  - now apply majorsConsistent_cleared.
  - unfold home_after. rewrite handleInstitutionSelect_trace. cbn [fst].
    rewrite fold_left_app. apply majorsConsistent_run.
    now apply majorsConsistent_cleared.
  - destruct H as (Hs & Hn & _). unfold majorsConsistent. simpl.
    split; [exact Hs|]. split; [exact Hn|]. right.
    now apply filteredMajors_incl in He.
  - now apply (majorsConsistent_frame st).
Qed.

(** X12.  Whatever the user does and whatever the network answers, as long
    as each handler has run to its end before the next one starts: the
    majors are sorted in code-unit order, no major stands twice in the
    list, and the selected major is one of them, or the empty string when
    there is no major. *)
Theorem reachable_majorsConsistent (st : Home.state) :
  reachable st -> majorsConsistent st.
Proof.
  induction 1 as [|st catalogAnswer net aborted _ IH|st a _ IH He].
  - now apply majorsConsistent_cleared.
  - now apply majorsConsistent_mount.
  - now apply majorsConsistent_handle.
Qed.

Lemma reachable_majorsConsistent_witness :
  majorsConsistent
    (home_after
       (home_after homeInitial
          (mountEffect (ok threeColleges) everyPartnerAnswers (fun _ => false)))
       (handle
          (home_after homeInitial
             (mountEffect (ok threeColleges) everyPartnerAnswers (fun _ => false)))
          (MajorPick (js "Chemistry")))).
Proof.
  apply reachable_majorsConsistent.
  apply reach_handle.
  - apply reach_mount, reach_initial.
  - vm_compute. right. right. left. reflexivity.
Defined.

Lemma at_last_In {A : Type} (l : list A) (x : A) : at_last l = Some x -> In x l.
Proof.
  destruct l as [|y l] using rev_ind; [discriminate|].
  rewrite at_last_snoc. intros E. injection E as ->.
  apply in_or_app. right. now left.
Qed.

(** X13.  The pipeline asks for nothing it was not given.  Every major
    request of a run is made for the receiving institution of the call, for
    a partner whose id is the id of an institution of the catalog, and for a
    year that stands in [sendingYearIds] or [receivingYearIds] of a record
    of the agreement list, neither id nor year being empty; and a run makes
    one request for the list and at most one per record of the list. *)
Theorem requests_come_from_catalog_and_list (net : network)
  (institutionId : jsstring) (schools : list Institution.t)
  (signal : option AbortSignal) :
  (forall receiving sending year,
     In (Get (GetMajorAgreements receiving sending year))
        (fst (getAndSetInstitutionAgreements net institutionId schools signal)) ->
     receiving = institutionId
     /\ sending <> [] /\ year <> []
     /\ (exists inst, In inst schools /\ Institution.id inst = sending)
     /\ exists data record ids,
          settle signal 0 (institutionAgreements net institutionId) = fulfilled data
          /\ In record data
          /\ (AgreementInstitution.sendingYearIds record = Some ids
              \/ AgreementInstitution.receivingYearIds record = Some ids)
          /\ In year ids)
  /\ (forall data,
        settle signal 0 (institutionAgreements net institutionId) = fulfilled data ->
        (length (filter isGet
                   (fst (getAndSetInstitutionAgreements net institutionId schools
                           signal)))
         <= 1 + length data)%nat)
  /\ (forall err,
        settle signal 0 (institutionAgreements net institutionId) = rejected err ->
        filter isGet
          (fst (getAndSetInstitutionAgreements net institutionId schools signal))
        = [Get (GetInstitutionAgreements institutionId)]).
Proof.
  split; [|split].
  - intros receiving sending year Hin.
    destruct (run_cases net institutionId schools signal)
      as [(data & Hs & E)|(err & Hs & E)]; rewrite E in Hin; cbn [fst] in Hin.
    + apply in_app_iff in Hin as [[Hin|[Hin|[]]]|Hin]; try discriminate.
      apply in_app_iff in Hin as [Hin|[Hin|[Hin|[]]]]; try discriminate.
      apply partnerRequests_In in Hin as (a & id & y & Ha & Hf & Eq).
      injection Eq as -> -> ->.
      apply in_map_iff in Ha as (record & <- & Hrec).
      unfold fetchParams in Hf. simpl in Hf.
      destruct (resolveId schools _) as [[|c sid]|] eqn:Eid; try discriminate.
      destruct (nullish _ _) as [[|d yr]|] eqn:Ey; try discriminate.
      injection Hf as <- <-.
      split; [reflexivity|]. split; [discriminate|]. split; [discriminate|]. split.
      * unfold resolveId in Eid.
        destruct (find _ schools) as [inst|] eqn:Ef; [|discriminate].
        injection Eid as Eid. exists inst. split; [|exact Eid].
        apply find_first in Ef as (b & a & -> & _). apply in_or_app. right. now left.
      * exists data, record. unfold nullish, opt_at_last in Ey.
        destruct (AgreementInstitution.sendingYearIds record) as [ids|] eqn:Es.
        -- destruct (at_last ids) as [y0|] eqn:El.
           ++ injection Ey as <-. exists ids. repeat split; auto.
              now apply at_last_In.
           ++ destruct (AgreementInstitution.receivingYearIds record)
                as [ids'|] eqn:Er; [|discriminate].
              exists ids'. repeat split; auto. now apply at_last_In.
        -- destruct (AgreementInstitution.receivingYearIds record)
             as [ids'|] eqn:Er; [|discriminate].
           exists ids'. repeat split; auto. now apply at_last_In.
    + destruct Hin as [Hin|Hin]; [discriminate|].
      destruct (isCancel err); [destruct Hin|].
      destruct Hin as [Hin|[]]. discriminate.
  - intros data Hs.
    rewrite (run_fulfilled net institutionId schools signal data Hs). cbn [fst].
    simpl. rewrite filter_app, partnerRequests_are_gets. simpl.
    rewrite app_nil_r.
    pose proof (partnerRequests_length institutionId
                  (map (resolveAgreement schools) data)) as H.
    rewrite length_map in H. lia.
  - intros err Hs.
    rewrite (run_rejected net institutionId schools signal err Hs). cbn [fst].
    simpl. now destruct (isCancel err).
Qed.

Lemma requests_come_from_catalog_and_list_witness :
  (length (filter isGet
             (fst (getAndSetInstitutionAgreements onlyThirdAnswers (js "11")
                     threeColleges None)))
   <= 1 + length threePartners)%nat.
Proof.
  apply (proj1 (proj2 (requests_come_from_catalog_and_list onlyThirdAnswers
                         (js "11") threeColleges None))).
  reflexivity.
Defined.




(** X15.  Choosing a system issues no request.  It leaves no majors, no
    selected major, no selected institution and an empty query, stores the
    chosen system, and lists the institutions of that system among the
    catalog of the render; each institution then listed has an option text
    for the stored system. *)
Theorem handleSystemSelect_outcome (st : Home.state) (value : jsstring) :
  filter isHomeGet (fst (handleSystemSelect st value)) = []
  /\ home_after st (handleSystemSelect st value)
     = {| Home.institutions := Home.institutions st;
          Home.institutions_filtered :=
            systemInstitutions value (Home.institutions st);
          Home.selectedSystem := value;
          Home.selectedInstitution := js "";
          Home.institutionsWithAgreements := Home.institutionsWithAgreements st;
          Home.majors := [];
          Home.selectedMajor := js "";
          Home.query := js "" |}
  /\ (forall inst,
        In inst (Home.institutions_filtered
                   (home_after st (handleSystemSelect st value))) ->
        exists label,
          optionLabel (Home.selectedSystem
                         (home_after st (handleSystemSelect st value))) inst
          = Some label).
Proof.
  split; [reflexivity|]. split; [reflexivity|].
  intros inst Hin. simpl in Hin.
  destruct (proj1 (proj2 (proj2 (systemInstitutions_facts value
                                   (Home.institutions st)))) inst Hin)
    as (label & E & _).
  now exists label.
Qed.
